(** * sdr2msghub: the adaptive sampling loop of [edge/msghub/sdr2msghub/main.go]

    A shallow embedding of the Go program and the properties of its
    model loader, goodness estimator, sampling loop, publisher call and
    message-hub connection.

    Go's [float32] is IEEE 754 binary32; it is modelled by the standard
    library's [spec_float] at precision 24 and maximal exponent 128, whose
    operations round to nearest, ties to even, as Go's do. *)

From Stdlib Require Import ZArith Bool List String Ascii Lia SpecFloat.
From stdpp Require Import base option list gmap strings.

Local Open Scope Z_scope.

(** ** float32 *)

Module F32.

Definition prec : Z := 24.
Definition emax : Z := 128.

Definition float32 : Type := spec_float.

Definition add : float32 -> float32 -> float32 := SFadd prec emax.
Definition mul : float32 -> float32 -> float32 := SFmul prec emax.

(** The product before it is rounded.  [SFadd] aligns its arguments and rounds
    their exact sum once, whatever the size of the mantissas, so adding to the
    unrounded product is the fused multiply-add. *)
Definition mul_exact (x y : float32) : float32 :=
  match x, y with
  | S754_finite sx mx ex, S754_finite sy my ey =>
      S754_finite (xorb sx sy) (mx * my) (ex + ey)
  | _, _ => mul x y
  end.

(** The fused multiply-add: [x*y + z] rounded once.  With [z] a zero the sum is
    the product itself. *)
Definition fma (x y z : float32) : float32 :=
  match x, y, z with
  | S754_finite _ _ _, S754_finite _ _ _, S754_zero _ => mul x y
  | _, _, _ => add (mul_exact x y) z
  end.

(** [x*y + z] as Go evaluates it.  The language lets a compiler fuse the two
    operations into one that rounds once (arm64, ppc64, s390x and riscv64 do);
    otherwise the product is rounded before the sum (amd64, 386, arm). *)
Definition mul_add (fused : bool) (x y z : float32) : float32 :=
  if fused then fma x y z else add (mul x y) z.

(** Go's [==], [<], [>], [<=] and [>=] on floats: false as soon as one side is NaN. *)
Definition eqb : float32 -> float32 -> bool := SFeqb.
Definition ltb : float32 -> float32 -> bool := SFltb.
Definition leb : float32 -> float32 -> bool := SFleb.
Definition gtb (x y : float32) : bool := SFltb y x.
Definition geb (x y : float32) : bool := SFleb y x.

Definition is_nan (x : float32) : bool :=
  match x with S754_nan => true | _ => false end.

(** A value Go can hold: the mantissa and exponent are in binary32's range. *)
Definition valid (x : float32) : bool := valid_binary prec emax x.

(** Zero of either sign, a positive number or positive infinity. *)
Definition nonneg (x : float32) : bool :=
  match x with
  | S754_zero _ | S754_finite false _ _ | S754_infinity false => true
  | _ => false
  end.

(** A positive number or positive infinity. *)
Definition positive_ (x : float32) : bool :=
  match x with
  | S754_finite false _ _ | S754_infinity false => true
  | _ => false
  end.

(** What [==] identifies: the same number, the two zeros included. *)
Definition same_value (x y : float32) : Prop :=
  match x, y with
  | S754_zero _, S754_zero _ => True
  | S754_infinity s, S754_infinity s' => s = s'
  | S754_finite s m e, S754_finite s' m' e' => s = s' /\ m = m' /\ e = e'
  | _, _ => False
  end.

Definition zero : float32 := S754_zero false.
Definition one : float32 := S754_finite false 8388608 (-23).
Definition minus_one : float32 := S754_finite true 8388608 (-23).
(** The untyped constants [0.5], [0.3] and [0.05] of [main], converted to
    [float32]: the nearest floats. *)
Definition c0_5 : float32 := S754_finite false 8388608 (-24).
Definition c0_3 : float32 := S754_finite false 10066330 (-25).
Definition c0_05 : float32 := S754_finite false 13421773 (-28).
(** [0.9] and [0.65] as [float32], for the examples. *)
Definition c0_9 : float32 := S754_finite false 15099494 (-24).
Definition c0_65 : float32 := S754_finite false 10905190 (-24).

End F32.

Import F32.

(** ** Values of the Go runtime *)

(** Go's [error] values carry a message; [nil] is [None] where a function returns one. *)
Definition error : Type := string.

Inductive panic_value : Type :=
| PanicString (msg : string)
| PanicError (err : error)
| PanicSliceBounds (bound len : nat).

(** [time.Time] as nanoseconds since the zero time; [time.Duration] is an int64 of
    nanoseconds and [Sub] saturates to its range. *)
Module time.
Definition Time : Type := Z.
Definition Duration : Type := Z.
Definition zero : Time := 0.
Definition minDuration : Duration := - 2 ^ 63.
Definition maxDuration : Duration := 2 ^ 63 - 1.
Definition Sub (t u : Time) : Duration :=
  Z.max minDuration (Z.min maxDuration (t - u)).
Definition Minute : Duration := 60 * 1000000000.
End time.

(** ** Strings as Go has them: byte sequences *)

(** [s[:n]] and [s[n:]]: [None] stands for the run-time panic "slice bounds out of range". *)
Definition slice_to (s : string) (n : nat) : option string :=
  if (n <=? String.length s)%nat then Some (String.substring 0 n s) else None.
Definition slice_from (s : string) (n : nat) : option string :=
  if (n <=? String.length s)%nat then Some (String.substring n (String.length s - n) s) else None.

(** [strings.Split(s, sep)] for a one-byte separator. *)
Fixpoint Split_aux (sep : ascii) (s : string) (cur : string) : list string :=
  match s with
  | EmptyString => [cur]
  | String c s' =>
      if Ascii.eqb c sep then cur :: Split_aux sep s' EmptyString
      else Split_aux sep s' (cur +:+ String c EmptyString)
  end.
Definition Split (s : string) (sep : ascii) : list string := Split_aux sep s EmptyString.

(** ** The station-to-goodness map

    [map[float32]float32]: keys are compared with Go's [==] on floats, so [+0] and
    [-0] are one key and a NaN key is never found again.  The entries are kept in
    a list; the order in which [range] visits them is the runtime's choice. *)

Definition station_map : Type := list (float32 * float32).

(** [v, prs := m[k]] *)
Fixpoint lookup (m : station_map) (k : float32) : option float32 :=
  match m with
  | [] => None
  | (k', v) :: m' => if eqb k' k then Some v else lookup m' k
  end.

(** [m[k]] read as a value: the zero value when the key is absent. *)
Definition index (m : station_map) (k : float32) : float32 :=
  match lookup m k with Some v => v | None => zero end.

(** [m[k] = v]: the entry with an equal key is overwritten (Go stores the new
    key too, since equal float keys can differ in sign of zero); otherwise a new
    entry is added. *)
Fixpoint assign (m : station_map) (k v : float32) : station_map :=
  match m with
  | [] => [(k, v)]
  | (k', v') :: m' => if eqb k' k then (k, v) :: m' else (k', v') :: assign m' k v
  end.

(** ** Effects: what the program prints and which collaborators it calls *)

Record AudioMsg : Type := {
  Audio : list Byte.byte;
  Ts : time.Time;
  Freq : float32;
  ExpectedValue : float32;
  DevID : string;
}.

(** The fields of [sarama.Config] that [populateConfig] sets. *)
Record Config : Type := {
  ClientID : string;
  RequiredAcks_WaitForAll : bool;
  Retry_Max : Z;
  Return_Successes : bool;
  TLS_Enable : bool;
  SASL_User : string;
  SASL_Password : string;
  SASL_Enable : bool;
}.

Inductive pval : Type :=
| PStr (s : string)
| PStrs (l : list string)
| PInt (n : Z)
| PFloat (x : float32)
| PMap (m : station_map)
| PErr (e : error).

Inductive event : Type :=
| Println (args : list pval)
| Printf (format : string) (args : list pval)
| LogPrintf (format : string) (args : list pval)
| CallGetCeilingSignals (host : string) (threshold : Z)
| CallGetAudio (host : string) (station : float32)
| CallGoodness (audio : list Byte.byte)
| CallSendMessage (topic : string) (msg : AudioMsg)
| CallNewSyncProducer (brokers : list string) (config : Config).

(** A Go call either returns or panics, after the effects it had so far. *)
Inductive result (A : Type) : Type :=
| Return (a : A)
| Panic (p : panic_value).
Arguments Return {A} a.
Arguments Panic {A} p.

Definition M (A : Type) : Type := list event * result A.

Definition ret {A} (a : A) : M A := ([], Return a).
Definition panic {A} (p : panic_value) : M A := ([], Panic p).
Definition emit (e : event) : M unit := ([e], Return tt).
Definition bind {A B} (c : M A) (f : A -> M B) : M B :=
  match c with
  | (t, Return a) => let '(t', r) := f a in (t ++ t', r)
  | (t, Panic p) => (t, Panic p)
  end.

Declare Scope go_scope.
Delimit Scope go_scope with go.
Notation "x <- c ;; k" := (bind c (fun x => k))
  (at level 100, c at next level, right associativity) : go_scope.
Notation "c ;;; k" := (bind c (fun _ => k))
  (at level 100, right associativity) : go_scope.
Local Open Scope go_scope.

Definition trace {A} (c : M A) : list event := fst c.
Definition outcome {A} (c : M A) : result A := snd c.

Fixpoint emit_all (es : list event) : M unit :=
  match es with
  | [] => ret tt
  | e :: es' => emit e ;;; emit_all es'
  end.

(** ** The model loader *)

Definition safeOPtypes : list string :=
  [ "Const"; "Placeholder"; "Conv2D"; "Cast"; "Div"; "StatelessRandomNormal";
    "ExpandDims"; "AudioSpectrogram"; "DecodeRaw"; "Reshape"; "MatMul"; "Sum";
    "Softmax"; "Squeeze"; "RandomUniform"; "Identity" ]%string.

Definition opIsSafe (a : string) : bool :=
  existsb (fun b => String.eqb b a) safeOPtypes.

(** An operation of an imported graph: [op.Name()] and [op.Type()]. *)
Record Operation : Type := { op_Name : string; op_Type : string }.

Definition Graph : Type := list Operation.

(** [graph.Operation(name)]: [None] is Go's [nil]. *)
Definition graph_Operation (g : Graph) (name : string) : option Operation :=
  List.find (fun op => String.eqb (op_Name op) name) g.

(** [tf.Output]: an operation and the index of one of its outputs. *)
Record Output : Type := { Op : Operation; Index : nat }.

(** A session is bound to the graph it was opened on. *)
Record Session : Type := { session_graph : Graph }.

(** [model]; [None] in a field is Go's zero value. *)
Record model : Type := {
  Sess : option Session;
  InputPH : option Output;
  model_Output : option Output;
}.

Definition zero_model : model :=
  {| Sess := None; InputPH := None; model_Output := None |}.

(** What [newModel] gets from outside: the file system, TensorFlow, and the order
    in which the runtime ranges over a [map[string]bool]. *)
Record loader_world : Type := {
  ReadFile : string -> error + list Byte.byte;
  Import : list Byte.byte -> error + Graph;
  NewSession : Graph -> error + Session;
  range_keys : list string -> list string;
}.

(** The loop over [ops]: the pair is [(unsafeOPs, graphIsUnsafe)]. *)
Definition scan_ops (ops : list Operation) : gmap string bool * bool :=
  foldl (fun acc op =>
           if negb (opIsSafe (op_Type op))
           then (<[op_Type op := true]> (fst acc), true)
           else acc)
        (∅, false) ops.

Definition newModel (w : loader_world) (path : string) : M (model * option error) :=
  match ReadFile w path with
  | inl err => panic (PanicError err)
  | inr def =>
    match Import w def with
    | inl err => panic (PanicError err)
    | inr graph =>
      let ops := graph in
      let '(unsafeOPs, graphIsUnsafe) := scan_ops ops in
      if graphIsUnsafe then
        emit (Println [PStr "The following OP types are not in whitelist:"]) ;;;
        emit_all (map (fun op => Println [PStr op])
                      (range_keys w (map_to_list unsafeOPs).*1)) ;;;
        ret (zero_model, Some "unsafe OPs"%string)
      else
        match graph_Operation graph "output" with
        | None => ret (zero_model, Some "output OP not found"%string)
        | Some outputOP =>
          let m := {| Sess := None; InputPH := None;
                      model_Output := Some {| Op := outputOP; Index := 0 |} |} in
          match graph_Operation graph "input/Placeholder" with
          | None => ret (m, Some "input OP not found"%string)
          | Some inputPHOP =>
            let m := {| Sess := None;
                        InputPH := Some {| Op := inputPHOP; Index := 0 |};
                        model_Output := model_Output m |} in
            match NewSession w graph with
            | inl err => ret (m, Some err)
            | inr sess =>
              ret ({| Sess := Some sess; InputPH := InputPH m;
                      model_Output := model_Output m |}, None)
            end
          end
        end
    end
  end.

(** ** Configuration and the message-hub connection *)

Definition nonempty (s : string) : bool :=
  match s with EmptyString => false | _ => true end.

(** The loop of [getEnv]: the first key whose value is not empty. *)
Fixpoint getEnv_first (Getenv : string -> string) (keys : list string) : option string :=
  match keys with
  | [] => None
  | key :: keys' =>
      let val := Getenv key in
      if nonempty val then Some val else getEnv_first Getenv keys'
  end.

Definition getEnv (Getenv : string -> string) (keys : list string) : M string :=
  match keys with
  | [] => panic (PanicString "must give at least one key")
  | _ =>
    match getEnv_first Getenv keys with
    | Some val => ret val
    | None =>
      emit (Println [PStr "none of"; PStrs keys; PStr "are set"]) ;;;
      panic (PanicString "can't any find set value")
    end
  end.

(** The producer remembers what it was created from. *)
Record SyncProducer : Type := { producer_brokers : list string; producer_config : Config }.

Record msghubConn : Type := { Producer : option SyncProducer; Topic : string }.

(** [sarama.NewConfig()], as far as [populateConfig] overwrites it. *)
Definition NewConfig : Config :=
  {| ClientID := "sarama"; RequiredAcks_WaitForAll := false; Retry_Max := 3;
     Return_Successes := false; TLS_Enable := false; SASL_User := "";
     SASL_Password := ""; SASL_Enable := false |}.

Definition populateConfig (config : Config) (user pw apiKey : string) : Config * option error :=
  ({| ClientID := apiKey; RequiredAcks_WaitForAll := true; Retry_Max := 5;
      Return_Successes := true; TLS_Enable := true; SASL_User := user;
      SASL_Password := pw; SASL_Enable := true |}, None).

Definition connect (Getenv : string -> string)
    (NewSyncProducer : list string -> Config -> option error) (topic : string)
  : M (msghubConn * option error) :=
  apiKey <- getEnv Getenv ["MSGHUB_API_KEY"%string] ;;
  emit (Println [PStr "msghub key:"; PStr apiKey]) ;;;
  match slice_to apiKey 16 with
  | None => panic (PanicSliceBounds 16 (String.length apiKey))
  | Some username =>
    match slice_from apiKey 16 with
    | None => panic (PanicSliceBounds 16 (String.length apiKey))
    | Some password =>
      brokerStr <- getEnv Getenv ["MSGHUB_BROKER_URL"%string] ;;
      emit (Println [PStr "url:"; PStr brokerStr]) ;;;
      let brokers := Split brokerStr ","%char in
      let '(config, err) := populateConfig NewConfig username password apiKey in
      match err with
      | Some e => ret ({| Producer := None; Topic := topic |}, Some e)
      | None =>
        emit (Println [PStr "now connecting to msghub"]) ;;;
        emit (CallNewSyncProducer brokers config) ;;;
        emit (Println [PStr "done trying to connect"]) ;;;
        match NewSyncProducer brokers config with
        | Some e => ret ({| Producer := None; Topic := topic |}, Some e)
        | None =>
          ret ({| Producer := Some {| producer_brokers := brokers;
                                      producer_config := config |};
                  Topic := topic |}, None)
        end
      end
    end
  end.

(** [conn.publishAudio(audioMsg)]; [sent] is what [SendMessage] answers. *)
Definition publishAudio (conn : msghubConn) (audioMsg : AudioMsg) (sent : error + Z * Z)
  : M (option error) :=
  emit (CallSendMessage (Topic conn) audioMsg) ;;;
  match sent with
  | inl err =>
      emit (LogPrintf "FAILED to send message: %s\n" [PErr err]) ;;; ret (Some err)
  | inr (partition, offset) =>
      emit (LogPrintf "> message sent to partition %d at offset %d\n"
                      [PInt partition; PInt offset]) ;;;
      ret None
  end.

(** ** The scoring function *)

(** [m.goodness(audio)]: TensorFlow's answer is [scored]; on an error the value
    returned is the zero value. *)
Definition goodness (m : model) (audio : list Byte.byte) (scored : error + float32)
  : M (float32 * option error) :=
  emit (CallGoodness audio) ;;;
  match scored with
  | inl err => ret (zero, Some err)
  | inr value => ret (value, None)
  end.

(** ** The sampling loop of [main] *)

(** What [main] has set up before its loop. *)
Record loop_context : Type := {
  hostname : string;
  devID : string;
  m_model : model;
  conn : msghubConn;
}.

(** The variables the loop carries from one iteration to the next. *)
Record loop_state : Type := {
  stationGoodness : station_map;
  lastStationsRefresh : time.Time;
}.

(** What the outside answers while one station is visited. *)
Record station_world : Type := {
  rand_Float32 : float32;
  GetAudio : error + list Byte.byte;
  scored : error + float32;
  TimestampNow : time.Time;
  sent : error + Z * Z;
}.

(** What the outside answers during one iteration of the loop: the two readings
    of the clock, the discovery, the order in which [range] visits the entries
    of the map, and the answers for the n-th station visited. *)
Record iteration_world : Type := {
  Now_check : time.Time;
  GetCeilingSignals : error + list float32;
  Now_refreshed : time.Time;
  range_order : station_map -> list (float32 * float32);
  station_worlds : nat -> station_world;
}.

(** Lines 224-229: one station of the discovered list. *)
Definition ensureTracked (m : station_map) (station : float32) : M station_map :=
  match lookup m station with
  | Some _ => ret m
  | None =>
      emit (Println [PStr "found new station: "; PFloat station]) ;;;
      ret (assign m station c0_5)
  end.

(** Lines 223-230. *)
Fixpoint track_stations (m : station_map) (stations : list float32) : M station_map :=
  match stations with
  | [] => ret m
  | station :: rest => m' <- ensureTracked m station ;; track_stations m' rest
  end.

Definition refresh_due (now last : time.Time) : bool :=
  5 * time.Minute <? time.Sub now last.

(** Lines 217-238: the discovery tick. *)
Definition refresh_stations (c : loop_context) (s : loop_state) (w : iteration_world)
  : M loop_state :=
  if refresh_due (Now_check w) (lastStationsRefresh s) then
    emit (CallGetCeilingSignals (hostname c) (-8)) ;;;
    match GetCeilingSignals w with
    | inl err => panic (PanicError err)
    | inr stations =>
      m <- track_stations (stationGoodness s) stations ;;
      if (length m <? 1)%nat then panic (PanicString "No FM stations. Move the antenna?")
      else
        emit (Println [PStr "found"; PInt (Z.of_nat (length stations)); PStr "stations"]) ;;;
        emit (Println [PMap m]) ;;;
        ret {| stationGoodness := m; lastStationsRefresh := Now_refreshed w |}
    end
  else ret s.

(** Line 251: the estimator's update, [old*(val+0.3) + 0.05]. *)
Definition updated_goodness (fused : bool) (old val : float32) : float32 :=
  mul_add fused old (add val c0_3) c0_05.

(** Lines 240-269: the body of the loop over the tracked stations. *)
Definition sample_station (fused : bool) (c : loop_context) (m : station_map)
    (station goodness_ : float32) (w : station_world) : M station_map :=
  if ltb (rand_Float32 w) goodness_ then
    emit (CallGetAudio (hostname c) station) ;;;
    match GetAudio w with
    | inl err => panic (PanicError err)
    | inr audio =>
      r <- goodness (m_model c) audio (scored w) ;;
      match r with
      | (_, Some err) => panic (PanicError err)
      | (val, None) =>
        let m' := assign m station (updated_goodness fused (index m station) val) in
        emit (Println [PFloat station; PStr "observed value:"; PFloat val;
                       PStr "updated goodness:"; PFloat (index m' station)]) ;;;
        if gtb val c0_5 then
          let msg := {| Audio := audio; Ts := TimestampNow w; Freq := station;
                        ExpectedValue := val; DevID := devID c |} in
          err <- publishAudio (conn c) msg (sent w) ;;
          match err with
          | Some e => emit (Println [PErr e]) ;;; ret m'
          | None => ret m'
          end
        else ret m'
      end
    end
  else ret m.

(** Lines 239-270: [range] visits the entries in an order the runtime chooses;
    [order] is that sequence of keys with the values they hold when the pass
    starts, and the n-th visit gets the n-th answers.  A visit assigns only its
    own key, so the value a visit sees is the one the entry held at the start.
    (An assignment to a NaN key adds an entry; Go leaves open whether the same
    pass visits it, and here the next pass does.) *)
Fixpoint sampling_pass (fused : bool) (c : loop_context) (m : station_map)
    (order : list (float32 * float32)) (ws : nat -> station_world) (n : nat)
  : M station_map :=
  match order with
  | [] => ret m
  | (station, goodness_) :: rest =>
      m' <- sample_station fused c m station goodness_ (ws n) ;;
      sampling_pass fused c m' rest ws (S n)
  end.

(** One iteration of the [for] of [main]. *)
Definition main_iteration (fused : bool) (c : loop_context) (s : loop_state)
    (w : iteration_world) : M loop_state :=
  s' <- refresh_stations c s w ;;
  m' <- sampling_pass fused c (stationGoodness s') (range_order w (stationGoodness s'))
                      (station_worlds w) 0 ;;
  ret {| stationGoodness := m'; lastStationsRefresh := lastStationsRefresh s' |}.

(** The loop never ends by itself: [main_loop] runs it for the iterations whose
    answers are given. *)
Fixpoint main_loop (fused : bool) (c : loop_context) (s : loop_state)
    (ws : list iteration_world) : M loop_state :=
  match ws with
  | [] => ret s
  | w :: ws' => s' <- main_iteration fused c s w ;; main_loop fused c s' ws'
  end.

Definition initial_state : loop_state :=
  {| stationGoodness := []; lastStationsRefresh := time.zero |}.

(** What [main] reads from outside before the loop. *)
Record main_world : Type := {
  Getenv : string -> string;
  loader : loader_world;
  NewSyncProducer : list string -> Config -> option error;
}.

(** Lines 191-210 of [main]. *)
Definition main_setup (w : main_world) : M loop_context :=
  let alt_addr := Getenv w "RTLSDR_ADDR" in
  host <- (if nonempty alt_addr
           then emit (Println [PStr "connecting to remote rtlsdr:"; PStr alt_addr]) ;;;
                ret alt_addr
           else ret "sdr"%string) ;;
  org <- getEnv (Getenv w) ["HZN_ORG_ID"%string] ;;
  dev <- getEnv (Getenv w) ["HZN_DEVICE_ID"%string] ;;
  let devID := (org +:+ "/" +:+ dev)%string in
  r <- newModel (loader w) "model.pb" ;;
  match r with
  | (_, Some err) => panic (PanicError err)
  | (m, None) =>
    emit (Println [PStr "model loaded"]) ;;;
    topic <- getEnv (Getenv w) ["MSGHUB_TOPIC"%string] ;;
    emit (Printf "using topic %s\n" [PStr topic]) ;;;
    r <- connect (Getenv w) (NewSyncProducer w) topic ;;
    match r with
    | (_, Some err) => panic (PanicError err)
    | (conn, None) =>
      emit (Println [PStr "connected to msghub"]) ;;;
      ret {| hostname := host; devID := devID; m_model := m; conn := conn |}
    end
  end.

(** [main], run for the iterations whose answers are given. *)
Definition main (fused : bool) (w : main_world) (ws : list iteration_world)
  : M loop_state :=
  c <- main_setup w ;;
  main_loop fused c initial_state ws.

(** The message built at lines 256-262. *)
Definition message_for (c : loop_context) (station val : float32) (audio : list Byte.byte)
    (w : station_world) : AudioMsg :=
  {| Audio := audio; Ts := TimestampNow w; Freq := station; ExpectedValue := val;
     DevID := devID c |}.

(** What the publisher call adds to the trace. *)
Definition publish_events (c : loop_context) (msg : AudioMsg) (w : station_world)
  : list event :=
  CallSendMessage (Topic (conn c)) msg
  :: match sent w with
     | inl err => [LogPrintf "FAILED to send message: %s\n" [PErr err]; Println [PErr err]]
     | inr (partition, offset) =>
         [LogPrintf "> message sent to partition %d at offset %d\n"
                    [PInt partition; PInt offset]]
     end.

(** ** The estimator's floor *)

(** Every score that can be read from the map is at least [0.05]. *)
Definition above_floor (m : station_map) : Prop :=
  forall k s, lookup m k = Some s -> leb c0_05 s = true.

(** Scoring answers with values that are not negative. *)
Definition scores_nonneg (w : iteration_world) : Prop :=
  forall n v, scored (station_worlds w n) = inr v -> leb zero v = true.

(** [range] visits the entries of the map, each once, in some order. *)
Definition range_visits_entries (w : iteration_world) : Prop :=
  forall m, Permutation (range_order w m) m.

(** ** Examples: two FM stations and the answers of the outside *)

(** 91.5 MHz and 101.1 MHz, in Hz. *)
Definition station_91_5 : float32 := S754_finite false 11437500 3.
Definition station_101_1 : float32 := S754_finite false 12637500 3.

Definition example_graph : Graph :=
  [ {| op_Name := "input/Placeholder"; op_Type := "Placeholder" |};
    {| op_Name := "spectrogram"; op_Type := "AudioSpectrogram" |};
    {| op_Name := "output"; op_Type := "Softmax" |} ].

(** A graph that reads a file twice and prints. *)
Definition unsafe_graph : Graph :=
  [ {| op_Name := "input/Placeholder"; op_Type := "Placeholder" |};
    {| op_Name := "read1"; op_Type := "ReadFile" |};
    {| op_Name := "print"; op_Type := "PrintV2" |};
    {| op_Name := "read2"; op_Type := "ReadFile" |};
    {| op_Name := "output"; op_Type := "Softmax" |} ].

Definition example_loader (g : Graph) : loader_world :=
  {| ReadFile := fun _ => inr [];
     Import := fun _ => inr g;
     NewSession := fun g => inr {| session_graph := g |};
     range_keys := @rev string |}.

Definition example_context : loop_context :=
  {| hostname := "sdr";
     devID := "myorg/mydevice";
     m_model := {| Sess := Some {| session_graph := example_graph |};
                   InputPH := None; model_Output := None |};
     conn := {| Producer := None; Topic := "sdr-audio" |} |}.

(** The draw is 0, the clip is scored 0.9 and the bus accepts or refuses it. *)
Definition speech_world : station_world :=
  {| rand_Float32 := zero; GetAudio := inr []; scored := inr c0_9;
     TimestampNow := 1500000000000000000; sent := inr (0, 42) |}.
Definition broker_down_world : station_world :=
  {| rand_Float32 := zero; GetAudio := inr []; scored := inr c0_9;
     TimestampNow := 1500000000000000000; sent := inl "broker down"%string |}.

Definition example_iteration (found : error + list float32) (now : time.Time)
    (sw : station_world) : iteration_world :=
  {| Now_check := now; GetCeilingSignals := found; Now_refreshed := now + 1000;
     range_order := @rev (float32 * float32); station_worlds := fun _ => sw |}.

(** Two iterations: a discovery of two stations with both publishes accepted,
    then, a second later, a pass whose publishes fail. *)
Definition example_run : list iteration_world :=
  [ example_iteration (inr [station_91_5; station_101_1]) 1500000000000000000
                      speech_world;
    example_iteration (inr []) 1500000001000000000 broker_down_world ].

(** An environment with every variable of the program set; the key has 20 bytes. *)
Definition example_Getenv (key : string) : string :=
  if String.eqb key "MSGHUB_API_KEY" then "0123456789abcdefWXYZ"
  else if String.eqb key "MSGHUB_BROKER_URL" then "broker1:9093,broker2:9093"
  else if String.eqb key "RTLSDR_ADDR" then ""
  else "value".

(** The same with another value for the key. *)
Definition Getenv_with_key (apiKey : string) (key : string) : string :=
  if String.eqb key "MSGHUB_API_KEY" then apiKey else example_Getenv key.

(** A machine on which everything is in place, loading the graph [g]. *)
Definition example_main_world (g : Graph) : main_world :=
  {| Getenv := example_Getenv; loader := example_loader g;
     NewSyncProducer := fun _ _ => None |}.

(** ** Notions for the loader, the environment and the connection *)

(** [strings.Join(parts, sep)]. *)
Fixpoint Join (parts : list string) (sep : string) : string :=
  match parts with
  | [] => ""
  | [p] => p
  | p :: rest => p +:+ sep +:+ Join rest sep
  end.

(** The byte [c] does not occur in [s]. *)
Fixpoint free_of (c : ascii) (s : string) : bool :=
  match s with
  | EmptyString => true
  | String a s' => negb (Ascii.eqb a c) && free_of c s'
  end.

(** The model [newModel] builds from a graph whose ports and session it found. *)
Definition loaded_model (outputOP inputPHOP : Operation) (sess : Session) : model :=
  {| Sess := Some sess;
     InputPH := Some {| Op := inputPHOP; Index := 0 |};
     model_Output := Some {| Op := outputOP; Index := 0 |} |}.

(** The configuration [connect] hands to [sarama.NewSyncProducer] for a key. *)
Definition producer_config_for (apiKey : string) : Config :=
  {| ClientID := apiKey; RequiredAcks_WaitForAll := true; Retry_Max := 5;
     Return_Successes := true; TLS_Enable := true;
     SASL_User := String.substring 0 16 apiKey;
     SASL_Password := String.substring 16 (String.length apiKey - 16) apiKey;
     SASL_Enable := true |}.

(** What [connect] returns for the producer's answer [err]. *)
Definition connection_for (brokers : list string) (config : Config) (topic : string)
    (err : option error) : msghubConn :=
  match err with
  | Some _ => {| Producer := None; Topic := topic |}
  | None => {| Producer := Some {| producer_brokers := brokers;
                                   producer_config := config |};
               Topic := topic |}
  end.

(** The address of the radio: [RTLSDR_ADDR] when set, else the default. *)
Definition radio_host (Getenv : string -> string) : string :=
  if nonempty (Getenv "RTLSDR_ADDR"%string) then Getenv "RTLSDR_ADDR"%string
  else "sdr"%string.

(** What [main] prints and calls before its loop when nothing fails. *)
Definition setup_trace (Getenv : string -> string) : list event :=
  (if nonempty (Getenv "RTLSDR_ADDR"%string)
   then [Println [PStr "connecting to remote rtlsdr:"; PStr (Getenv "RTLSDR_ADDR"%string)]]
   else [])
  ++ [Println [PStr "model loaded"];
      Printf "using topic %s\n" [PStr (Getenv "MSGHUB_TOPIC"%string)];
      Println [PStr "msghub key:"; PStr (Getenv "MSGHUB_API_KEY"%string)];
      Println [PStr "url:"; PStr (Getenv "MSGHUB_BROKER_URL"%string)];
      Println [PStr "now connecting to msghub"];
      CallNewSyncProducer (Split (Getenv "MSGHUB_BROKER_URL"%string) ","%char)
                          (producer_config_for (Getenv "MSGHUB_API_KEY"%string));
      Println [PStr "done trying to connect"];
      Println [PStr "connected to msghub"]].

(** Everything [main] needs before its loop is in place, and [c] is what it
    sets up from it. *)
Definition setup_ready (w : main_world) (c : loop_context) : Prop :=
  let brokers := Split (Getenv w "MSGHUB_BROKER_URL"%string) ","%char in
  let config := producer_config_for (Getenv w "MSGHUB_API_KEY"%string) in
  Getenv w "HZN_ORG_ID"%string <> ""%string
  /\ Getenv w "HZN_DEVICE_ID"%string <> ""%string
  /\ Getenv w "MSGHUB_TOPIC"%string <> ""%string
  /\ (16 <= String.length (Getenv w "MSGHUB_API_KEY"%string))%nat
  /\ Getenv w "MSGHUB_BROKER_URL"%string <> ""%string
  /\ NewSyncProducer w brokers config = None
  /\ exists m,
      newModel (loader w) "model.pb" = ([], Return (m, None))
      /\ c = {| hostname := radio_host (Getenv w);
                devID := Getenv w "HZN_ORG_ID"%string +:+ "/"
                         +:+ Getenv w "HZN_DEVICE_ID"%string;
                m_model := m;
                conn := connection_for brokers config
                                       (Getenv w "MSGHUB_TOPIC"%string) None |}.

(** ** Notions for the calls of the loop *)

(** What a call or message of the loop must agree on with the context. *)
Definition event_ok (c : loop_context) (e : event) : Prop :=
  match e with
  | CallGetCeilingSignals host threshold => host = hostname c /\ threshold = -8
  | CallGetAudio host _ => host = hostname c
  | CallSendMessage topic msg =>
      topic = Topic (conn c) /\ DevID msg = devID c
      /\ gtb (ExpectedValue msg) c0_5 = true
  | CallNewSyncProducer _ _ => False
  | _ => True
  end.

(** Every message sent in [T] is of a clip captured from its station and scored
    earlier in [T]. *)
Definition sends_follow_scoring (T : list event) : Prop :=
  forall t1 topic msg t2,
    T = t1 ++ CallSendMessage topic msg :: t2 ->
    (exists host, In (CallGetAudio host (Freq msg)) t1)
    /\ In (CallGoodness (Audio msg)) t1.

(** The calls of a trace, told apart and counted. *)
Definition is_GetAudio (e : event) : bool :=
  match e with CallGetAudio _ _ => true | _ => false end.
Definition is_Goodness (e : event) : bool :=
  match e with CallGoodness _ => true | _ => false end.
Definition is_SendMessage (e : event) : bool :=
  match e with CallSendMessage _ _ => true | _ => false end.
Definition count (p : event -> bool) (T : list event) : nat :=
  length (List.filter p T).

(** Messages sent are not more than clips scored, and those not more than
    clips captured. *)
Definition counts_in_order (T : list event) : Prop :=
  (count is_SendMessage T <= count is_Goodness T)%nat
  /\ (count is_Goodness T <= count is_GetAudio T)%nat.

(** ** Notions for the station map *)

(** No two entries have keys that [==] identifies: what Go's map guarantees. *)
Fixpoint distinct_keys (m : station_map) : Prop :=
  match m with
  | [] => True
  | (k, _) :: m' => lookup m' k = None /\ distinct_keys m'
  end.

(** Every key is a number. *)
Definition numeric_keys (m : station_map) : Prop :=
  forall k v, In (k, v) m -> is_nan k = false.

(** The pass as Go's [range] produces it: each visit reads the value the key
    holds when it is reached. *)
Fixpoint sampling_pass_live (fused : bool) (c : loop_context) (m : station_map)
    (keys : list float32) (ws : nat -> station_world) (n : nat) : M station_map :=
  match keys with
  | [] => ret m
  | station :: rest =>
      m' <- sample_station fused c m station (index m station) (ws n) ;;
      sampling_pass_live fused c m' rest ws (S n)
  end.

(** The keys of a visiting order are pairwise different under [==]. *)
Fixpoint keys_apart (order : list (float32 * float32)) : Prop :=
  match order with
  | [] => True
  | (k, _) :: rest =>
      (forall k' g', In (k', g') rest -> eqb k k' = false) /\ keys_apart rest
  end.

(** Discovery answers with numbers only. *)
Definition signals_numeric (w : iteration_world) : Prop :=
  forall stations, GetCeilingSignals w = inr stations ->
                   Forall (fun k => is_nan k = false) stations.

(** ** Notions for the scores *)

(** A score at which no draw of [rand.Float32] samples: NaN, a zero or negative. *)
Definition dead (s : float32) : bool :=
  is_nan s || leb s zero.

(** The draws are not negative. *)
Definition draws_nonneg (w : iteration_world) : Prop :=
  forall n, nonneg (rand_Float32 (station_worlds w n)) = true.

(** [0.7] as [float32]: with [0.3] it sums to [1] exactly. *)
Definition c0_7 : float32 := S754_finite false 11744051 (-24).

(** The mantissa [m] with the exponent [e] is binary32's form of its value. *)
Definition canonical (m : positive) (e : Z) : Prop :=
  fexp prec emax (Z.pos (digits2_pos m) + e) = e.

(** [r] is positive infinity, or a float in binary32's form that is at least
    [cm * 2^ce], itself in that form. *)
Definition at_least (cm : positive) (ce : Z) (r : float32) : Prop :=
  match r with
  | S754_infinity false => True
  | S754_finite false m e =>
      canonical m e /\ (ce < e \/ (ce = e /\ Z.pos cm <= Z.pos m))
  | _ => False
  end.

(** Scoring answers with floats of at least [0.7]. *)
Definition scores_good (w : iteration_world) : Prop :=
  forall n v, scored (station_worlds w n) = inr v ->
              valid v = true /\ leb c0_7 v = true.

(** ** Notions for discovery and sampling over the loop *)

(** A call of [rtlsdr.GetCeilingSignals]. *)
Definition is_Discovery (e : event) : bool :=
  match e with CallGetCeilingSignals _ _ => true | _ => false end.

(** No discovery is made in the trace [T]. *)
Definition no_discovery (T : list event) : Prop :=
  Forall (fun e => is_Discovery e = false) T.

(** At the check of the iteration [w] at most five minutes have passed since
    the time [last]. *)
Definition within_five_minutes (last : time.Time) (w : iteration_world) : Prop :=
  Now_check w - last <= 5 * time.Minute.

(** Every draw is below 1, as [rand.Float32]'s are. *)
Definition draws_below_one (ws : nat -> station_world) : Prop :=
  forall i, ltb (rand_Float32 (ws i)) one = true.

(** ** Further examples *)

(** A state between two discoveries. *)
Definition settled_state (m : station_map) : loop_state :=
  {| stationGoodness := m; lastStationsRefresh := 1500000000000001000 |}.

(** An iteration a second after the discovery: none is due. *)
Definition quiet_iteration (sw : station_world) : iteration_world :=
  example_iteration (inr []) 1500000001000000000 sw.

(** The radio gives no audio. *)
Definition radio_down_world : station_world :=
  {| rand_Float32 := zero; GetAudio := inl "radio down"%string; scored := inr c0_9;
     TimestampNow := 1500000000000000000; sent := inr (0, 42) |}.

(** What the first visit of the example prints after it scored the clip. *)
Definition example_visit_report : event :=
  Println [PFloat station_91_5; PStr "observed value:"; PFloat c0_9;
           PStr "updated goodness:"; PFloat (S754_finite false 10905191 (-24))].

(** ** Two readings the program does not satisfy, kept to be refuted *)

(** The discovery timestamp is recorded whatever the outcome of the discovery. *)
Definition timestamp_recorded_whatever_outcome : Prop :=
  forall (c : loop_context) (s : loop_state) (w : iteration_world),
    refresh_due (Now_check w) (lastStationsRefresh s) = true ->
    exists t s', refresh_stations c s w = (t, Return s')
                 /\ lastStationsRefresh s' = Now_refreshed w.

(** Every key shorter than 16 bytes makes [connect] panic on the slice bounds. *)
Definition short_key_panics_on_slice_bounds : Prop :=
  forall (Getenv : string -> string) (NewSyncProducer : list string -> Config -> option error)
         (topic : string),
    (String.length (Getenv "MSGHUB_API_KEY"%string) < 16)%nat ->
    outcome (connect Getenv NewSyncProducer topic)
    = Panic (PanicSliceBounds 16 (String.length (Getenv "MSGHUB_API_KEY"%string))).

(** * Properties *)

(** ** The effect monad *)

Lemma bind_ret_l {A B} (a : A) (f : A -> M B) : bind (ret a) f = f a.
Proof. unfold bind, ret. now destruct (f a). Qed.

Lemma bind_ret_r {A} (c : M A) : bind c ret = c.
Proof. destruct c as [t [a|p]]; simpl; [now rewrite app_nil_r | reflexivity]. Qed.

Lemma bind_assoc {A B C} (c : M A) (f : A -> M B) (g : B -> M C) :
  bind (bind c f) g = bind c (fun a => bind (f a) g).
Proof.
  destruct c as [t [a|p]]; simpl; [|reflexivity].
  destruct (f a) as [t1 [b|p]]; simpl; [|reflexivity].
  destruct (g b) as [t2 r]. now rewrite app_assoc.
Qed.

(** A panic ends the computation: what would follow adds nothing. *)
Lemma bind_panic {A B} (t : list event) (p : panic_value) (f : A -> M B) :
  bind (t, Panic p) f = (t, Panic p).
Proof. reflexivity. Qed.

(** ** Facts about float32 *)

Lemma constants_nearest :
  2 * 8388608 = 2 ^ 24 /\
  2 * Z.abs (10 * 10066330 - 3 * 2 ^ 25) <= 10 /\
  2 * Z.abs (100 * 13421773 - 5 * 2 ^ 28) <= 100 /\
  valid c0_5 = true /\ valid c0_3 = true /\ valid c0_05 = true /\ valid one = true.
Proof. repeat split; vm_compute; congruence. Qed.

Ltac fold_compare :=
  repeat match goal with
  | |- context [ PosDef.Pos.compare_cont Eq ?p ?q ] =>
      change (PosDef.Pos.compare_cont Eq p q) with (p ?= q)%positive
  end.

Ltac order_cases :=
  fold_compare;
  repeat match goal with
  | |- context [ (?a ?= ?b)%Z ] => destruct (Z.compare_spec a b)
  | |- context [ (?a ?= ?b)%positive ] => destruct (Pos.compare_spec a b)
  end.

Lemma eqb_true_iff (x y : float32) : eqb x y = true <-> same_value x y.
Proof.
  unfold eqb, SFeqb.
  destruct x as [sx|sx| |sx mx e1], y as [sy|sy| |sy my e2]; simpl;
    try (split; [discriminate | tauto]); try tauto;
    try (destruct sx; split; [discriminate | tauto]);
    try (destruct sy; split; [discriminate | tauto]).
  all: try (destruct sx, sy; split; try discriminate; try tauto; fail).
  destruct sx, sy; order_cases; simpl; subst;
    split; try discriminate; try tauto; intros (? & ? & ?); try discriminate; lia.
Qed.

(** [==] is a partial equivalence: equal keys find the same entries. *)
Lemma eqb_trans_l (x y z : float32) : eqb x y = true -> eqb x z = eqb y z.
Proof.
  intros H. apply eqb_true_iff in H.
  destruct x as [sx|sx| |sx mx e1], y as [sy|sy| |sy my e2]; simpl in H;
    try contradiction.
  - destruct z; reflexivity.
  - now subst sy.
  - now destruct H as (-> & -> & ->).
Qed.

Lemma eqb_refl_r (x y : float32) : eqb x y = true -> eqb y y = true.
Proof. intros H. rewrite <- (eqb_trans_l _ _ _ H). exact H. Qed.

Lemma eqb_refl (x : float32) : is_nan x = false -> eqb x x = true.
Proof.
  intros H. apply eqb_true_iff. destruct x; simpl; try tauto. discriminate.
Qed.

Lemma eqb_nan_r (x y : float32) : is_nan y = true -> eqb x y = false.
Proof. destruct y; try discriminate. intros _. now destruct x. Qed.

(** [<] followed by [<=] is [<], on every pair of floats that compare. *)
Lemma ltb_leb_trans (x y z : float32) :
  ltb x y = true -> leb y z = true -> ltb x z = true.
Proof.
  unfold ltb, leb, SFltb, SFleb.
  destruct x as [sx|sx| |sx mx e1], y as [sy|sy| |sy my e2], z as [sz|sz| |sz mz e3];
    simpl; try discriminate; try reflexivity;
    try (destruct sx; try discriminate; try reflexivity);
    try (destruct sy; try discriminate; try reflexivity);
    try (destruct sz; try discriminate; try reflexivity).
  all: order_cases; simpl; try discriminate; try reflexivity; try lia.
Qed.

Lemma leb_zero_nonneg (x : float32) : leb zero x = true <-> nonneg x = true.
Proof. destruct x as [s|[|]| |[|] m e]; simpl; intuition congruence. Qed.

Lemma leb_finite_positive (cm : positive) (ce : Z) (x : float32) :
  leb (S754_finite false cm ce) x = true -> positive_ x = true.
Proof. destruct x as [s|[|]| |[|] m e]; simpl; intuition congruence. Qed.

Lemma leb_refl_finite (s : bool) (m : positive) (e : Z) :
  leb (S754_finite s m e) (S754_finite s m e) = true.
Proof.
  unfold leb, SFleb; simpl. fold_compare.
  rewrite Z.compare_refl, Pos.compare_refl. now destruct s.
Qed.

Lemma leb_finite_pos (cm m : positive) (ce e : Z) :
  ce < e \/ (ce = e /\ Z.pos cm <= Z.pos m) ->
  leb (S754_finite false cm ce) (S754_finite false m e) = true.
Proof.
  unfold leb, SFleb; simpl. intros H. fold_compare.
  destruct (Z.compare_spec ce e); [|reflexivity|lia].
  destruct (Pos.compare_spec cm m); try reflexivity. lia.
Qed.

(** ** Rounding: what the sum with a constant cannot fall below *)

Lemma fexp_eq (e : Z) : fexp prec emax e = Z.max (e - 24) (-149).
Proof. reflexivity. Qed.

Lemma digits2_pos_bounds (p : positive) :
  2 ^ (Z.pos (digits2_pos p) - 1) <= Z.pos p < 2 ^ Z.pos (digits2_pos p).
Proof.
  induction p as [p IH|p IH|]; simpl digits2_pos.
  - rewrite Pos2Z.inj_succ, Z.pow_succ_r by lia.
    replace (Z.succ (Z.pos (digits2_pos p)) - 1)
      with (Z.succ (Z.pos (digits2_pos p) - 1)) by lia.
    rewrite Z.pow_succ_r by lia. lia.
  - rewrite Pos2Z.inj_succ, Z.pow_succ_r by lia.
    replace (Z.succ (Z.pos (digits2_pos p)) - 1)
      with (Z.succ (Z.pos (digits2_pos p) - 1)) by lia.
    rewrite Z.pow_succ_r by lia. lia.
  - simpl. lia.
Qed.

Lemma digits2_pos_unique (p : positive) (d : Z) :
  2 ^ (d - 1) <= Z.pos p < 2 ^ d -> Z.pos (digits2_pos p) = d.
Proof.
  intros [Hlo Hhi]. pose proof (digits2_pos_bounds p) as [Blo Bhi].
  set (k := Z.pos (digits2_pos p)) in *.
  assert (0 < d).
  { destruct (Z_lt_le_dec 0 d) as [|Hd]; [easy|].
    assert (2 ^ d <= 2 ^ 0) by (apply Z.pow_le_mono_r; lia). simpl in *; lia. }
  destruct (Z.lt_trichotomy k d) as [Hlt|[Heq|Hgt]]; [|exact Heq|].
  - assert (2 ^ k <= 2 ^ (d - 1)) by (apply Z.pow_le_mono_r; lia). lia.
  - assert (2 ^ d <= 2 ^ (k - 1)) by (apply Z.pow_le_mono_r; lia). lia.
Qed.

Lemma iter_pos_nat {A} (f : A -> A) (n : positive) (x : A) :
  SpecFloat.iter_pos f n x = Nat.iter (Pos.to_nat n) f x.
Proof.
  revert x. induction n as [n IH|n IH|]; intros x; simpl SpecFloat.iter_pos.
  - rewrite !IH, Pos2Nat.inj_xI.
    replace (S (2 * Pos.to_nat n))%nat with (Pos.to_nat n + S (Pos.to_nat n))%nat by lia.
    rewrite Nat.iter_add, Nat.iter_succ_r. reflexivity.
  - rewrite !IH, Pos2Nat.inj_xO.
    replace (2 * Pos.to_nat n)%nat with (Pos.to_nat n + Pos.to_nat n)%nat by lia.
    now rewrite Nat.iter_add.
  - reflexivity.
Qed.

(** One step of the right shift halves the mantissa. *)
Lemma shr_1_m (r : shr_record) : 0 <= shr_m r -> shr_m (shr_1 r) = shr_m r / 2.
Proof.
  destruct r as [m r s]; simpl. intros Hm.
  destruct m as [|[p|p|]|p]; simpl shr_m; try lia; try reflexivity.
  - apply Z.div_unique with 1; lia.
  - apply Z.div_unique with 0; lia.
Qed.

Lemma shr_iter_m (k : nat) (r : shr_record) :
  0 <= shr_m r -> shr_m (Nat.iter k shr_1 r) = shr_m r / 2 ^ Z.of_nat k.
Proof.
  intros Hm. induction k as [|k IH].
  - simpl. now rewrite Z.div_1_r.
  - rewrite Nat2Z.inj_succ, Z.pow_succ_r by lia. simpl Nat.iter.
    rewrite shr_1_m, IH.
    + rewrite Z.div_div by lia. f_equal. lia.
    + rewrite IH. apply Z.div_pos; lia.
Qed.

Lemma shr_spec (r : shr_record) (e n : Z) :
  0 <= shr_m r ->
  shr_m (fst (shr r e n)) = shr_m r / 2 ^ Z.max n 0 /\ snd (shr r e n) = e + Z.max n 0.
Proof.
  intros Hm. destruct n as [|p|p]; simpl.
  - rewrite Z.div_1_r. lia.
  - rewrite iter_pos_nat, shr_iter_m, positive_nat_Z by easy.
    replace (Z.max (Z.pos p) 0) with (Z.pos p) by lia. split; reflexivity.
  - rewrite Z.div_1_r. lia.
Qed.

Lemma shr_record_of_loc_m (m : Z) (l : location) : shr_m (shr_record_of_loc m l) = m.
Proof. now destruct l as [|[| |]]. Qed.

Lemma round_nearest_even_bounds (m : Z) (l : location) :
  m <= round_nearest_even m l <= m + 1.
Proof.
  destruct l as [|[| |]]; simpl; try lia. destruct (Z.even m); lia.
Qed.

Lemma shl_align_value (m : positive) (e e' : Z) :
  e' <= e -> Z.pos (fst (shl_align m e e')) = Z.pos m * 2 ^ (e - e').
Proof.
  intros He. unfold shl_align.
  destruct (e' - e) as [|d|d] eqn:Hd; simpl.
  - replace (e - e') with 0 by lia. simpl. lia.
  - lia.
  - replace (e - e') with (Z.pos d) by lia.
    clear. induction d as [|d IH] using Pos.peano_ind.
    + simpl. lia.
    + rewrite Pos.iter_succ, Pos2Z.inj_succ, Z.pow_succ_r by lia.
      rewrite Pos2Z.inj_xO, IH. lia.
Qed.

(** Rounding a non-negative mantissa keeps the sign: the result is a zero, a
    positive number or positive infinity, never NaN. *)
Lemma binary_round_aux_nonneg (m e : Z) (l : location) :
  0 <= m -> nonneg (binary_round_aux prec emax false m e l) = true.
Proof.
  intros Hm. unfold binary_round_aux, shr_fexp.
  pose proof (shr_spec (shr_record_of_loc m l) e
                (fexp prec emax (Zdigits2 m + e) - e)) as Hs1.
  destruct (shr (shr_record_of_loc m l) e (fexp prec emax (Zdigits2 m + e) - e))
    as [mrs1 e1].
  rewrite shr_record_of_loc_m in Hs1. destruct Hs1 as [Hm1 _]; [exact Hm|].
  pose proof (round_nearest_even_bounds (shr_m mrs1) (loc_of_shr_record mrs1)) as Hr.
  set (m1 := round_nearest_even (shr_m mrs1) (loc_of_shr_record mrs1)) in *.
  assert (0 <= m1) as Hm1'.
  { simpl in Hm1. rewrite Hm1 in Hr.
    assert (0 <= m / 2 ^ Z.max (fexp prec emax (Zdigits2 m + e) - e) 0)
      by (apply Z.div_pos; [lia | apply Z.pow_pos_nonneg; lia]).
    lia. }
  pose proof (shr_spec (shr_record_of_loc m1 loc_Exact) e1
                (fexp prec emax (Zdigits2 m1 + e1) - e1)) as Hs2.
  destruct (shr (shr_record_of_loc m1 loc_Exact) e1
                (fexp prec emax (Zdigits2 m1 + e1) - e1)) as [mrs2 e2].
  destruct Hs2 as [Hm2 _]; [simpl; exact Hm1'|]. simpl in Hm2.
  assert (0 <= shr_m mrs2) as H2.
  { rewrite Hm2. apply Z.div_pos; [lia | apply Z.pow_pos_nonneg; lia]. }
  destruct (shr_m mrs2); [reflexivity| |lia].
  now destruct (e2 <=? emax - prec).
Qed.

Section RoundAboveConstant.

(** A positive normal float [cm * 2^ce]. *)
Variables (cm : positive) (ce : Z).
Hypothesis cm_normal : Z.pos (digits2_pos cm) = 24.
Hypothesis ce_min : -149 <= ce.

(** Digits of a mantissa [M * 2^ez] that is at least the constant. *)
Lemma digits_above (M : positive) (ez : Z) :
  ez <= ce -> Z.pos cm * 2 ^ (ce - ez) <= Z.pos M ->
  24 + (ce - ez) <= Z.pos (digits2_pos M).
Proof using cm_normal.
  intros Hez HM.
  pose proof (digits2_pos_bounds cm) as [Hclo _]. rewrite cm_normal in Hclo.
  simpl in Hclo.
  pose proof (digits2_pos_bounds M) as [_ HMhi].
  assert (2 ^ (23 + (ce - ez)) < 2 ^ Z.pos (digits2_pos M)) as Hlt.
  { rewrite Z.pow_add_r by lia. nia. }
  apply Z.pow_lt_mono_r_iff in Hlt; lia.
Qed.

Lemma binary_round_aux_ge (M : positive) (ez : Z) :
  ez <= ce -> Z.pos cm * 2 ^ (ce - ez) <= Z.pos M ->
  leb (S754_finite false cm ce)
      (binary_round_aux prec emax false (Z.pos M) ez loc_Exact) = true.
Proof using cm_normal ce_min.
  intros Hez HM.
  pose proof (digits_above M ez Hez HM) as HD.
  pose proof (digits2_pos_bounds M) as [HMlo HMhi].
  set (D := Z.pos (digits2_pos M)) in *.
  set (n := D - 24).
  assert (Hq : 2 ^ 23 <= Z.pos M / 2 ^ n < 2 ^ 24).
  { assert (0 < 2 ^ n) by (apply Z.pow_pos_nonneg; lia).
    split.
    - apply Z.div_le_lower_bound; [lia|]. rewrite <- Z.pow_add_r by lia.
      replace (n + 23) with (D - 1) by lia. exact HMlo.
    - apply Z.div_lt_upper_bound; [lia|]. rewrite <- Z.pow_add_r by lia.
      replace (n + 24) with D by lia. exact HMhi. }
  assert (Hqc : ce = D + ez - 24 -> Z.pos cm <= Z.pos M / 2 ^ n).
  { intros E. apply Z.div_le_lower_bound; [apply Z.pow_pos_nonneg; lia|].
    replace n with (ce - ez) by lia. lia. }
  unfold binary_round_aux, shr_fexp. simpl Zdigits2. fold D. rewrite fexp_eq.
  replace (Z.max (D + ez - 24) (-149) - ez) with n by lia.
  pose proof (shr_spec (shr_record_of_loc (Z.pos M) loc_Exact) ez n) as Hs1.
  destruct (shr (shr_record_of_loc (Z.pos M) loc_Exact) ez n) as [mrs1 e1].
  simpl in Hs1. destruct Hs1 as [Hm1 He1]; [lia|].
  replace (Z.max n 0) with n in * by lia.
  pose proof (round_nearest_even_bounds (shr_m mrs1) (loc_of_shr_record mrs1)) as Hr.
  change (2 ^ 23) with 8388608 in Hq. change (2 ^ 24) with 16777216 in Hq.
  destruct (round_nearest_even (shr_m mrs1) (loc_of_shr_record mrs1)) as [|p1|p1];
    rewrite Hm1 in Hr; [lia| |lia].
  simpl Zdigits2. simpl shr_record_of_loc. rewrite fexp_eq.
  destruct (Z_lt_le_dec (Z.pos p1) 16777216) as [Hlt|Hge].
  - rewrite (digits2_pos_unique p1 24) by (simpl; lia).
    replace (Z.max (24 + e1 - 24) (-149) - e1) with 0 by lia. cbn [shr shr_m].
    destruct (e1 <=? emax - prec); [apply leb_finite_pos; lia | reflexivity].
  - rewrite (digits2_pos_unique p1 25) by (simpl; lia).
    replace (Z.max (25 + e1 - 24) (-149) - e1) with 1 by lia.
    pose proof (shr_spec {| shr_m := Z.pos p1; shr_r := false; shr_s := false |} e1 1)
      as Hs2.
    destruct (shr {| shr_m := Z.pos p1; shr_r := false; shr_s := false |} e1 1)
      as [mrs2 e2].
    simpl in Hs2. destruct Hs2 as [Hm2 He2]; [lia|].
    assert (Z.pos p1 = 16777216) as Ep by lia. rewrite Ep in Hm2.
    change (16777216 / 2) with (Z.pos 8388608) in Hm2. rewrite Hm2.
    destruct (e2 <=? emax - prec); [apply leb_finite_pos; lia | reflexivity].
Qed.

Lemma binary_round_ge (M : positive) (ez : Z) :
  ez <= ce -> Z.pos cm * 2 ^ (ce - ez) <= Z.pos M ->
  leb (S754_finite false cm ce) (binary_round prec emax false M ez) = true.
Proof using cm_normal ce_min.
  intros Hez HM.
  pose proof (digits_above M ez Hez HM) as HD.
  unfold binary_round. rewrite fexp_eq. unfold shl_align.
  destruct (Z.max (Z.pos (digits2_pos M) + ez - 24) (-149) - ez) eqn:E; [| |lia];
    now apply binary_round_aux_ge.
Qed.

(** Adding a zero, a positive number or positive infinity to the constant does
    not give less than the constant: the sum is rounded to the nearest float and
    the constant is one. *)
Lemma add_ge_constant (x : float32) :
  nonneg x = true ->
  leb (S754_finite false cm ce) (add x (S754_finite false cm ce)) = true.
Proof using cm_normal ce_min.
  intros Hx.
  destruct x as [sx|[|]| |[|] mx ex]; try discriminate.
  - apply leb_refl_finite.
  - reflexivity.
  - unfold add, SFadd. cbn [cond_Zopp].
    rewrite <- Pos2Z.inj_add. cbn [binary_normalize].
    apply binary_round_ge; [lia|].
    rewrite Pos2Z.inj_add, (shl_align_value cm ce) by lia. lia.
Qed.

End RoundAboveConstant.

Lemma mul_positive (x y : float32) :
  positive_ x = true -> positive_ y = true -> nonneg (mul x y) = true.
Proof.
  destruct x as [sx|[|]| |[|] mx ex], y as [sy|[|]| |[|] my ey]; simpl;
    try discriminate; try reflexivity.
  intros _ _. apply binary_round_aux_nonneg. lia.
Qed.

Lemma mul_exact_positive (x y : float32) :
  positive_ x = true -> positive_ y = true -> positive_ (mul_exact x y) = true.
Proof.
  destruct x as [sx|[|]| |[|] mx ex], y as [sy|[|]| |[|] my ey]; simpl;
    try discriminate; reflexivity.
Qed.

Lemma add_ge_c0_3 (x : float32) : nonneg x = true -> leb c0_3 (add x c0_3) = true.
Proof. apply add_ge_constant; [reflexivity | lia]. Qed.

Lemma add_ge_c0_05 (x : float32) : nonneg x = true -> leb c0_05 (add x c0_05) = true.
Proof. apply add_ge_constant; [reflexivity | lia]. Qed.

(** The estimator's floor: from a positive score and a non-negative value the
    new score is at least [0.05], fused or not. *)
Lemma updated_goodness_floor (fused : bool) (old val : float32) :
  positive_ old = true -> nonneg val = true ->
  leb c0_05 (updated_goodness fused old val) = true.
Proof.
  intros Hold Hval.
  assert (positive_ (add val c0_3) = true) as Hw.
  { eapply leb_finite_positive. apply add_ge_c0_3, Hval. }
  unfold updated_goodness, mul_add. destruct fused.
  - unfold fma.
    assert (leb c0_05 (add (mul_exact old (add val c0_3)) c0_05) = true) as H.
    { apply add_ge_c0_05.
      pose proof (mul_exact_positive _ _ Hold Hw) as Hp.
      destruct (mul_exact old (add val c0_3)) as [|[|]| |[|]]; try discriminate;
        reflexivity. }
    destruct old, (add val c0_3); exact H.
  - apply add_ge_c0_05, mul_positive; assumption.
Qed.

(** ** Facts about the station map *)

Lemma eqb_trans_r (x y z : float32) : eqb x y = true -> eqb z x = eqb z y.
Proof.
  intros H. apply eqb_true_iff in H.
  destruct x as [sx|sx| |sx mx e1], y as [sy|sy| |sy my e2]; simpl in H;
    try contradiction.
  - destruct z as [|[|]| |[|]]; reflexivity.
  - now subst sy.
  - now destruct H as (-> & -> & ->).
Qed.

(** Equal keys find the same entry. *)
Lemma lookup_eqb (m : station_map) (k k' : float32) :
  eqb k k' = true -> lookup m k = lookup m k'.
Proof.
  intros H. induction m as [|[k1 v1] m IH]; simpl; [reflexivity|].
  now rewrite (eqb_trans_r _ _ k1 H), IH.
Qed.

Lemma lookup_nan (m : station_map) (k : float32) : is_nan k = true -> lookup m k = None.
Proof.
  intros H. induction m as [|[k1 v1] m IH]; simpl; [reflexivity|].
  now rewrite (eqb_nan_r k1 k H).
Qed.

(** Reading back the key just assigned, when the key is a number. *)
Lemma lookup_assign_same (m : station_map) (k v : float32) :
  is_nan k = false -> lookup (assign m k v) k = Some v.
Proof.
  intros Hk. pose proof (eqb_refl k Hk) as Hkk.
  induction m as [|[k1 v1] m IH]; simpl.
  - now rewrite Hkk.
  - destruct (eqb k1 k) eqn:E; simpl; [now rewrite Hkk | now rewrite E].
Qed.

(** A NaN key is never overwritten: assigning to it adds an entry. *)
Lemma assign_nan (m : station_map) (v : float32) :
  assign m S754_nan v = m ++ [(S754_nan, v)].
Proof.
  induction m as [|[k1 v1] m IH]; simpl; [reflexivity|].
  rewrite (eqb_nan_r k1 S754_nan eq_refl). now rewrite IH.
Qed.

(** Assigning one key leaves the other keys as they were. *)
Lemma lookup_assign_other (m : station_map) (k k' v : float32) :
  eqb k k' = false -> lookup (assign m k v) k' = lookup m k'.
Proof.
  intros Hk. induction m as [|[k1 v1] m IH]; simpl.
  - now rewrite Hk.
  - destruct (eqb k1 k) eqn:E; simpl.
    + rewrite Hk. now rewrite (eqb_trans_l _ _ k' E), Hk.
    + now rewrite IH.
Qed.

Lemma lookup_present_not_nan (m : station_map) (k s : float32) :
  lookup m k = Some s -> is_nan k = false.
Proof.
  intros H. destruct (is_nan k) eqn:E; [|reflexivity].
  rewrite (lookup_nan m k E) in H. discriminate.
Qed.

(** What a key holds after an assignment: the value assigned, or what it held. *)
Lemma lookup_assign_inv (m : station_map) (k k' v s : float32) :
  lookup (assign m k v) k' = Some s -> s = v \/ lookup m k' = Some s.
Proof.
  intros H. destruct (eqb k k') eqn:E.
  - left. rewrite <- (lookup_eqb _ _ _ E) in H.
    rewrite lookup_assign_same in H; [congruence|].
    destruct k; try reflexivity. discriminate.
  - right. now rewrite lookup_assign_other in H.
Qed.

(** An assignment removes no key. *)
Lemma lookup_assign_present (m : station_map) (k k' v s : float32) :
  lookup m k' = Some s -> exists s', lookup (assign m k v) k' = Some s'.
Proof.
  intros H. destruct (eqb k k') eqn:E.
  - exists v. rewrite <- (lookup_eqb _ _ _ E).
    apply lookup_assign_same. destruct k; try reflexivity. discriminate.
  - exists s. now rewrite lookup_assign_other.
Qed.

(** An entry whose key is a number is found under its key. *)
Lemma In_lookup (m : station_map) (k g : float32) :
  In (k, g) m -> is_nan k = false -> exists s, lookup m k = Some s.
Proof.
  intros Hin Hk. induction m as [|[k1 v1] m IH]; simpl in *; [contradiction|].
  destruct Hin as [[= -> ->]|Hin].
  - rewrite (eqb_refl k Hk). eauto.
  - destruct (eqb k1 k); eauto.
Qed.

Lemma assign_length (m : station_map) (k v : float32) :
  (length m <= length (assign m k v))%nat /\ (1 <= length (assign m k v))%nat.
Proof.
  induction m as [|[k1 v1] m IH]; simpl; [lia|].
  destruct (eqb k1 k); simpl; lia.
Qed.

(** ** Discovery *)

Lemma ensureTracked_eq (m : station_map) (station : float32) :
  ensureTracked m station
  = match lookup m station with
    | Some _ => ([], Return m)
    | None => ([Println [PStr "found new station: "; PFloat station]],
               Return (assign m station c0_5))
    end.
Proof. unfold ensureTracked. now destruct (lookup m station). Qed.

(** The loop over the discovered stations always returns; it keeps what was
    tracked, gives [0.5] to what was not, and adds nothing else. *)
Lemma track_stations_spec (stations : list float32) (m : station_map) :
  exists t m',
    track_stations m stations = (t, Return m')
    /\ (forall k s, lookup m k = Some s -> lookup m' k = Some s)
    /\ (forall k, In k stations -> lookup m k = None -> is_nan k = false ->
                  lookup m' k = Some c0_5)
    /\ (forall k s, lookup m' k = Some s -> lookup m k = Some s \/ s = c0_5)
    /\ (length m <= length m')%nat
    /\ (stations <> [] -> 1 <= length m')%nat.
Proof.
  revert m. induction stations as [|st rest IH]; intros m.
  - exists [], m. simpl. repeat split; auto; try contradiction; try lia.
  - simpl track_stations. rewrite ensureTracked_eq.
    destruct (lookup m st) as [s0|] eqn:Hst.
    + destruct (IH m) as (t & m' & Heq & Hkeep & Hnew & Hinv & Hlen & _).
      exists t, m'. simpl. rewrite Heq. simpl.
      repeat split; auto.
      * intros k [<-|Hin] Hnone Hnan; [congruence | now apply Hnew].
      * intros _. destruct m; [discriminate | simpl in *; lia].
    + destruct (IH (assign m st c0_5)) as (t & m' & Heq & Hkeep & Hnew & Hinv & Hlen & _).
      exists (Println [PStr "found new station: "; PFloat st] :: t), m'.
      simpl. rewrite Heq. simpl.
      pose proof (assign_length m st c0_5) as [Hl1 Hl2].
      repeat split; try lia.
      * intros k s Hk. apply Hkeep. rewrite lookup_assign_other; [exact Hk|].
        destruct (eqb st k) eqn:E; [|reflexivity].
        rewrite (lookup_eqb _ _ _ E) in Hst. congruence.
      * intros k Hin Hnone Hnan.
        destruct (eqb st k) eqn:E.
        -- apply Hkeep. rewrite <- (lookup_eqb _ _ _ E).
           apply lookup_assign_same. destruct st; try reflexivity; discriminate.
        -- destruct Hin as [->|Hin]; [rewrite (eqb_refl k Hnan) in E; discriminate|].
           apply Hnew; auto. now rewrite lookup_assign_other.
      * intros k s Hk. destruct (Hinv k s Hk) as [H|H]; [|now right].
        apply lookup_assign_inv in H. destruct H as [->|H]; [now right | now left].
Qed.

(** The clamping of [Sub] does not matter for the comparison with five minutes. *)
Lemma refresh_due_iff (now last : time.Time) :
  refresh_due now last = true <-> 5 * time.Minute < now - last.
Proof.
  unfold refresh_due, time.Sub, time.minDuration, time.maxDuration, time.Minute.
  rewrite Z.ltb_lt. lia.
Qed.

Lemma refresh_stations_skipped (c : loop_context) (s : loop_state) (w : iteration_world) :
  refresh_due (Now_check w) (lastStationsRefresh s) = false ->
  refresh_stations c s w = ([], Return s).
Proof. unfold refresh_stations. now intros ->. Qed.

(** A due discovery that answers: the loop goes on exactly when some station is
    tracked afterwards, and then the time is recorded. *)
Lemma refresh_stations_answered (c : loop_context) (s : loop_state) (w : iteration_world)
    (stations : list float32) :
  refresh_due (Now_check w) (lastStationsRefresh s) = true ->
  GetCeilingSignals w = inr stations ->
  exists t m',
    track_stations (stationGoodness s) stations = (t, Return m')
    /\ refresh_stations c s w
       = if (length m' <? 1)%nat
         then (CallGetCeilingSignals (hostname c) (-8) :: t,
               Panic (PanicString "No FM stations. Move the antenna?"))
         else (CallGetCeilingSignals (hostname c) (-8) :: t
                 ++ [Println [PStr "found"; PInt (Z.of_nat (length stations));
                              PStr "stations"];
                     Println [PMap m']],
               Return {| stationGoodness := m'; lastStationsRefresh := Now_refreshed w |}).
Proof.
  intros Hdue Hsig.
  destruct (track_stations_spec stations (stationGoodness s)) as (t & m' & Heq & _).
  exists t, m'. split; [exact Heq|].
  unfold refresh_stations. rewrite Hdue, Hsig. simpl. rewrite Heq. simpl.
  destruct (length m' <? 1)%nat; simpl; [now rewrite app_nil_r | reflexivity].
Qed.

(** ** One visit of the sampling pass *)

(** A station whose draw is not below its goodness is left alone. *)
Lemma sample_station_skipped (fused : bool) (c : loop_context) (m : station_map)
    (station g : float32) (w : station_world) :
  ltb (rand_Float32 w) g = false ->
  sample_station fused c m station g w = ([], Return m).
Proof. unfold sample_station. now intros ->. Qed.

(** A sampled station whose capture and scoring succeed: the whole effect. *)
Lemma sample_station_sampled (fused : bool) (c : loop_context) (m : station_map)
    (station g : float32) (w : station_world) (audio : list Byte.byte) (val : float32) :
  ltb (rand_Float32 w) g = true ->
  GetAudio w = inr audio ->
  scored w = inr val ->
  let m' := assign m station (updated_goodness fused (index m station) val) in
  sample_station fused c m station g w
  = (CallGetAudio (hostname c) station
       :: CallGoodness audio
       :: Println [PFloat station; PStr "observed value:"; PFloat val;
                   PStr "updated goodness:"; PFloat (index m' station)]
       :: (if gtb val c0_5
           then publish_events c (message_for c station val audio w) w
           else []),
     Return m').
Proof.
  intros Hdraw Haudio Hval. unfold sample_station, publish_events, message_for.
  rewrite Hdraw, Haudio, Hval. simpl.
  destruct (gtb val c0_5); [|reflexivity].
  simpl. destruct (sent w) as [err|[partition offset]]; reflexivity.
Qed.

Lemma index_tracked (m : station_map) (k s : float32) :
  lookup m k = Some s -> index m k = s.
Proof. unfold index. now intros ->. Qed.

(** The spec's example, on both kinds of target: from 0.5 and 0.9 the new score
    is the float next above 0.65 (0.65000004 against 0.64999998). *)
Lemma updated_goodness_example (fused : bool) :
  updated_goodness fused c0_5 c0_9 = S754_finite false 10905191 (-24)
  /\ ltb c0_65 (updated_goodness fused c0_5 c0_9) = true.
Proof. destruct fused; split; vm_compute; reflexivity. Qed.

(** C1: when a tracked station with score [s] is sampled and scoring returns
    [val], the visit leaves the station with exactly [s*(val+0.3) + 0.05] as
    float32 arithmetic computes it and leaves every other station alone.  Nothing
    clamps the score to [0,1]: from score 1 and value 1 it becomes larger than
    1, and from score 1 and value -1 it becomes negative. *)
Theorem update_sets_exact_score (fused : bool) (c : loop_context) (m : station_map)
    (station g : float32) (w : station_world) (audio : list Byte.byte)
    (s val : float32) :
  lookup m station = Some s ->
  ltb (rand_Float32 w) g = true ->
  GetAudio w = inr audio ->
  scored w = inr val ->
  exists t,
    sample_station fused c m station g w
    = (t, Return (assign m station (mul_add fused s (add val c0_3) c0_05)))
    /\ lookup (assign m station (mul_add fused s (add val c0_3) c0_05)) station
       = Some (mul_add fused s (add val c0_3) c0_05)
    /\ (forall k, eqb station k = false ->
                  lookup (assign m station (mul_add fused s (add val c0_3) c0_05)) k
                  = lookup m k)
    /\ ltb one (mul_add fused one (add one c0_3) c0_05) = true
    /\ ltb (mul_add fused one (add minus_one c0_3) c0_05) zero = true.
Proof.
  intros Hs Hdraw Haudio Hval.
  pose proof (sample_station_sampled fused c m station g w audio val Hdraw Haudio Hval)
    as Heq. cbv zeta in Heq.
  rewrite (index_tracked m station s Hs) in Heq.
  eexists. split; [exact Heq|]. split; [|split; [|split]].
  - apply lookup_assign_same. exact (lookup_present_not_nan m station s Hs).
  - intros k Hk. now apply lookup_assign_other.
  - destruct fused; vm_compute; reflexivity.
  - destruct fused; vm_compute; reflexivity.
Qed.

Lemma update_sets_exact_score_witness :
  exists t,
    sample_station false example_context [(station_91_5, c0_5)] station_91_5 c0_5
                   speech_world
    = (t, Return [(station_91_5, S754_finite false 10905191 (-24))])
    /\ lookup [(station_91_5, S754_finite false 10905191 (-24))] station_91_5
       = Some (S754_finite false 10905191 (-24)).
Proof.
  destruct (update_sets_exact_score false example_context [(station_91_5, c0_5)]
              station_91_5 c0_5 speech_world [] c0_5 c0_9
              eq_refl eq_refl eq_refl eq_refl) as (t & H1 & H2 & _).
  exists t. split; [exact H1 | exact H2].
Defined.

(** C2: for a sampled station whose capture and scoring succeed, a message is
    handed to the publisher if and only if the scored value is strictly above
    0.5; the message carries the clip, the station and the value.  A value of
    exactly 0.5 publishes nothing. *)
Theorem publish_iff_value_exceeds_half (fused : bool) (c : loop_context)
    (m : station_map) (station g : float32) (w : station_world)
    (audio : list Byte.byte) (val : float32) :
  ltb (rand_Float32 w) g = true ->
  GetAudio w = inr audio ->
  scored w = inr val ->
  ((exists topic msg,
       In (CallSendMessage topic msg) (trace (sample_station fused c m station g w)))
   <-> gtb val c0_5 = true)
  /\ (gtb val c0_5 = true ->
      In (CallSendMessage (Topic (conn c)) (message_for c station val audio w))
         (trace (sample_station fused c m station g w)))
  /\ gtb c0_5 c0_5 = false.
Proof.
  intros Hdraw Haudio Hval.
  pose proof (sample_station_sampled fused c m station g w audio val Hdraw Haudio Hval)
    as Heq. cbv zeta in Heq. rewrite Heq. unfold trace. cbn [fst].
  split; [split|split].
  - intros (topic & msg & Hin). destruct (gtb val c0_5); [reflexivity|].
    simpl in Hin. destruct Hin as [H|[H|[H|[]]]]; discriminate.
  - intros ->. exists (Topic (conn c)), (message_for c station val audio w).
    unfold publish_events. simpl. tauto.
  - intros ->. unfold publish_events. simpl. tauto.
  - reflexivity.
Qed.

Lemma publish_iff_value_exceeds_half_witness :
  In (CallSendMessage "sdr-audio"
        (message_for example_context station_91_5 c0_9 [] speech_world))
     (trace (sample_station false example_context [(station_91_5, c0_5)]
                            station_91_5 c0_5 speech_world)).
Proof.
  exact (proj1 (proj2 (publish_iff_value_exceeds_half false example_context
                         [(station_91_5, c0_5)] station_91_5 c0_5 speech_world []
                         c0_9 eq_refl eq_refl eq_refl)) eq_refl).
Defined.

(** C5: when the publish call fails, the visit still returns: the failure is
    logged and printed, the map holds the score the update computed, exactly as
    after a successful publish, and the pass goes on with the next station. *)
Theorem publish_failure_keeps_score (fused : bool) (c : loop_context) (m : station_map)
    (station g : float32) (ws : nat -> station_world) (n : nat)
    (audio : list Byte.byte) (s val : float32) (err : error)
    (rest : list (float32 * float32)) :
  lookup m station = Some s ->
  ltb (rand_Float32 (ws n)) g = true ->
  GetAudio (ws n) = inr audio ->
  scored (ws n) = inr val ->
  gtb val c0_5 = true ->
  sent (ws n) = inl err ->
  let m' := assign m station (updated_goodness fused s val) in
  exists t,
    sample_station fused c m station g (ws n) = (t, Return m')
    /\ In (CallSendMessage (Topic (conn c)) (message_for c station val audio (ws n))) t
    /\ In (LogPrintf "FAILED to send message: %s\n" [PErr err]) t
    /\ lookup m' station = Some (updated_goodness fused s val)
    /\ sampling_pass fused c m ((station, g) :: rest) ws n
       = (t ++ trace (sampling_pass fused c m' rest ws (S n)),
          outcome (sampling_pass fused c m' rest ws (S n))).
Proof.
  intros Hs Hdraw Haudio Hval Hgt Hsent m'.
  pose proof (sample_station_sampled fused c m station g (ws n) audio val
                Hdraw Haudio Hval) as Heq.
  cbv zeta in Heq. rewrite (index_tracked m station s Hs), Hgt in Heq.
  fold m' in Heq.
  eexists. split; [exact Heq|]. split; [|split; [|split]].
  - unfold publish_events. simpl. tauto.
  - unfold publish_events. rewrite Hsent. simpl. tauto.
  - apply lookup_assign_same. exact (lookup_present_not_nan m station s Hs).
  - simpl sampling_pass. rewrite Heq. unfold bind, trace, outcome.
    now destruct (sampling_pass fused c m' rest ws (S n)).
Qed.

Lemma publish_failure_keeps_score_witness :
  exists t,
    sample_station false example_context [(station_91_5, c0_5)] station_91_5 c0_5
                   broker_down_world
    = (t, Return [(station_91_5, S754_finite false 10905191 (-24))])
    /\ In (LogPrintf "FAILED to send message: %s\n" [PErr "broker down"%string]) t.
Proof.
  destruct (publish_failure_keeps_score false example_context [(station_91_5, c0_5)]
              station_91_5 c0_5 (fun _ => broker_down_world) 0 [] c0_5 c0_9
              "broker down"%string [] eq_refl eq_refl eq_refl eq_refl eq_refl eq_refl)
    as (t & H1 & _ & H3 & _).
  exists t. split; [exact H1 | exact H3].
Defined.

(** Among any draws, those that sample a station are not fewer at a higher
    goodness. *)
Lemma sampling_count_monotone (draws : list float32) (g g' : float32) :
  leb g g' = true ->
  (length (List.filter (fun r => ltb r g) draws)
   <= length (List.filter (fun r => ltb r g') draws))%nat.
Proof.
  intros Hle. induction draws as [|r draws IH]; simpl; [lia|].
  destruct (ltb r g) eqn:Hr.
  - rewrite (ltb_leb_trans r g g' Hr Hle). simpl. lia.
  - destruct (ltb r g'); simpl; lia.
Qed.

(** C4: discovering a station that is not in the map inserts it with score
    exactly 0.5; discovering one that is there changes nothing.  So after a
    discovery every station newly found holds 0.5 and every station tracked
    before holds what it held, before any sampling pass. *)
Theorem ensureTracked_initial_score (m : station_map) (station : float32) :
  (lookup m station = None ->
   ensureTracked m station
   = ([Println [PStr "found new station: "; PFloat station]],
      Return (assign m station c0_5))
   /\ (is_nan station = false -> lookup (assign m station c0_5) station = Some c0_5))
  /\ (forall s, lookup m station = Some s -> ensureTracked m station = ([], Return m))
  /\ (forall (c : loop_context) (st : loop_state) (w : iteration_world)
             (stations : list float32) (t : list event) (st' : loop_state),
         stationGoodness st = m ->
         refresh_due (Now_check w) (lastStationsRefresh st) = true ->
         GetCeilingSignals w = inr stations ->
         refresh_stations c st w = (t, Return st') ->
         (In station stations -> lookup m station = None -> is_nan station = false ->
          lookup (stationGoodness st') station = Some c0_5)
         /\ (forall s, lookup m station = Some s ->
                       lookup (stationGoodness st') station = Some s)).
Proof.
  split; [|split].
  - intros Hnone. rewrite ensureTracked_eq, Hnone. split; [reflexivity|].
    apply lookup_assign_same.
  - intros s Hs. now rewrite ensureTracked_eq, Hs.
  - intros c st w stations t st' Hm Hdue Hsig Hret.
    destruct (refresh_stations_answered c st w stations Hdue Hsig)
      as (t0 & m' & Htrack & Heq).
    destruct (track_stations_spec stations (stationGoodness st))
      as (t1 & m1 & Htrack1 & Hkeep & Hnew & _).
    rewrite Htrack in Htrack1. injection Htrack1 as <- <-.
    rewrite Heq in Hret. destruct (length m' <? 1)%nat; [discriminate|].
    injection Hret as <- <-. simpl. rewrite Hm in *. split.
    + intros Hin Hnone Hnan. now apply Hnew.
    + intros s Hs. now apply Hkeep.
Qed.

Lemma ensureTracked_initial_score_witness :
  lookup (stationGoodness initial_state) station_91_5 = None
  /\ exists t st',
      refresh_stations example_context initial_state
        (example_iteration (inr [station_91_5; station_101_1; station_91_5])
                           1500000000000000000 speech_world)
      = (t, Return st')
      /\ lookup (stationGoodness st') station_91_5 = Some c0_5.
Proof.
  split; [reflexivity|]. eexists _, _. split; [reflexivity|].
  refine (proj1 (proj2 (proj2 (ensureTracked_initial_score [] station_91_5))
                   example_context initial_state
                   (example_iteration (inr [station_91_5; station_101_1; station_91_5])
                                      1500000000000000000 speech_world)
                   _ _ _ eq_refl eq_refl eq_refl eq_refl) _ eq_refl eq_refl).
  simpl. now left.
Defined.

(** C6: a due discovery that finds no station while none is tracked stops the
    process with the panic "No FM stations. Move the antenna?": the iteration's
    only effect is the discovery call, so no station is visited, and the loop
    does not go on.  With a station tracked, an empty discovery is not fatal:
    the map stays as it is and the loop goes on. *)
Theorem no_stations_is_fatal (fused : bool) (c : loop_context) (s : loop_state)
    (w : iteration_world) :
  refresh_due (Now_check w) (lastStationsRefresh s) = true ->
  GetCeilingSignals w = inr [] ->
  (stationGoodness s = [] ->
   main_iteration fused c s w
   = ([CallGetCeilingSignals (hostname c) (-8)],
      Panic (PanicString "No FM stations. Move the antenna?"))
   /\ forall ws, main_loop fused c s (w :: ws)
                 = ([CallGetCeilingSignals (hostname c) (-8)],
                    Panic (PanicString "No FM stations. Move the antenna?")))
  /\ (stationGoodness s <> [] ->
      refresh_stations c s w
      = ([CallGetCeilingSignals (hostname c) (-8);
          Println [PStr "found"; PInt 0; PStr "stations"];
          Println [PMap (stationGoodness s)]],
         Return {| stationGoodness := stationGoodness s;
                   lastStationsRefresh := Now_refreshed w |})).
Proof.
  intros Hdue Hsig. split.
  - intros Hempty.
    assert (main_iteration fused c s w
            = ([CallGetCeilingSignals (hostname c) (-8)],
               Panic (PanicString "No FM stations. Move the antenna?"))) as Hit.
    { unfold main_iteration, refresh_stations. rewrite Hdue, Hsig, Hempty. reflexivity. }
    split; [exact Hit|]. intros ws. simpl main_loop. now rewrite Hit.
  - intros Hne. unfold refresh_stations. rewrite Hdue, Hsig. simpl.
    destruct (stationGoodness s); [contradiction | reflexivity].
Qed.

Lemma no_stations_is_fatal_witness :
  main_loop false example_context initial_state
    [example_iteration (inr []) 1500000000000000000 speech_world;
     example_iteration (inr [station_91_5]) 1500000400000000000 speech_world]
  = ([CallGetCeilingSignals "sdr" (-8)],
     Panic (PanicString "No FM stations. Move the antenna?")).
Proof.
  exact (proj2 (proj1 (no_stations_is_fatal false example_context initial_state
                         (example_iteration (inr []) 1500000000000000000 speech_world)
                         eq_refl eq_refl) eq_refl) _).
Defined.

(** C7 as the spec words it fails: a discovery that returns an error panics, and
    no state with a recorded time comes out of it. *)
Lemma discovery_error_records_nothing :
  refresh_due 1500000000000000000 (lastStationsRefresh initial_state) = true
  /\ refresh_stations example_context initial_state
       (example_iteration (inl "rtlsdr unreachable"%string) 1500000000000000000
                          speech_world)
     = ([CallGetCeilingSignals "sdr" (-8)], Panic (PanicError "rtlsdr unreachable"))
  /\ ~ timestamp_recorded_whatever_outcome.
Proof.
  split; [reflexivity|]. split; [reflexivity|].
  intros H.
  destruct (H example_context initial_state
              (example_iteration (inl "rtlsdr unreachable"%string)
                                 1500000000000000000 speech_world) eq_refl)
    as (t & s' & Heq & _).
  discriminate Heq.
Qed.

(** ** The connection *)

Lemma nonempty_length (s : string) : nonempty s = true <-> (0 < String.length s)%nat.
Proof. destruct s; simpl; split; intros; try discriminate; try lia; reflexivity. Qed.

Lemma getEnv_single (Getenv : string -> string) (key : string) :
  getEnv Getenv [key]
  = if nonempty (Getenv key) then ([], Return (Getenv key))
    else ([Println [PStr "none of"; PStrs [key]; PStr "are set"]],
          Panic (PanicString "can't any find set value")).
Proof. unfold getEnv. simpl. now destruct (nonempty (Getenv key)). Qed.

Lemma substring_all (s : string) : String.substring 0 (String.length s) s = s.
Proof. induction s as [|a s IH]; simpl; [reflexivity | now rewrite IH]. Qed.

(** A prefix and the rest make the string again. *)
Lemma substring_split (s : string) (n : nat) :
  (n <= String.length s)%nat ->
  (String.substring 0 n s +:+ String.substring n (String.length s - n) s) = s.
Proof.
  revert n. induction s as [|a s IH]; intros n Hn.
  - destruct n; [reflexivity | simpl in Hn; lia].
  - destruct n as [|n].
    + rewrite Nat.sub_0_r, substring_all. reflexivity.
    + simpl in Hn. change (String a (String.substring 0 n s
                                     +:+ String.substring n (String.length s - n) s)
                           = String a s).
      f_equal. apply IH. lia.
Qed.

Lemma substring_prefix_length (s : string) (n : nat) :
  (n <= String.length s)%nat -> String.length (String.substring 0 n s) = n.
Proof.
  revert n. induction s as [|a s IH]; intros n Hn; simpl in *.
  - destruct n; [reflexivity | lia].
  - destruct n as [|n]; simpl; [reflexivity|]. rewrite IH; lia.
Qed.

(** [connect] with a key of at least 16 bytes and the broker list set. *)
Lemma connect_long_key (Getenv : string -> string)
    (NewSyncProducer : list string -> Config -> option error) (topic : string) :
  let apiKey := Getenv "MSGHUB_API_KEY"%string in
  let brokers := Split (Getenv "MSGHUB_BROKER_URL"%string) ","%char in
  let config :=
    {| ClientID := apiKey; RequiredAcks_WaitForAll := true; Retry_Max := 5;
       Return_Successes := true; TLS_Enable := true;
       SASL_User := String.substring 0 16 apiKey;
       SASL_Password := String.substring 16 (String.length apiKey - 16) apiKey;
       SASL_Enable := true |} in
  (16 <= String.length apiKey)%nat ->
  nonempty (Getenv "MSGHUB_BROKER_URL"%string) = true ->
  connect Getenv NewSyncProducer topic
  = ([Println [PStr "msghub key:"; PStr apiKey];
      Println [PStr "url:"; PStr (Getenv "MSGHUB_BROKER_URL"%string)];
      Println [PStr "now connecting to msghub"];
      CallNewSyncProducer brokers config;
      Println [PStr "done trying to connect"]],
     Return (match NewSyncProducer brokers config with
             | Some e => ({| Producer := None; Topic := topic |}, Some e)
             | None => ({| Producer := Some {| producer_brokers := brokers;
                                               producer_config := config |};
                           Topic := topic |}, None)
             end)).
Proof.
  intros apiKey brokers config Hlen Hurl.
  assert (nonempty apiKey = true) as Hne by (apply nonempty_length; lia).
  assert ((16 <=? String.length apiKey)%nat = true) as Hleb by (apply Nat.leb_le; lia).
  unfold connect. rewrite getEnv_single. fold apiKey. rewrite Hne.
  cbn -[slice_to slice_from getEnv Split].
  unfold slice_to, slice_from. fold apiKey. rewrite Hleb.
  rewrite getEnv_single, Hurl.
  cbn -[Nat.leb String.substring Split]. fold apiKey brokers config.
  now destruct (NewSyncProducer brokers config).
Qed.

(** C10, as the code has it: a key that is set but shorter than 16 bytes makes
    [connect] panic with "slice bounds out of range" right after printing the
    key; it returns no error value.  With 16 bytes or more (and the broker list
    set) the producer is created with the first 16 bytes as user and the rest as
    password.  An empty key never reaches the slicing: [getEnv] panics first. *)
Theorem connect_splits_api_key (Getenv : string -> string)
    (NewSyncProducer : list string -> Config -> option error) (topic : string) :
  let apiKey := Getenv "MSGHUB_API_KEY"%string in
  ((0 < String.length apiKey < 16)%nat ->
   connect Getenv NewSyncProducer topic
   = ([Println [PStr "msghub key:"; PStr apiKey]],
      Panic (PanicSliceBounds 16 (String.length apiKey))))
  /\ ((16 <= String.length apiKey)%nat ->
      nonempty (Getenv "MSGHUB_BROKER_URL"%string) = true ->
      exists brokers config r,
        connect Getenv NewSyncProducer topic
        = ([Println [PStr "msghub key:"; PStr apiKey];
            Println [PStr "url:"; PStr (Getenv "MSGHUB_BROKER_URL"%string)];
            Println [PStr "now connecting to msghub"];
            CallNewSyncProducer brokers config;
            Println [PStr "done trying to connect"]],
           Return r)
        /\ SASL_User config = String.substring 0 16 apiKey
        /\ String.length (SASL_User config) = 16%nat
        /\ SASL_User config +:+ SASL_Password config = apiKey)
  /\ (apiKey = ""%string ->
      connect Getenv NewSyncProducer topic
      = ([Println [PStr "none of"; PStrs ["MSGHUB_API_KEY"%string]; PStr "are set"]],
         Panic (PanicString "can't any find set value"))).
Proof.
  intros apiKey. split; [|split].
  - intros [Hpos Hshort].
    assert (nonempty apiKey = true) as Hne by (apply nonempty_length; lia).
    assert ((16 <=? String.length apiKey)%nat = false) as Hleb
      by (apply Nat.leb_gt; lia).
    unfold connect. rewrite getEnv_single. fold apiKey. rewrite Hne.
    cbn -[slice_to slice_from getEnv Split].
    unfold slice_to. fold apiKey. now rewrite Hleb.
  - intros Hlen Hurl.
    pose proof (connect_long_key Getenv NewSyncProducer topic Hlen Hurl) as Heq.
    cbv zeta in Heq. fold apiKey in Heq.
    eexists _, _, _. split; [exact Heq|]. cbn [SASL_User SASL_Password].
    split; [reflexivity|]. split.
    + apply substring_prefix_length. exact Hlen.
    + apply substring_split. exact Hlen.
  - intros Hempty. unfold connect. rewrite getEnv_single. fold apiKey.
    now rewrite Hempty.
Qed.

Lemma connect_splits_api_key_witness :
  connect (Getenv_with_key "short-key") (fun _ _ => None) "sdr-audio"
  = ([Println [PStr "msghub key:"; PStr "short-key"]], Panic (PanicSliceBounds 16 9))
  /\ exists brokers config r,
      connect example_Getenv (fun _ _ => None) "sdr-audio"
      = ([Println [PStr "msghub key:"; PStr "0123456789abcdefWXYZ"];
          Println [PStr "url:"; PStr "broker1:9093,broker2:9093"];
          Println [PStr "now connecting to msghub"];
          CallNewSyncProducer brokers config;
          Println [PStr "done trying to connect"]],
         Return r)
      /\ brokers = ["broker1:9093"; "broker2:9093"]%string
      /\ SASL_User config = "0123456789abcdef"%string
      /\ SASL_Password config = "WXYZ"%string.
Proof.
  split.
  - apply (proj1 (connect_splits_api_key (Getenv_with_key "short-key")
                    (fun _ _ => None) "sdr-audio")).
    simpl. lia.
  - destruct (proj1 (proj2 (connect_splits_api_key example_Getenv (fun _ _ => None)
                              "sdr-audio")))
      as (brokers & config & r & Heq & _); [simpl; lia | reflexivity |].
    exists brokers, config, r. split; [exact Heq|].
    injection Heq as Hb Hc _. subst brokers config. repeat split.
Defined.

(** C10 as the spec words it fails for the empty key: the panic is [getEnv]'s
    "can't any find set value", not the slice bounds. *)
Lemma connect_empty_key_panics_in_getEnv :
  String.length (Getenv_with_key "" "MSGHUB_API_KEY") = 0%nat
  /\ connect (Getenv_with_key "") (fun _ _ => None) "sdr-audio"
     = ([Println [PStr "none of"; PStrs ["MSGHUB_API_KEY"%string]; PStr "are set"]],
        Panic (PanicString "can't any find set value"))
  /\ ~ short_key_panics_on_slice_bounds.
Proof.
  split; [reflexivity|]. split; [reflexivity|].
  intros H.
  specialize (H (Getenv_with_key "") (fun _ _ => None) "sdr-audio"%string).
  simpl in H. specialize (H ltac:(lia)). discriminate H.
Qed.

(** ** The model loader *)

Lemma emit_all_eq (es : list event) : emit_all es = (es, Return tt).
Proof.
  induction es as [|e es IH]; [reflexivity|].
  simpl emit_all. rewrite IH. reflexivity.
Qed.

(** The loop over the operations, from any starting pair: a type is a key of the
    map when it was one or some operation has it and it is not whitelisted; the
    flag is set when it was or some operation is not whitelisted. *)
Lemma scan_ops_from (ops : list Operation) (u0 : gmap string bool) (b0 : bool) :
  let r := foldl (fun acc op =>
                    if negb (opIsSafe (op_Type op))
                    then (<[op_Type op := true]> (fst acc), true)
                    else acc) (u0, b0) ops in
  (forall t, is_Some (fst r !! t)
             <-> is_Some (u0 !! t)
                 \/ exists op, In op ops /\ op_Type op = t /\ opIsSafe t = false)
  /\ (snd r = true
      <-> b0 = true \/ exists op, In op ops /\ opIsSafe (op_Type op) = false).
Proof.
  revert u0 b0. induction ops as [|op ops IH]; intros u0 b0; simpl.
  - split; [intros t|]; split; auto; intros [H|(op & [] & _)]; exact H.
  - destruct (opIsSafe (op_Type op)) eqn:Hsafe; simpl.
    + destruct (IH u0 b0) as [IH1 IH2]. split.
      * intros t. rewrite IH1. split; intros [H|(op' & Hin & Ht & Hu)]; auto.
        -- right. exists op'. auto.
        -- destruct Hin as [<-|Hin]; [congruence|]. right. exists op'. auto.
      * rewrite IH2. split; intros [H|(op' & Hin & Hu)]; auto.
        -- right. exists op'. auto.
        -- destruct Hin as [<-|Hin]; [congruence|]. right. exists op'. auto.
    + destruct (IH (<[op_Type op := true]> u0) true) as [IH1 IH2]. split.
      * intros t. rewrite IH1. split.
        -- intros [H|(op' & Hin & Ht & Hu)].
           ++ destruct (decide (op_Type op = t)) as [<-|Hne].
              ** right. exists op. auto.
              ** left. now rewrite lookup_insert_ne in H.
           ++ right. exists op'. auto.
        -- intros [H|(op' & Hin & Ht & Hu)].
           ++ left. destruct (decide (op_Type op = t)) as [<-|Hne].
              ** rewrite lookup_insert_eq. eauto.
              ** now rewrite lookup_insert_ne.
           ++ destruct Hin as [<-|Hin].
              ** left. rewrite Ht, lookup_insert_eq. eauto.
              ** right. exists op'. auto.
      * rewrite IH2. split; [|auto]. intros _. right. exists op. auto.
Qed.

Lemma scan_ops_spec (ops : list Operation) :
  (forall t, is_Some (fst (scan_ops ops) !! t)
             <-> exists op, In op ops /\ op_Type op = t /\ opIsSafe t = false)
  /\ (snd (scan_ops ops) = true
      <-> exists op, In op ops /\ opIsSafe (op_Type op) = false).
Proof.
  destruct (scan_ops_from ops ∅ false) as [H1 H2]. unfold scan_ops. split.
  - intros t. rewrite H1. split; [|auto].
    intros [H|H]; [|exact H]. rewrite lookup_empty in H. now destruct H.
  - rewrite H2. split; [|auto]. intros [H|H]; [discriminate | exact H].
Qed.

(** What [newModel] does on a graph with an operation outside the whitelist. *)
Lemma newModel_rejects_unsafe_graph_aux (w : loader_world) (path : string)
    (def : list Byte.byte) (graph : Graph) :
  ReadFile w path = inr def ->
  Import w def = inr graph ->
  (forall l, Permutation (range_keys w l) l) ->
  (exists op, In op graph /\ opIsSafe (op_Type op) = false) ->
  exists reported : list string,
    newModel w path
    = (Println [PStr "The following OP types are not in whitelist:"]
         :: map (fun t => Println [PStr t]) reported,
       Return (zero_model, Some "unsafe OPs"%string)).
Proof.
  intros Hread Himport Hperm Hunsafe.
  apply (proj2 (scan_ops_spec graph)) in Hunsafe.
  exists (range_keys w (map_to_list (fst (scan_ops graph))).*1).
  unfold newModel. rewrite Hread, Himport.
  destruct (scan_ops graph) as [u b]. simpl in Hunsafe. subst b.
  simpl. rewrite emit_all_eq. simpl. now rewrite app_nil_r.
Qed.

(** C3: a graph with an operation type outside the whitelist is rejected:
    [newModel] returns the error "unsafe OPs" and the zero model, which has no
    session, and what it prints after the heading lists every offending type,
    each exactly once, whatever the order in which the runtime ranges over the
    set. *)
Theorem newModel_rejects_unsafe_graph (w : loader_world) (path : string)
    (def : list Byte.byte) (graph : Graph) :
  ReadFile w path = inr def ->
  Import w def = inr graph ->
  (forall l, Permutation (range_keys w l) l) ->
  (exists op, In op graph /\ opIsSafe (op_Type op) = false) ->
  exists reported : list string,
    newModel w path
    = (Println [PStr "The following OP types are not in whitelist:"]
         :: map (fun t => Println [PStr t]) reported,
       Return (zero_model, Some "unsafe OPs"%string))
    /\ Sess zero_model = None
    /\ NoDup reported
    /\ (forall t, In t reported
                  <-> exists op, In op graph /\ op_Type op = t /\ opIsSafe t = false).
Proof.
  intros Hread Himport Hperm Hunsafe.
  destruct (scan_ops_spec graph) as [Hkeys Hflag].
  apply Hflag in Hunsafe.
  exists (range_keys w (map_to_list (fst (scan_ops graph))).*1).
  split; [|split; [reflexivity|split]].
  - unfold newModel. rewrite Hread, Himport.
    destruct (scan_ops graph) as [u b]. simpl in Hunsafe. subst b.
    simpl. rewrite emit_all_eq. simpl. now rewrite app_nil_r.
  - rewrite (Hperm _). apply NoDup_fst_map_to_list.
  - intros t. rewrite <- Hkeys.
    rewrite <- list_elem_of_In, (Hperm _), list_elem_of_fmap.
    split.
    + intros ([k v] & -> & Hin). apply elem_of_map_to_list in Hin. simpl. eauto.
    + intros [v Hv]. exists (t, v). split; [reflexivity|].
      now apply elem_of_map_to_list.
Qed.

Lemma newModel_rejects_unsafe_graph_witness :
  exists reported : list string,
    newModel (example_loader unsafe_graph) "model.pb"
    = (Println [PStr "The following OP types are not in whitelist:"]
         :: map (fun t => Println [PStr t]) reported,
       Return (zero_model, Some "unsafe OPs"%string))
    /\ NoDup reported
    /\ In "ReadFile"%string reported /\ In "PrintV2"%string reported
    /\ ~ In "Softmax"%string reported.
Proof.
  destruct (newModel_rejects_unsafe_graph (example_loader unsafe_graph) "model.pb"
              [] unsafe_graph eq_refl eq_refl)
    as (reported & Heq & _ & Hnodup & Hin).
  - intros l. simpl. symmetry. apply Permutation_rev.
  - exists {| op_Name := "print"; op_Type := "PrintV2" |}. simpl. tauto.
  - exists reported. split; [exact Heq|]. split; [exact Hnodup|].
    split; [|split].
    + apply Hin. exists {| op_Name := "read1"; op_Type := "ReadFile" |}. simpl. tauto.
    + apply Hin. exists {| op_Name := "print"; op_Type := "PrintV2" |}. simpl. tauto.
    + intros H. apply Hin in H. destruct H as (op & _ & Ht & Hu).
      discriminate Hu.
Defined.

(** ** The floor of the goodness score *)

Lemma sample_station_cases (fused : bool) (c : loop_context) (m : station_map)
    (station g : float32) (w : station_world) (t : list event) (m' : station_map) :
  sample_station fused c m station g w = (t, Return m') ->
  m' = m
  \/ exists val, scored w = inr val
                 /\ m' = assign m station (updated_goodness fused (index m station) val).
Proof.
  destruct (ltb (rand_Float32 w) g) eqn:Hdraw.
  - destruct (GetAudio w) as [err|audio] eqn:Haudio.
    + unfold sample_station. rewrite Hdraw, Haudio. discriminate.
    + destruct (scored w) as [err|val] eqn:Hval.
      * unfold sample_station, goodness. rewrite Hdraw, Haudio, Hval. discriminate.
      * rewrite (sample_station_sampled fused c m station g w audio val Hdraw Haudio Hval).
        intros [= _ <-]. right. eauto.
  - rewrite sample_station_skipped by exact Hdraw. intros [= _ <-]. now left.
Qed.

(** One visit keeps the floor and the keys, when the station visited is tracked
    (or its key is NaN, which no read finds) and the value is not negative. *)
Lemma sample_station_floor (fused : bool) (c : loop_context) (m : station_map)
    (station g : float32) (w : station_world) (t : list event) (m' : station_map) :
  above_floor m ->
  (is_nan station = false -> exists s, lookup m station = Some s) ->
  (forall v, scored w = inr v -> leb zero v = true) ->
  sample_station fused c m station g w = (t, Return m') ->
  above_floor m'
  /\ (forall k s, lookup m k = Some s -> exists s', lookup m' k = Some s').
Proof.
  intros Hfloor Htracked Hnonneg Hrun.
  destruct (sample_station_cases _ _ _ _ _ _ _ _ Hrun) as [->|(val & Hval & ->)].
  - split; [exact Hfloor | eauto].
  - split; [|intros k s Hk; eapply lookup_assign_present; exact Hk].
    intros k s Hk.
    destruct (is_nan station) eqn:Hnan.
    + rewrite lookup_assign_other in Hk by (now destruct station).
      exact (Hfloor k s Hk).
    + destruct (Htracked eq_refl) as [old Hold].
      apply lookup_assign_inv in Hk. destruct Hk as [->|Hk]; [|exact (Hfloor k s Hk)].
      rewrite (index_tracked m station old Hold).
      apply updated_goodness_floor.
      * eapply leb_finite_positive. exact (Hfloor station old Hold).
      * apply leb_zero_nonneg, Hnonneg, Hval.
Qed.

Lemma sampling_pass_floor (fused : bool) (c : loop_context)
    (order : list (float32 * float32)) (ws : nat -> station_world) :
  (forall n v, scored (ws n) = inr v -> leb zero v = true) ->
  forall (m : station_map) (n : nat) (t : list event) (m' : station_map),
    above_floor m ->
    (forall k g, In (k, g) order -> is_nan k = false -> exists s, lookup m k = Some s) ->
    sampling_pass fused c m order ws n = (t, Return m') ->
    above_floor m'.
Proof.
  intros Hnonneg. induction order as [|[station g] rest IH]; intros m n t m' Hfloor Hkeys.
  - simpl. now intros [= _ <-].
  - simpl sampling_pass. unfold bind.
    destruct (sample_station fused c m station g (ws n)) as [t1 [m1|p]] eqn:Hvisit;
      [|discriminate].
    destruct (sampling_pass fused c m1 rest ws (S n)) as [t2 r2] eqn:Hrest.
    intros [= _ ->].
    destruct (sample_station_floor fused c m station g (ws n) t1 m1 Hfloor) as [Hf1 Hk1];
      [intros Hnan; apply (Hkeys station g); [now left | exact Hnan]
      |apply Hnonneg | exact Hvisit |].
    apply (IH m1 (S n) t2 m' Hf1); [|exact Hrest].
    intros k g' Hin Hnan.
    destruct (Hkeys k g' (or_intror Hin) Hnan) as [s Hs]. exact (Hk1 k s Hs).
Qed.

Lemma refresh_stations_floor (c : loop_context) (s : loop_state) (w : iteration_world)
    (t : list event) (s' : loop_state) :
  above_floor (stationGoodness s) ->
  refresh_stations c s w = (t, Return s') ->
  above_floor (stationGoodness s').
Proof.
  intros Hfloor.
  destruct (refresh_due (Now_check w) (lastStationsRefresh s)) eqn:Hdue.
  - destruct (GetCeilingSignals w) as [err|stations] eqn:Hsig.
    + unfold refresh_stations. rewrite Hdue, Hsig. discriminate.
    + destruct (refresh_stations_answered c s w stations Hdue Hsig)
        as (t0 & m' & Htrack & ->).
      destruct (track_stations_spec stations (stationGoodness s))
        as (t1 & m1 & Htrack1 & _ & _ & Hinv & _).
      rewrite Htrack in Htrack1. injection Htrack1 as <- <-.
      destruct (length m' <? 1)%nat; [discriminate|]. intros [= _ <-]. simpl.
      intros k v Hk. destruct (Hinv k v Hk) as [H| ->]; [exact (Hfloor k v H)|].
      reflexivity.
  - rewrite refresh_stations_skipped by exact Hdue. now intros [= _ <-].
Qed.

Lemma main_iteration_floor (fused : bool) (c : loop_context) (s : loop_state)
    (w : iteration_world) (t : list event) (s' : loop_state) :
  scores_nonneg w -> range_visits_entries w ->
  above_floor (stationGoodness s) ->
  main_iteration fused c s w = (t, Return s') ->
  above_floor (stationGoodness s').
Proof.
  intros Hnonneg Hrange Hfloor. unfold main_iteration, bind.
  destruct (refresh_stations c s w) as [t1 [s1|p]] eqn:Hrefresh; [|discriminate].
  destruct (sampling_pass fused c (stationGoodness s1)
              (range_order w (stationGoodness s1)) (station_worlds w) 0)
    as [t2 [m2|p]] eqn:Hpass; [|discriminate].
  simpl. intros [= _ <-]. simpl.
  eapply (sampling_pass_floor fused c _ (station_worlds w) Hnonneg); [| |exact Hpass].
  - exact (refresh_stations_floor c s w t1 s1 Hfloor Hrefresh).
  - intros k g Hin Hnan. apply (In_lookup _ k g); [|exact Hnan].
    apply list_elem_of_In. rewrite <- (Hrange (stationGoodness s1)).
    now apply list_elem_of_In.
Qed.

Lemma main_loop_floor (fused : bool) (c : loop_context) (ws : list iteration_world) :
  Forall scores_nonneg ws -> Forall range_visits_entries ws ->
  forall (s : loop_state) (t : list event) (s' : loop_state),
    above_floor (stationGoodness s) ->
    main_loop fused c s ws = (t, Return s') ->
    above_floor (stationGoodness s').
Proof.
  induction ws as [|w ws IH]; intros Hnonneg Hrange s t s' Hfloor.
  - simpl. now intros [= _ <-].
  - apply Forall_cons in Hnonneg as [Hn1 Hn2]. apply Forall_cons in Hrange as [Hr1 Hr2].
    simpl main_loop. unfold bind.
    destruct (main_iteration fused c s w) as [t1 [s1|p]] eqn:Hit; [|discriminate].
    destruct (main_loop fused c s1 ws) as [t2 r2] eqn:Hloop. intros [= _ ->].
    exact (IH Hn2 Hr2 s1 t2 s' (main_iteration_floor fused c s w t1 s1 Hn1 Hr1 Hfloor Hit)
              Hloop).
Qed.

(** C9: as long as scoring returns values that are not negative, every score
    the loop can reach is at least 0.05: it starts at 0.5 and an update of a
    score at or above the floor is at or above it again, fused or not.  So
    every draw below 0.05 samples the station: its chance of being sampled
    never becomes zero. *)
Theorem goodness_stays_above_floor (fused : bool) (c : loop_context)
    (ws : list iteration_world) (t : list event) (s : loop_state) :
  Forall scores_nonneg ws ->
  Forall range_visits_entries ws ->
  main_loop fused c initial_state ws = (t, Return s) ->
  forall station score,
    lookup (stationGoodness s) station = Some score ->
    leb c0_05 score = true
    /\ (forall val, leb zero val = true ->
                    leb c0_05 (updated_goodness fused score val) = true)
    /\ (forall draw, ltb draw c0_05 = true -> ltb draw score = true).
Proof.
  intros Hnonneg Hrange Hrun station score Hscore.
  assert (leb c0_05 score = true) as Hfloor.
  { refine (main_loop_floor fused c ws Hnonneg Hrange initial_state t s _ Hrun
              station score Hscore).
    intros k v Hk. discriminate Hk. }
  split; [exact Hfloor|]. split.
  - intros val Hval. apply updated_goodness_floor.
    + eapply leb_finite_positive. exact Hfloor.
    + now apply leb_zero_nonneg.
  - intros draw Hdraw. exact (ltb_leb_trans _ _ _ Hdraw Hfloor).
Qed.

Lemma goodness_stays_above_floor_witness :
  exists t s,
    main_loop true example_context initial_state example_run = (t, Return s)
    /\ lookup (stationGoodness s) station_91_5 = Some (S754_finite false 13925091 (-24))
    /\ leb c0_05 (S754_finite false 13925091 (-24)) = true.
Proof.
  eexists _, _. split; [reflexivity|]. split; [reflexivity|].
  refine (proj1 (goodness_stays_above_floor true example_context example_run _ _
                   _ _ eq_refl station_91_5 _ eq_refl)).
  - repeat constructor; intros n v [= <-]; reflexivity.
  - repeat constructor; intros m; symmetry; apply Permutation_rev.
Defined.

(** ** Further properties of the loop and the loader *)

(** X1: the loop starts with the zero time as the time of the last discovery, so
    the first iteration discovers, whatever the clock reads after the first five
    minutes of year 1. *)
Theorem first_iteration_discovers (c : loop_context) (w : iteration_world) :
  5 * time.Minute < Now_check w ->
  exists t r,
    refresh_stations c initial_state w
    = (CallGetCeilingSignals (hostname c) (-8) :: t, r).
Proof.
  intros Hnow.
  assert (refresh_due (Now_check w) (lastStationsRefresh initial_state) = true) as Hdue.
  { apply refresh_due_iff. simpl. unfold time.zero. lia. }
  destruct (GetCeilingSignals w) as [err|stations] eqn:Hsig.
  - exists [], (Panic (PanicError err)).
    unfold refresh_stations. now rewrite Hdue, Hsig.
  - destruct (refresh_stations_answered c initial_state w stations Hdue Hsig)
      as (t & m' & _ & ->).
    destruct (length m' <? 1)%nat; eauto.
Qed.

Lemma first_iteration_discovers_witness :
  exists t r,
    refresh_stations example_context initial_state
      (example_iteration (inr [station_91_5]) 1500000000000000000 speech_world)
    = (CallGetCeilingSignals "sdr" (-8) :: t, r).
Proof.
  apply (first_iteration_discovers example_context
           (example_iteration (inr [station_91_5]) 1500000000000000000 speech_world)).
  vm_compute. reflexivity.
Defined.

Lemma sampling_pass_keeps_keys (fused : bool) (c : loop_context)
    (order : list (float32 * float32)) (ws : nat -> station_world) :
  forall (m : station_map) (n : nat) (t : list event) (m' : station_map),
    sampling_pass fused c m order ws n = (t, Return m') ->
    forall k s, lookup m k = Some s -> exists s', lookup m' k = Some s'.
Proof.
  induction order as [|[station g] rest IH]; intros m n t m'.
  - simpl. intros [= _ <-]. eauto.
  - simpl sampling_pass. unfold bind.
    destruct (sample_station fused c m station g (ws n)) as [t1 [m1|p]] eqn:Hvisit;
      [|discriminate].
    destruct (sampling_pass fused c m1 rest ws (S n)) as [t2 r2] eqn:Hrest.
    intros [= _ ->] k s Hk.
    assert (exists s1, lookup m1 k = Some s1) as [s1 Hs1].
    { destruct (sample_station_cases _ _ _ _ _ _ _ _ Hvisit) as [->|(val & _ & ->)];
        [eauto | eapply lookup_assign_present; exact Hk]. }
    exact (IH m1 (S n) t2 m' Hrest k s1 Hs1).
Qed.

(** X2: the tracked set only grows: a station that is tracked stays tracked through
    every iteration the loop completes, with some score. *)
Theorem tracked_stations_stay_tracked (fused : bool) (c : loop_context)
    (ws : list iteration_world) :
  forall (s : loop_state) (t : list event) (s' : loop_state) (station score : float32),
    main_loop fused c s ws = (t, Return s') ->
    lookup (stationGoodness s) station = Some score ->
    exists score', lookup (stationGoodness s') station = Some score'.
Proof.
  induction ws as [|w ws IH]; intros s t s' station score.
  - simpl. intros [= _ <-]. eauto.
  - simpl main_loop. unfold bind.
    destruct (main_iteration fused c s w) as [t1 [s1|p]] eqn:Hit; [|discriminate].
    destruct (main_loop fused c s1 ws) as [t2 r2] eqn:Hloop.
    intros [= _ ->] Hk.
    assert (exists s1', lookup (stationGoodness s1) station = Some s1') as [s1' Hs1].
    { revert Hit. unfold main_iteration, bind.
      destruct (refresh_stations c s w) as [t3 [s3|p]] eqn:Hrefresh; [|discriminate].
      destruct (sampling_pass fused c (stationGoodness s3)
                  (range_order w (stationGoodness s3)) (station_worlds w) 0)
        as [t4 [m4|p]] eqn:Hpass; [|discriminate].
      simpl. intros [= _ <-]. simpl.
      assert (lookup (stationGoodness s3) station = Some score) as Hk3.
      { destruct (refresh_due (Now_check w) (lastStationsRefresh s)) eqn:Hdue.
        - destruct (GetCeilingSignals w) as [err|stations] eqn:Hsig.
          + unfold refresh_stations in Hrefresh. rewrite Hdue, Hsig in Hrefresh.
            discriminate.
          + destruct (refresh_stations_answered c s w stations Hdue Hsig)
              as (t0 & m' & Htrack & Heq).
            destruct (track_stations_spec stations (stationGoodness s))
              as (t5 & m5 & Htrack5 & Hkeep & _).
            rewrite Htrack in Htrack5. injection Htrack5 as <- <-.
            rewrite Heq in Hrefresh. destruct (length m' <? 1)%nat; [discriminate|].
            injection Hrefresh as _ <-. simpl. now apply Hkeep.
        - rewrite refresh_stations_skipped in Hrefresh by exact Hdue.
          injection Hrefresh as _ <-. exact Hk. }
      exact (sampling_pass_keeps_keys fused c _ _ _ _ _ _ Hpass station score Hk3). }
    exact (IH s1 t2 s' station s1' Hloop Hs1).
Qed.

Lemma tracked_stations_stay_tracked_witness :
  exists score',
    lookup [(station_91_5, S754_finite false 13925091 (-24));
            (station_101_1, S754_finite false 13925091 (-24))] station_91_5
    = Some score'.
Proof.
  exact (tracked_stations_stay_tracked true example_context [List.nth 1 example_run
           (example_iteration (inr []) 0 speech_world)]
           {| stationGoodness := [(station_91_5, S754_finite false 10905191 (-24));
                                  (station_101_1, S754_finite false 10905191 (-24))];
              lastStationsRefresh := 1500000000000001000 |}
           _ _ station_91_5 _ eq_refl eq_refl).
Defined.

(** X3: a graph of whitelisted operations that lacks the output or the input port
    is refused with an error of its own, different from the whitelist's, and
    nothing is printed. *)
Theorem newModel_missing_port (w : loader_world) (path : string)
    (def : list Byte.byte) (graph : Graph) :
  ReadFile w path = inr def ->
  Import w def = inr graph ->
  (forall op, In op graph -> opIsSafe (op_Type op) = true) ->
  (graph_Operation graph "output" = None ->
   newModel w path = ([], Return (zero_model, Some "output OP not found"%string)))
  /\ (graph_Operation graph "output" <> None ->
      graph_Operation graph "input/Placeholder" = None ->
      exists m, newModel w path = ([], Return (m, Some "input OP not found"%string))
                /\ Sess m = None).
Proof.
  intros Hread Himport Hsafe.
  assert (snd (scan_ops graph) = false) as Hflag.
  { destruct (snd (scan_ops graph)) eqn:E; [|reflexivity].
    apply (proj2 (scan_ops_spec graph)) in E. destruct E as (op & Hin & Hu).
    rewrite (Hsafe op Hin) in Hu. discriminate. }
  unfold newModel. rewrite Hread, Himport.
  destruct (scan_ops graph) as [u b]. simpl in Hflag. subst b. split.
  - now intros ->.
  - intros Hout Hin. destruct (graph_Operation graph "output"); [|contradiction].
    rewrite Hin. eauto.
Qed.

Lemma newModel_missing_port_witness :
  newModel (example_loader [ {| op_Name := "input/Placeholder";
                                op_Type := "Placeholder" |} ]) "model.pb"
  = ([], Return (zero_model, Some "output OP not found"%string)).
Proof.
  apply (proj1 (newModel_missing_port
                  (example_loader [ {| op_Name := "input/Placeholder";
                                       op_Type := "Placeholder" |} ])
                  "model.pb" [] _ eq_refl eq_refl
                  ltac:(intros op [<-|[]]; reflexivity))).
  reflexivity.
Defined.

(** X4: [main] stops on a graph with an operation outside the whitelist: it panics
    with the loader's error before it connects or samples anything. *)
Theorem main_panics_on_unsafe_graph (fused : bool) (w : main_world)
    (ws : list iteration_world) (def : list Byte.byte) (graph : Graph) :
  nonempty (Getenv w "HZN_ORG_ID"%string) = true ->
  nonempty (Getenv w "HZN_DEVICE_ID"%string) = true ->
  ReadFile (loader w) "model.pb"%string = inr def ->
  Import (loader w) def = inr graph ->
  (forall l, Permutation (range_keys (loader w) l) l) ->
  (exists op, In op graph /\ opIsSafe (op_Type op) = false) ->
  outcome (main fused w ws) = Panic (PanicError "unsafe OPs")
  /\ (forall brokers config, ~ In (CallNewSyncProducer brokers config)
                                  (trace (main fused w ws)))
  /\ (forall host station, ~ In (CallGetAudio host station) (trace (main fused w ws))).
Proof.
  intros Horg Hdev Hread Himport Hperm Hunsafe.
  destruct (newModel_rejects_unsafe_graph_aux (loader w) "model.pb" def graph
              Hread Himport Hperm Hunsafe) as (reported & Hload).
  unfold main, main_setup. rewrite !getEnv_single, Horg, Hdev, Hload.
  destruct (nonempty (Getenv w "RTLSDR_ADDR")); simpl.
  - repeat split.
    + intros brokers config [H|[H|H]]; try discriminate.
      rewrite app_nil_r in H. apply in_map_iff in H. now destruct H as (x & H & _).
    + intros host station [H|[H|H]]; try discriminate.
      rewrite app_nil_r in H. apply in_map_iff in H. now destruct H as (x & H & _).
  - repeat split.
    + intros brokers config [H|H]; try discriminate.
      rewrite app_nil_r in H. apply in_map_iff in H. now destruct H as (x & H & _).
    + intros host station [H|H]; try discriminate.
      rewrite app_nil_r in H. apply in_map_iff in H. now destruct H as (x & H & _).
Qed.

Lemma main_panics_on_unsafe_graph_witness :
  outcome (main false (example_main_world unsafe_graph) example_run)
  = Panic (PanicError "unsafe OPs").
Proof.
  refine (proj1 (main_panics_on_unsafe_graph false (example_main_world unsafe_graph)
                   example_run [] unsafe_graph eq_refl eq_refl eq_refl eq_refl _ _)).
  - intros l. simpl. symmetry. apply Permutation_rev.
  - exists {| op_Name := "print"; op_Type := "PrintV2" |}. simpl. tauto.
Defined.

(** The whole program on the example machine: it sets up, discovers two
    stations and runs two passes; both stations end with the score 0.83. *)
Example main_example_run :
  outcome (main false (example_main_world example_graph) example_run)
  = Return {| stationGoodness := [(station_91_5, S754_finite false 13925091 (-24));
                                  (station_101_1, S754_finite false 13925091 (-24))];
              lastStationsRefresh := 1500000000000001000 |}.
Proof. vm_compute. reflexivity. Qed.

(** ** When the loader accepts a graph *)

Lemma scan_ops_flag_false (graph : Graph) :
  snd (scan_ops graph) = false <-> forall op, In op graph -> opIsSafe (op_Type op) = true.
Proof.
  pose proof (proj2 (scan_ops_spec graph)) as H. split.
  - intros Hf op Hin. destruct (opIsSafe (op_Type op)) eqn:E; [reflexivity|].
    rewrite (proj2 H) in Hf; [discriminate | eauto].
  - intros Hall. destruct (snd (scan_ops graph)); [|reflexivity].
    destruct (proj1 H eq_refl) as (op & Hin & Hu). rewrite (Hall op Hin) in Hu. discriminate.
Qed.

(** X5: with the model file read and its graph imported, [newModel] returns a
    model and no error exactly when every operation of the graph is on the
    whitelist, the graph has the ports [output] and [input/Placeholder] and the
    session opens; it has then printed nothing, and the model holds that session
    and output 0 of each port. *)
Theorem newModel_accepts_iff (w : loader_world) (path : string) (def : list Byte.byte)
    (graph : Graph) (t : list event) (m : model) :
  ReadFile w path = inr def ->
  Import w def = inr graph ->
  (newModel w path = (t, Return (m, None))
   <-> t = []
       /\ (forall op, In op graph -> opIsSafe (op_Type op) = true)
       /\ exists outputOP inputPHOP sess,
           graph_Operation graph "output" = Some outputOP
           /\ graph_Operation graph "input/Placeholder" = Some inputPHOP
           /\ NewSession w graph = inr sess
           /\ In outputOP graph /\ op_Name outputOP = "output"%string
           /\ In inputPHOP graph /\ op_Name inputPHOP = "input/Placeholder"%string
           /\ m = loaded_model outputOP inputPHOP sess).
Proof.
  intros Hread Himport. unfold newModel. rewrite Hread, Himport.
  pose proof (scan_ops_flag_false graph) as Hflag.
  destruct (scan_ops graph) as [u b]. simpl in Hflag. destruct b.
  - split.
    + simpl. rewrite emit_all_eq. simpl. discriminate.
    + intros (_ & Hall & _). apply Hflag in Hall. discriminate.
  - pose proof (proj1 Hflag eq_refl) as Hall.
    destruct (graph_Operation graph "output") as [outputOP|] eqn:Hout.
    + destruct (graph_Operation graph "input/Placeholder") as [inputPHOP|] eqn:Hin.
      * destruct (NewSession w graph) as [err|sess] eqn:Hsess.
        -- split; [discriminate|]. intros (_ & _ & o & i & s & _ & _ & [=] & _).
        -- apply find_some in Hout as Hout', Hin as Hin'.
           destruct Hout' as [Ho1 Ho2], Hin' as [Hi1 Hi2].
           apply String.eqb_eq in Ho2, Hi2.
           split.
           ++ intros [= <- <-]. split; [reflexivity|]. split; [exact Hall|].
              exists outputOP, inputPHOP, sess. repeat split; assumption.
           ++ intros (-> & _ & o & i & s & [= <-] & [= <-] & [= <-] & _ & _ & _ & _ & ->).
              reflexivity.
      * split; [discriminate|]. intros (_ & _ & o & i & s & _ & [=] & _).
    + split; [discriminate|]. intros (_ & _ & o & i & s & [=] & _).
Qed.

Lemma newModel_accepts_iff_witness :
  newModel (example_loader example_graph) "model.pb"
  = ([], Return (loaded_model {| op_Name := "output"; op_Type := "Softmax" |}
                              {| op_Name := "input/Placeholder"; op_Type := "Placeholder" |}
                              {| session_graph := example_graph |}, None)).
Proof.
  apply (proj2 (newModel_accepts_iff (example_loader example_graph) "model.pb" []
                  example_graph [] _ eq_refl eq_refl)).
  split; [reflexivity|]. split.
  - intros op [<-|[<-|[<-|[]]]]; reflexivity.
  - exists {| op_Name := "output"; op_Type := "Softmax" |},
           {| op_Name := "input/Placeholder"; op_Type := "Placeholder" |},
           {| session_graph := example_graph |}.
    simpl. tauto.
Defined.

(** X6: [newModel] panics in two cases only, both before it prints anything: the
    model file cannot be read, or it is read and cannot be imported; the panic
    carries that error.  An unsafe graph, a missing port and a session that does
    not open are returned as errors. *)
Theorem newModel_panics_iff (w : loader_world) (path : string) (t : list event)
    (p : panic_value) :
  newModel w path = (t, Panic p)
  <-> t = []
      /\ ((exists err, ReadFile w path = inl err /\ p = PanicError err)
          \/ (exists def err, ReadFile w path = inr def /\ Import w def = inl err
                              /\ p = PanicError err)).
Proof.
  unfold newModel.
  destruct (ReadFile w path) as [err|def] eqn:Hread.
  - split.
    + intros [= <- <-]. split; [reflexivity|]. left. eauto.
    + intros (-> & [(e & [= <-] & ->)|(d & e & [=] & _)]). reflexivity.
  - destruct (Import w def) as [err|graph] eqn:Himport.
    + split.
      * intros [= <- <-]. split; [reflexivity|]. right. eauto.
      * intros (-> & [(e & [=] & _)|(d & e & [= <-] & Hi & ->)]).
        rewrite Himport in Hi. now injection Hi as <-.
    + split.
      * destruct (scan_ops graph) as [u [|]]; simpl.
        -- rewrite emit_all_eq. simpl. discriminate.
        -- destruct (graph_Operation graph "output"); [|discriminate].
           destruct (graph_Operation graph "input/Placeholder"); [|discriminate].
           destruct (NewSession w graph); discriminate.
      * intros (_ & [(e & [=] & _)|(d & e & [= <-] & Hi & _)]).
        rewrite Himport in Hi. discriminate.
Qed.

(** ** The environment *)

Lemma getEnv_first_spec (Getenv : string -> string) (keys : list string) :
  match getEnv_first Getenv keys with
  | Some v =>
      exists before key after,
        keys = before ++ key :: after
        /\ (forall k, In k before -> Getenv k = ""%string)
        /\ Getenv key = v /\ v <> ""%string
  | None => forall k, In k keys -> Getenv k = ""%string
  end.
Proof.
  induction keys as [|key keys IH]; simpl.
  - intros k [].
  - destruct (Getenv key) as [|a s] eqn:Hkey; simpl.
    + destruct (getEnv_first Getenv keys) as [v|].
      * destruct IH as (before & key' & after & -> & Hbefore & Hv & Hne).
        exists (key :: before), key', after. repeat split; auto.
        intros k [<-|Hin]; auto.
      * intros k [<-|Hin]; auto.
    + exists [], key, keys. repeat split; auto; try discriminate. intros k [].
Qed.

(** X7: [getEnv] returns the value of the first key of its list whose variable
    holds a non-empty string, and prints nothing; it panics exactly when every
    key of the list is unset or empty, the empty list included. *)
Theorem getEnv_returns_first_set (Getenv : string -> string) (keys : list string) :
  (forall t v,
      getEnv Getenv keys = (t, Return v)
      <-> t = []
          /\ exists before key after,
              keys = before ++ key :: after
              /\ (forall k, In k before -> Getenv k = ""%string)
              /\ Getenv key = v /\ v <> ""%string)
  /\ ((exists t p, getEnv Getenv keys = (t, Panic p))
      <-> forall k, In k keys -> Getenv k = ""%string).
Proof.
  pose proof (getEnv_first_spec Getenv keys) as Hspec.
  unfold getEnv. destruct keys as [|key0 keys0].
  - split.
    + intros t v. split; [discriminate|].
      intros (_ & before & key & after & H & _). now destruct before.
    + split; [intros _ k [] | intros _; eauto].
  - set (keys := key0 :: keys0) in *.
    destruct (getEnv_first Getenv keys) as [v0|] eqn:Hfirst.
    + split.
      * intros t v. split.
        -- intros [= <- <-]. split; [reflexivity | exact Hspec].
        -- intros (-> & before & key & after & Hkeys & Hbefore & Hv & Hne).
           destruct Hspec as (before' & key' & after' & Hkeys' & Hbefore' & Hv' & Hne').
           f_equal. f_equal. subst v v0.
           revert before' Hkeys' Hbefore'. rewrite Hkeys. clear Hkeys.
           induction before as [|b before IHb]; intros before' Hkeys' Hbefore'.
           ++ destruct before' as [|b' before']; simpl in Hkeys'.
              ** now injection Hkeys' as ->.
              ** injection Hkeys' as -> _. exfalso. apply Hne. apply Hbefore'. now left.
           ++ destruct before' as [|b' before']; simpl in Hkeys'.
              ** injection Hkeys' as -> _. exfalso. apply Hne'. apply Hbefore. now left.
              ** injection Hkeys' as -> Hk.
                 apply (IHb ltac:(intros; apply Hbefore; now right) before' Hk).
                 intros k Hk'. apply Hbefore'. now right.
      * split.
        -- intros (t & p & [=]).
        -- intros Hall. destruct Hspec as (before & key & after & Hkeys & _ & Hv & Hne).
           exfalso. apply Hne. rewrite <- Hv. apply Hall. rewrite Hkeys.
           apply in_or_app. right. now left.
    + split.
      * intros t v. split; [simpl; discriminate|].
        intros (_ & before & key & after & Hkeys & _ & Hv & Hne).
        exfalso. apply Hne. rewrite <- Hv. apply Hspec. rewrite Hkeys.
        apply in_or_app. right. now left.
      * split; [intros _; exact Hspec | intros _; simpl; eauto].
Qed.

(** ** The connection, in full *)

Lemma Split_aux_nonempty (sep : ascii) (s cur : string) : Split_aux sep s cur <> [].
Proof.
  revert cur. induction s as [|c s IH]; intros cur; simpl; [discriminate|].
  destruct (Ascii.eqb c sep); [discriminate | apply IH].
Qed.

Lemma Join_cons (p : string) (rest : list string) (sep : string) :
  rest <> [] -> Join (p :: rest) sep = p +:+ sep +:+ Join rest sep.
Proof. destruct rest; [contradiction | reflexivity]. Qed.

Lemma append_cons (a : ascii) (s1 s2 : string) :
  String a s1 +:+ s2 = String a (s1 +:+ s2).
Proof. reflexivity. Qed.

Lemma append_empty_r (s : string) : s +:+ "" = s.
Proof. induction s as [|a s IH]; [reflexivity|]. now rewrite append_cons, IH. Qed.

Lemma append_assoc' (s1 s2 s3 : string) : (s1 +:+ s2) +:+ s3 = s1 +:+ (s2 +:+ s3).
Proof. induction s1 as [|a s1 IH]; [reflexivity|]. now rewrite !append_cons, IH. Qed.

(** Joining the parts with the separator gives the string back. *)
Lemma Join_Split_aux (sep : ascii) (s cur : string) :
  Join (Split_aux sep s cur) (String sep "") = cur +:+ s.
Proof.
  revert cur. induction s as [|c s IH]; intros cur; simpl Split_aux.
  - simpl. now rewrite append_empty_r.
  - destruct (Ascii.eqb c sep) eqn:E.
    + apply Ascii.eqb_eq in E. subst c.
      rewrite Join_cons by apply Split_aux_nonempty. rewrite IH. reflexivity.
    + rewrite IH, append_assoc'. reflexivity.
Qed.

Lemma free_of_append (c : ascii) (s1 s2 : string) :
  free_of c (s1 +:+ s2) = free_of c s1 && free_of c s2.
Proof.
  induction s1 as [|a s1 IH]; [reflexivity|].
  rewrite append_cons. simpl. rewrite IH. now rewrite andb_assoc.
Qed.

Lemma Split_aux_free (sep : ascii) (s cur : string) :
  free_of sep cur = true ->
  Forall (fun p => free_of sep p = true) (Split_aux sep s cur).
Proof.
  revert cur. induction s as [|c s IH]; intros cur Hcur; simpl.
  - now constructor.
  - destruct (Ascii.eqb c sep) eqn:E.
    + constructor; [exact Hcur | now apply IH].
    + apply IH. rewrite free_of_append, Hcur. simpl. now rewrite E.
Qed.

Lemma connect_short_key (Getenv : string -> string)
    (NewSyncProducer : list string -> Config -> option error) (topic : string) :
  (0 < String.length (Getenv "MSGHUB_API_KEY"%string) < 16)%nat ->
  connect Getenv NewSyncProducer topic
  = ([Println [PStr "msghub key:"; PStr (Getenv "MSGHUB_API_KEY"%string)]],
     Panic (PanicSliceBounds 16 (String.length (Getenv "MSGHUB_API_KEY"%string)))).
Proof.
  intros [Hpos Hshort]. set (apiKey := Getenv "MSGHUB_API_KEY"%string) in *.
  assert (nonempty apiKey = true) as Hne by (apply nonempty_length; lia).
  assert ((16 <=? String.length apiKey)%nat = false) as Hleb by (apply Nat.leb_gt; lia).
  unfold connect. rewrite getEnv_single. fold apiKey. rewrite Hne.
  cbn -[slice_to slice_from getEnv Split].
  unfold slice_to. fold apiKey. now rewrite Hleb.
Qed.

Lemma connect_no_broker (Getenv : string -> string)
    (NewSyncProducer : list string -> Config -> option error) (topic : string) :
  (16 <= String.length (Getenv "MSGHUB_API_KEY"%string))%nat ->
  nonempty (Getenv "MSGHUB_BROKER_URL"%string) = false ->
  connect Getenv NewSyncProducer topic
  = ([Println [PStr "msghub key:"; PStr (Getenv "MSGHUB_API_KEY"%string)];
      Println [PStr "none of"; PStrs ["MSGHUB_BROKER_URL"%string]; PStr "are set"]],
     Panic (PanicString "can't any find set value")).
Proof.
  intros Hlen Hurl. set (apiKey := Getenv "MSGHUB_API_KEY"%string) in *.
  assert (nonempty apiKey = true) as Hne by (apply nonempty_length; lia).
  assert ((16 <=? String.length apiKey)%nat = true) as Hleb by (apply Nat.leb_le; lia).
  unfold connect. rewrite getEnv_single. fold apiKey. rewrite Hne.
  cbn -[slice_to slice_from getEnv Split].
  unfold slice_to, slice_from. fold apiKey. rewrite Hleb.
  rewrite getEnv_single, Hurl. reflexivity.
Qed.

Lemma connect_no_key (Getenv : string -> string)
    (NewSyncProducer : list string -> Config -> option error) (topic : string) :
  nonempty (Getenv "MSGHUB_API_KEY"%string) = false ->
  connect Getenv NewSyncProducer topic
  = ([Println [PStr "none of"; PStrs ["MSGHUB_API_KEY"%string]; PStr "are set"]],
     Panic (PanicString "can't any find set value")).
Proof. intros Hne. unfold connect. rewrite getEnv_single, Hne. reflexivity. Qed.

(** X8: [connect] returns exactly when the API key has at least 16 bytes and
    the broker list is set.  It has then printed the key and the broker string,
    called the producer's constructor once, with the broker string split at its
    commas and the configuration made from the key, and it returns the
    constructor's error with a connection that holds the producer only when
    there was no error. *)
Theorem connect_returns_iff (Getenv : string -> string)
    (NewSyncProducer : list string -> Config -> option error) (topic : string)
    (t : list event) (conn : msghubConn) (err : option error) :
  let apiKey := Getenv "MSGHUB_API_KEY"%string in
  let brokerStr := Getenv "MSGHUB_BROKER_URL"%string in
  let brokers := Split brokerStr ","%char in
  let config := producer_config_for apiKey in
  connect Getenv NewSyncProducer topic = (t, Return (conn, err))
  <-> (16 <= String.length apiKey)%nat
      /\ brokerStr <> ""%string
      /\ t = [Println [PStr "msghub key:"; PStr apiKey];
              Println [PStr "url:"; PStr brokerStr];
              Println [PStr "now connecting to msghub"];
              CallNewSyncProducer brokers config;
              Println [PStr "done trying to connect"]]
      /\ err = NewSyncProducer brokers config
      /\ conn = connection_for brokers config topic err.
Proof.
  intros apiKey brokerStr brokers config.
  destruct (nonempty apiKey) eqn:Hne.
  - apply nonempty_length in Hne.
    destruct (Nat.le_gt_cases 16 (String.length apiKey)) as [Hlen|Hshort].
    + destruct (nonempty brokerStr) eqn:Hurl.
      * pose proof (connect_long_key Getenv NewSyncProducer topic Hlen Hurl) as Heq.
        cbv zeta in Heq. fold apiKey brokerStr brokers in Heq.
        change {| ClientID := apiKey; RequiredAcks_WaitForAll := true; Retry_Max := 5;
                  Return_Successes := true; TLS_Enable := true;
                  SASL_User := String.substring 0 16 apiKey;
                  SASL_Password := String.substring 16 (String.length apiKey - 16) apiKey;
                  SASL_Enable := true |} with config in Heq.
        rewrite Heq. unfold connection_for.
        assert (brokerStr <> ""%string) as Hne' by (intros E; rewrite E in Hurl; discriminate).
        split.
        -- intros [= <- H]. repeat split; auto.
           ++ destruct (NewSyncProducer brokers config); now injection H as _ <-.
           ++ destruct (NewSyncProducer brokers config); now injection H as <- <-.
        -- intros (_ & _ & -> & -> & ->).
           now destruct (NewSyncProducer brokers config).
      * rewrite (connect_no_broker Getenv NewSyncProducer topic Hlen Hurl).
        split; [discriminate|]. intros (_ & Hb & _).
        destruct brokerStr; [now elim Hb | discriminate].
    + rewrite (connect_short_key Getenv NewSyncProducer topic (conj Hne Hshort)).
      split; [discriminate|]. intros (Hlen & _). lia.
  - rewrite (connect_no_key Getenv NewSyncProducer topic Hne).
    split; [discriminate|]. intros (Hlen & _).
    destruct apiKey; [simpl in Hlen; lia | discriminate].
Qed.

(** X9: whenever the API key is set, the first thing [connect] prints is the key
    itself, in clear.  When [connect] returns, the broker list it handed to the
    constructor is not empty, no entry of it holds a comma, joined with commas
    it is the value of [MSGHUB_BROKER_URL], and the configuration has the key as
    its client id, waits for all acknowledgements, retries 5 times and has TLS
    and SASL on. *)
Theorem connect_announces_key_and_brokers (Getenv : string -> string)
    (NewSyncProducer : list string -> Config -> option error) (topic : string) :
  let apiKey := Getenv "MSGHUB_API_KEY"%string in
  let brokerStr := Getenv "MSGHUB_BROKER_URL"%string in
  (apiKey <> ""%string ->
   hd_error (trace (connect Getenv NewSyncProducer topic))
   = Some (Println [PStr "msghub key:"; PStr apiKey]))
  /\ (forall t r,
         connect Getenv NewSyncProducer topic = (t, Return r) ->
         exists brokers config,
           In (CallNewSyncProducer brokers config) t
           /\ brokers <> []
           /\ Join brokers "," = brokerStr
           /\ Forall (fun b => free_of ","%char b = true) brokers
           /\ ClientID config = apiKey
           /\ RequiredAcks_WaitForAll config = true /\ Retry_Max config = 5
           /\ TLS_Enable config = true /\ SASL_Enable config = true).
Proof.
  intros apiKey brokerStr. split.
  - intros Hne.
    assert (nonempty apiKey = true) as Hne' by (destruct apiKey; [now elim Hne | reflexivity]).
    apply nonempty_length in Hne'.
    destruct (Nat.le_gt_cases 16 (String.length apiKey)) as [Hlen|Hshort].
    + destruct (nonempty brokerStr) eqn:Hurl.
      * pose proof (connect_long_key Getenv NewSyncProducer topic Hlen Hurl) as Heq.
        cbv zeta in Heq. now rewrite Heq.
      * now rewrite (connect_no_broker Getenv NewSyncProducer topic Hlen Hurl).
    + now rewrite (connect_short_key Getenv NewSyncProducer topic (conj Hne' Hshort)).
  - intros t [conn err] Heq.
    apply connect_returns_iff in Heq. cbv zeta in Heq.
    destruct Heq as (_ & _ & -> & _ & _).
    exists (Split brokerStr ","%char), (producer_config_for apiKey).
    split; [simpl; tauto|]. split; [apply Split_aux_nonempty|].
    split; [apply (Join_Split_aux ","%char brokerStr "")|].
    split; [now apply Split_aux_free|]. repeat split.
Qed.

(** ** What [main] needs before its loop *)

Lemma nonempty_true (s : string) : nonempty s = true <-> s <> ""%string.
Proof. destruct s; simpl; split; intros; try discriminate; try reflexivity; now auto. Qed.

Lemma newModel_ok_silent (w : loader_world) (path : string) (t : list event) (m : model) :
  newModel w path = (t, Return (m, None)) -> t = [].
Proof.
  intros H.
  destruct (ReadFile w path) as [err|def] eqn:Hread;
    [unfold newModel in H; rewrite Hread in H; discriminate|].
  destruct (Import w def) as [err|graph] eqn:Himport;
    [unfold newModel in H; rewrite Hread, Himport in H; discriminate|].
  now apply (newModel_accepts_iff w path def graph t m Hread Himport) in H.
Qed.

Lemma main_setup_ready (w : main_world) (c : loop_context) :
  setup_ready w c -> main_setup w = (setup_trace (Getenv w), Return c).
Proof.
  intros (Horg & Hdev & Htopic & Hlen & Hurl & Hprod & m & Hload & ->).
  apply nonempty_true in Horg, Hdev, Htopic, Hurl.
  pose proof (connect_long_key (Getenv w) (NewSyncProducer w)
                (Getenv w "MSGHUB_TOPIC"%string) Hlen Hurl) as Hconn.
  cbv zeta in Hconn.
  change {| ClientID := Getenv w "MSGHUB_API_KEY";
            RequiredAcks_WaitForAll := true; Retry_Max := 5;
            Return_Successes := true; TLS_Enable := true;
            SASL_User := String.substring 0 16 (Getenv w "MSGHUB_API_KEY");
            SASL_Password := String.substring 16
                               (String.length (Getenv w "MSGHUB_API_KEY") - 16)
                               (Getenv w "MSGHUB_API_KEY");
            SASL_Enable := true |}
    with (producer_config_for (Getenv w "MSGHUB_API_KEY")) in Hconn.
  rewrite Hprod in Hconn.
  unfold main_setup, setup_trace, radio_host.
  rewrite !getEnv_single, Horg, Hdev, Htopic, Hload.
  destruct (nonempty (Getenv w "RTLSDR_ADDR"));
    cbn -[connect Split String.append producer_config_for];
    rewrite Hconn; reflexivity.
Qed.

(** X10: [main] reaches its loop exactly when [HZN_ORG_ID], [HZN_DEVICE_ID],
    [MSGHUB_TOPIC] and [MSGHUB_BROKER_URL] are set, the API key has at least 16
    bytes, the loader returns a model without an error and the producer's
    constructor succeeds.  The loop then runs with the radio at [RTLSDR_ADDR]
    (at [sdr] when that is unset), the device id [org/device], that model and
    that connection, and [setup_trace] is what was printed and called on the
    way. *)
Theorem main_setup_returns_iff (w : main_world) (t : list event) (c : loop_context) :
  main_setup w = (t, Return c) <-> setup_ready w c /\ t = setup_trace (Getenv w).
Proof.
  split; [|intros [H ->]; now apply main_setup_ready].
  intros Hrun.
  assert (setup_ready w c) as Hready.
  { revert Hrun. unfold main_setup. rewrite !getEnv_single.
    destruct (nonempty (Getenv w "HZN_ORG_ID")) eqn:Horg;
      [|destruct (nonempty (Getenv w "RTLSDR_ADDR")); discriminate].
    destruct (nonempty (Getenv w "HZN_DEVICE_ID")) eqn:Hdev;
      [|destruct (nonempty (Getenv w "RTLSDR_ADDR")); discriminate].
    destruct (newModel (loader w) "model.pb") as [tm [[m [e|]]|p]] eqn:Hload;
      [destruct (nonempty (Getenv w "RTLSDR_ADDR")); discriminate| |
       destruct (nonempty (Getenv w "RTLSDR_ADDR")); discriminate].
    destruct (nonempty (Getenv w "MSGHUB_TOPIC")) eqn:Htopic;
      [|destruct (nonempty (Getenv w "RTLSDR_ADDR")); discriminate].
    destruct (connect (Getenv w) (NewSyncProducer w) (Getenv w "MSGHUB_TOPIC"))
      as [tc [[cn [e|]]|p]] eqn:Hconn.
    - destruct (nonempty (Getenv w "RTLSDR_ADDR"));
        cbn -[connect Split String.append]; rewrite Hconn; discriminate.
    - pose proof Hconn as Hconn'.
      apply connect_returns_iff in Hconn'. cbv zeta in Hconn'.
      destruct Hconn' as (Hlen & Hurl & _ & Hprod & Hcn).
      pose proof (newModel_ok_silent _ _ _ _ Hload) as ->.
      apply nonempty_true in Horg, Hdev, Htopic.
      intros Hrun. unfold setup_ready. cbv zeta.
      split; [exact Horg|]. split; [exact Hdev|]. split; [exact Htopic|].
      split; [exact Hlen|]. split; [exact Hurl|]. split; [now symmetry|].
      exists m. split; [exact Hload|]. rewrite <- Hcn.
      unfold radio_host.
      destruct (nonempty (Getenv w "RTLSDR_ADDR"));
        cbn -[connect Split String.append] in Hrun;
        rewrite Hconn in Hrun; cbn -[Split String.append] in Hrun;
        now injection Hrun as _ <-.
    - destruct (nonempty (Getenv w "RTLSDR_ADDR"));
        cbn -[connect Split String.append]; rewrite Hconn; discriminate. }
  split; [exact Hready|].
  rewrite (main_setup_ready w c Hready) in Hrun. now injection Hrun as <-.
Qed.

(** ** What the loop calls and sends *)

Lemma trace_bind {A B} (c : M A) (f : A -> M B) :
  trace (bind c f)
  = match outcome c with
    | Return a => trace c ++ trace (f a)
    | Panic _ => trace c
    end.
Proof. destruct c as [t [a|p]]; simpl; [|reflexivity]. now destruct (f a). Qed.

Lemma outcome_bind {A B} (c : M A) (f : A -> M B) :
  outcome (bind c f)
  = match outcome c with
    | Return a => outcome (f a)
    | Panic p => Panic p
    end.
Proof. destruct c as [t [a|p]]; simpl; [|reflexivity]. now destruct (f a). Qed.

(** A property of traces that holds of the empty trace and of concatenations
    holds of a sequence of computations that have it. *)
Lemma trace_bind_closed {A B} (P : list event -> Prop) (c : M A) (f : A -> M B) :
  (forall a b, P a -> P b -> P (a ++ b)) ->
  P (trace c) -> (forall a, P (trace (f a))) -> P (trace (bind c f)).
Proof.
  intros Happ Hc Hf. rewrite trace_bind. destruct (outcome c); auto.
Qed.

Lemma track_stations_prints (stations : list float32) (m : station_map) :
  Forall (fun e => exists args, e = Println args) (trace (track_stations m stations)).
Proof.
  revert m. induction stations as [|st rest IH]; intros m; simpl.
  - constructor.
  - rewrite ensureTracked_eq. destruct (lookup m st); unfold bind.
    + specialize (IH m). destruct (track_stations m rest) as [t r]. exact IH.
    + specialize (IH (assign m st c0_5)).
      destruct (track_stations (assign m st c0_5) rest) as [t r]. simpl.
      constructor; [eauto | exact IH].
Qed.

Lemma refresh_stations_events (c : loop_context) (s : loop_state) (w : iteration_world) :
  Forall (event_ok c) (trace (refresh_stations c s w)).
Proof.
  unfold refresh_stations.
  destruct (refresh_due (Now_check w) (lastStationsRefresh s)); [|constructor].
  destruct (GetCeilingSignals w) as [err|stations]; simpl.
  - repeat constructor.
  - pose proof (track_stations_prints stations (stationGoodness s)) as Hp.
    destruct (track_stations (stationGoodness s) stations) as [t [m|p]]; simpl in *.
    + assert (Forall (event_ok c) t) as Ht.
      { eapply List.Forall_impl; [|exact Hp]. now intros e [args ->]. }
      destruct (length m <? 1)%nat; simpl.
      * constructor; [now split|]. now rewrite app_nil_r.
      * constructor; [now split|]. apply Forall_app. split; [exact Ht|].
        repeat constructor.
    + constructor; [now split|]. eapply List.Forall_impl; [|exact Hp]. now intros e [args ->].
Qed.

Lemma sample_station_events (fused : bool) (c : loop_context) (m : station_map)
    (station g : float32) (w : station_world) :
  Forall (event_ok c) (trace (sample_station fused c m station g w)).
Proof.
  destruct (ltb (rand_Float32 w) g) eqn:Hdraw;
    [|rewrite sample_station_skipped by exact Hdraw; constructor].
  destruct (GetAudio w) as [err|audio] eqn:Haudio.
  - unfold sample_station. rewrite Hdraw, Haudio. simpl. repeat constructor.
  - destruct (scored w) as [err|val] eqn:Hval.
    + unfold sample_station, goodness. rewrite Hdraw, Haudio, Hval. simpl.
      repeat constructor.
    + rewrite (sample_station_sampled fused c m station g w audio val Hdraw Haudio Hval).
      simpl. constructor; [reflexivity|]. constructor; [exact I|].
      constructor; [exact I|].
      destruct (gtb val c0_5) eqn:Hgt; [|constructor].
      unfold publish_events. constructor; [simpl; auto|].
      destruct (sent w) as [e|[p o]]; repeat constructor.
Qed.

Lemma sampling_pass_events (fused : bool) (c : loop_context)
    (order : list (float32 * float32)) (ws : nat -> station_world) :
  forall (m : station_map) (n : nat),
    Forall (event_ok c) (trace (sampling_pass fused c m order ws n)).
Proof.
  induction order as [|[station g] rest IH]; intros m n; simpl; [constructor|].
  apply (trace_bind_closed (Forall (event_ok c))).
  - intros a b Ha Hb. apply Forall_app. now split.
  - apply sample_station_events.
  - intros m'. apply IH.
Qed.

Lemma main_loop_events (fused : bool) (c : loop_context) (ws : list iteration_world) :
  forall s, Forall (event_ok c) (trace (main_loop fused c s ws)).
Proof.
  assert (Happ : forall a b, Forall (event_ok c) a -> Forall (event_ok c) b ->
                             Forall (event_ok c) (a ++ b))
    by (intros a b Ha Hb; apply Forall_app; now split).
  induction ws as [|w ws IH]; intros s; simpl; [constructor|].
  apply (trace_bind_closed _ _ _ Happ); [|intros s'; apply IH].
  unfold main_iteration.
  apply (trace_bind_closed _ _ _ Happ); [apply refresh_stations_events|].
  intros s1. apply (trace_bind_closed _ _ _ Happ); [apply sampling_pass_events|].
  intros m'. constructor.
Qed.

(** X11: whatever the outside answers, every discovery of the loop asks the
    configured radio with the threshold -8, every capture asks that radio, every
    message goes to the configured topic with the device id of the setup and a
    value above 0.5, and the loop never opens a connection. *)
Theorem loop_calls_are_consistent (fused : bool) (c : loop_context) (s : loop_state)
    (ws : list iteration_world) :
  let T := trace (main_loop fused c s ws) in
  (forall host threshold,
      In (CallGetCeilingSignals host threshold) T -> host = hostname c /\ threshold = -8)
  /\ (forall host station, In (CallGetAudio host station) T -> host = hostname c)
  /\ (forall topic msg,
         In (CallSendMessage topic msg) T ->
         topic = Topic (conn c) /\ DevID msg = devID c
         /\ gtb (ExpectedValue msg) c0_5 = true)
  /\ (forall brokers config, ~ In (CallNewSyncProducer brokers config) T).
Proof.
  intros T. pose proof (main_loop_events fused c ws s) as H.
  rewrite List.Forall_forall in H. fold T in H.
  split; [|split; [|split]].
  - intros host threshold Hin. exact (H _ Hin).
  - intros host station Hin. exact (H _ Hin).
  - intros topic msg Hin. exact (H _ Hin).
  - intros brokers config Hin. exact (H _ Hin).
Qed.

Lemma sends_follow_scoring_nil : sends_follow_scoring [].
Proof. intros t1 topic msg t2 H. now destruct t1. Qed.

Lemma sends_follow_scoring_app (a b : list event) :
  sends_follow_scoring a -> sends_follow_scoring b -> sends_follow_scoring (a ++ b).
Proof.
  intros Ha Hb t1 topic msg t2 Heq.
  apply app_eq_app in Heq. destruct Heq as [l [[-> Hb']|[-> Ha']]].
  - destruct l as [|e l].
    + simpl in Hb'.
      destruct (Hb [] topic msg t2 (eq_sym Hb')) as [[host []] _].
    + simpl in Hb'. injection Hb' as <- ->.
      destruct (Ha t1 topic msg l eq_refl) as [[host Hh] Hg]. eauto.
  - destruct (Hb l topic msg t2 Ha') as [[host Hh] Hg].
    split; [exists host|]; apply in_or_app; now right.
Qed.

Lemma sends_follow_scoring_prints (T : list event) :
  Forall (fun e => is_SendMessage e = false) T -> sends_follow_scoring T.
Proof.
  intros H t1 topic msg t2 ->. apply Forall_app in H as [_ H].
  inversion H as [|e l He _]. discriminate He.
Qed.

Lemma sample_station_sends (fused : bool) (c : loop_context) (m : station_map)
    (station g : float32) (w : station_world) :
  sends_follow_scoring (trace (sample_station fused c m station g w)).
Proof.
  destruct (ltb (rand_Float32 w) g) eqn:Hdraw;
    [|rewrite sample_station_skipped by exact Hdraw; apply sends_follow_scoring_nil].
  destruct (GetAudio w) as [err|audio] eqn:Haudio.
  - unfold sample_station. rewrite Hdraw, Haudio. simpl.
    apply sends_follow_scoring_prints. repeat constructor.
  - destruct (scored w) as [err|val] eqn:Hval.
    + unfold sample_station, goodness. rewrite Hdraw, Haudio, Hval. simpl.
      apply sends_follow_scoring_prints. repeat constructor.
    + rewrite (sample_station_sampled fused c m station g w audio val Hdraw Haudio Hval).
      simpl. destruct (gtb val c0_5); [|apply sends_follow_scoring_prints; repeat constructor].
      intros t1 topic msg t2 Heq. unfold publish_events in Heq.
      destruct t1 as [|e1 [|e2 [|e3 [|e4 t1]]]]; try discriminate Heq.
      * injection Heq as <- <- <- _ <- _. simpl. split; [exists (hostname c)|]; tauto.
      * exfalso. injection Heq as _ _ _ _ Heq.
        destruct (sent w) as [e|[p o]].
        -- destruct t1 as [|e5 [|e6 t1]]; try discriminate Heq.
           destruct t1; discriminate Heq.
        -- destruct t1 as [|e5 t1]; try discriminate Heq. destruct t1; discriminate Heq.
Qed.

Lemma refresh_stations_no_send (c : loop_context) (s : loop_state) (w : iteration_world) :
  Forall (fun e => is_SendMessage e = false) (trace (refresh_stations c s w)).
Proof.
  unfold refresh_stations.
  destruct (refresh_due (Now_check w) (lastStationsRefresh s)); [|constructor].
  destruct (GetCeilingSignals w) as [err|stations]; simpl.
  - repeat constructor.
  - pose proof (track_stations_prints stations (stationGoodness s)) as Hp.
    assert (Forall (fun e => is_SendMessage e = false)
                   (trace (track_stations (stationGoodness s) stations))) as Ht.
    { eapply List.Forall_impl; [|exact Hp]. now intros e [args ->]. }
    destruct (track_stations (stationGoodness s) stations) as [t [m|p]]; simpl in *.
    + destruct (length m <? 1)%nat; simpl.
      * constructor; [reflexivity|]. now rewrite app_nil_r.
      * constructor; [reflexivity|]. apply Forall_app. split; [exact Ht|].
        repeat constructor.
    + constructor; [reflexivity | exact Ht].
Qed.

(** X12: a message is sent only after its clip was captured and scored: before
    every [SendMessage] in the trace of the loop there is the capture from the
    frequency the message names and the scoring of the audio it carries. *)
Theorem published_clips_were_scored (fused : bool) (c : loop_context) (s : loop_state)
    (ws : list iteration_world) (t1 t2 : list event) (topic : string) (msg : AudioMsg) :
  trace (main_loop fused c s ws) = t1 ++ CallSendMessage topic msg :: t2 ->
  In (CallGetAudio (hostname c) (Freq msg)) t1
  /\ In (CallGoodness (Audio msg)) t1.
Proof.
  assert (forall ws s, sends_follow_scoring (trace (main_loop fused c s ws))) as H.
  { clear. induction ws as [|w ws IH]; intros s; simpl; [apply sends_follow_scoring_nil|].
    apply (trace_bind_closed _ _ _ sends_follow_scoring_app); [|intros s'; apply IH].
    unfold main_iteration.
    apply (trace_bind_closed _ _ _ sends_follow_scoring_app);
      [apply sends_follow_scoring_prints, refresh_stations_no_send|].
    intros s1. apply (trace_bind_closed _ _ _ sends_follow_scoring_app);
      [|intros m'; apply sends_follow_scoring_nil].
    generalize (stationGoodness s1) at 1. generalize 0%nat.
    induction (range_order w (stationGoodness s1)) as [|[station g] rest IHr];
      intros n m; simpl; [apply sends_follow_scoring_nil|].
    apply (trace_bind_closed _ _ _ sends_follow_scoring_app);
      [apply sample_station_sends | intros m'; apply IHr]. }
  intros Heq. destruct (H ws s t1 topic msg t2 Heq) as [[host Hhost] Hscored].
  split; [|exact Hscored].
  pose proof (main_loop_events fused c ws s) as Hev. rewrite Heq in Hev.
  apply Forall_app in Hev as [Hev _]. rewrite List.Forall_forall in Hev.
  now rewrite <- (Hev _ Hhost).
Qed.

Lemma published_clips_were_scored_witness :
  In (CallGetAudio "sdr" station_91_5)
     [CallGetAudio "sdr" station_91_5; CallGoodness []; example_visit_report]
  /\ In (CallGoodness [])
        [CallGetAudio "sdr" station_91_5; CallGoodness []; example_visit_report].
Proof.
  apply (published_clips_were_scored false example_context
           (settled_state [(station_91_5, c0_5)]) [quiet_iteration speech_world]
           [CallGetAudio "sdr" station_91_5; CallGoodness []; example_visit_report]
           [LogPrintf "> message sent to partition %d at offset %d\n" [PInt 0; PInt 42]]
           "sdr-audio"
           {| Audio := []; Ts := 1500000000000000000; Freq := station_91_5;
              ExpectedValue := c0_9; DevID := "myorg/mydevice" |}).
  vm_compute. reflexivity.
Defined.

Lemma count_app (p : event -> bool) (a b : list event) :
  count p (a ++ b) = (count p a + count p b)%nat.
Proof. unfold count. now rewrite List.filter_app, length_app. Qed.

Lemma counts_in_order_app (a b : list event) :
  counts_in_order a -> counts_in_order b -> counts_in_order (a ++ b).
Proof. unfold counts_in_order. rewrite !count_app. lia. Qed.

Lemma counts_in_order_quiet (T : list event) :
  Forall (fun e => is_SendMessage e = false) T ->
  Forall (fun e => is_Goodness e = false) T ->
  counts_in_order T.
Proof.
  intros Hs Hg. unfold counts_in_order, count.
  assert (forall p (l : list event),
             Forall (fun e => p e = false) l -> List.filter p l = []) as Hnone.
  { intros p l Hp. induction Hp as [|e l He Hl IH]; [reflexivity|].
    cbn [List.filter]. rewrite He. exact IH. }
  rewrite (Hnone _ _ Hs), (Hnone _ _ Hg). simpl. lia.
Qed.



(** ** How passes and runs compose *)

Lemma sampling_pass_app (fused : bool) (c : loop_context)
    (o1 o2 : list (float32 * float32)) (ws : nat -> station_world) :
  forall (m : station_map) (n : nat),
    sampling_pass fused c m (o1 ++ o2) ws n
    = bind (sampling_pass fused c m o1 ws n)
           (fun m1 => sampling_pass fused c m1 o2 ws (n + length o1)).
Proof.
  induction o1 as [|[station g] o1 IH]; intros m n; simpl.
  - rewrite Nat.add_0_r. now destruct (sampling_pass fused c m o2 ws n).
  - destruct (sample_station fused c m station g (ws n)) as [t [m'|p]]; simpl;
      [|reflexivity].
    rewrite IH. replace (n + S (length o1))%nat with (S n + length o1)%nat by lia.
    destruct (sampling_pass fused c m' o1 ws (S n)) as [t1 [m1|p1]]; simpl;
      [|reflexivity].
    destruct (sampling_pass fused c m1 o2 ws (S (n + length o1))) as [t2 r2].
    now rewrite app_assoc.
Qed.

Lemma main_loop_app (fused : bool) (c : loop_context) (ws1 ws2 : list iteration_world) :
  forall s, main_loop fused c s (ws1 ++ ws2)
            = bind (main_loop fused c s ws1) (fun s1 => main_loop fused c s1 ws2).
Proof.
  induction ws1 as [|w ws1 IH]; intros s; simpl.
  - now destruct (main_loop fused c s ws2).
  - destruct (main_iteration fused c s w) as [t [s'|p]]; simpl; [|reflexivity].
    rewrite IH.
    destruct (main_loop fused c s' ws1) as [t1 [s1|p1]]; simpl; [|reflexivity].
    destruct (main_loop fused c s1 ws2) as [t2 r2]. now rewrite app_assoc.
Qed.

(** A run that panics is over: what later iterations would have met does not
    matter. *)
Lemma panic_is_final (fused : bool) (c : loop_context) (s : loop_state)
    (ws1 ws2 : list iteration_world) (t : list event) (p : panic_value) :
  main_loop fused c s ws1 = (t, Panic p) ->
  main_loop fused c s (ws1 ++ ws2) = (t, Panic p).
Proof. intros H. now rewrite main_loop_app, H. Qed.

(** X14: a capture or a scoring that fails at a sampled station ends the pass
    with a panic that carries the error: the trace is that of the stations
    before it followed by the failing calls, and the stations after it are not
    visited. *)
Theorem failed_capture_or_scoring_stops_the_pass (fused : bool) (c : loop_context)
    (m m1 : station_map) (before after : list (float32 * float32))
    (station g : float32) (ws : nat -> station_world) (n : nat) (t1 : list event) :
  let w := ws (n + length before)%nat in
  sampling_pass fused c m before ws n = (t1, Return m1) ->
  ltb (rand_Float32 w) g = true ->
  (forall err,
      GetAudio w = inl err ->
      sampling_pass fused c m (before ++ (station, g) :: after) ws n
      = (t1 ++ [CallGetAudio (hostname c) station], Panic (PanicError err)))
  /\ (forall audio err,
         GetAudio w = inr audio -> scored w = inl err ->
         sampling_pass fused c m (before ++ (station, g) :: after) ws n
         = (t1 ++ [CallGetAudio (hostname c) station; CallGoodness audio],
            Panic (PanicError err))).
Proof.
  intros w Hbefore Hdraw. split.
  - intros err Haudio. rewrite sampling_pass_app, Hbefore. simpl.
    fold w. unfold sample_station. now rewrite Hdraw, Haudio.
  - intros audio err Haudio Hval. rewrite sampling_pass_app, Hbefore. simpl.
    fold w. unfold sample_station, goodness. now rewrite Hdraw, Haudio, Hval.
Qed.

Lemma failed_capture_or_scoring_stops_the_pass_witness :
  sampling_pass false example_context [(station_91_5, c0_5); (station_101_1, c0_5)]
    [(station_91_5, c0_5); (station_101_1, c0_5)] (fun _ => radio_down_world) 0
  = ([CallGetAudio "sdr" station_91_5], Panic (PanicError "radio down")).
Proof.
  apply (proj1 (failed_capture_or_scoring_stops_the_pass false example_context
                  [(station_91_5, c0_5); (station_101_1, c0_5)]
                  [(station_91_5, c0_5); (station_101_1, c0_5)]
                  [] [(station_101_1, c0_5)] station_91_5 c0_5
                  (fun _ => radio_down_world) 0 [] eq_refl eq_refl)
               "radio down"%string eq_refl).
Defined.

(** ** The station map through discoveries and passes *)

Lemma eqb_sym (x y : float32) : eqb x y = eqb y x.
Proof.
  apply eq_true_iff_eq. rewrite !eqb_true_iff.
  destruct x, y; simpl; intuition congruence.
Qed.

Lemma assign_absent (m : station_map) (k v : float32) :
  lookup m k = None -> assign m k v = m ++ [(k, v)].
Proof.
  induction m as [|[k1 v1] m IH]; simpl; [reflexivity|].
  destruct (eqb k1 k); [discriminate|]. intros H. now rewrite IH.
Qed.

Lemma lookup_app_none (m1 m2 : station_map) (k : float32) :
  lookup (m1 ++ m2) k = match lookup m1 k with Some v => Some v | None => lookup m2 k end.
Proof.
  induction m1 as [|[k1 v1] m1 IH]; simpl; [reflexivity|].
  now destruct (eqb k1 k).
Qed.

Lemma assign_distinct (m : station_map) (k v : float32) :
  distinct_keys m -> distinct_keys (assign m k v).
Proof.
  induction m as [|[k1 v1] m IH]; simpl; [auto|].
  intros [Hk1 Hm]. destruct (eqb k1 k) eqn:E; simpl.
  - split; [|exact Hm]. now rewrite <- (lookup_eqb m k1 k E).
  - split; [|now apply IH]. rewrite lookup_assign_other; [exact Hk1|].
    now rewrite eqb_sym.
Qed.

(** In a map with distinct keys an entry is found under its key. *)
Lemma distinct_In_lookup (m : station_map) (k v : float32) :
  distinct_keys m -> In (k, v) m -> is_nan k = false -> lookup m k = Some v.
Proof.
  induction m as [|[k1 v1] m IH]; simpl; [contradiction|].
  intros [Hk1 Hm] [[= -> ->]|Hin] Hnan.
  - now rewrite (eqb_refl k Hnan).
  - destruct (eqb k1 k) eqn:E; [|now apply IH].
    rewrite (lookup_eqb m k1 k E), (IH Hm Hin Hnan) in Hk1. discriminate.
Qed.

Lemma lookup_In (m : station_map) (k v : float32) :
  lookup m k = Some v -> exists k', In (k', v) m /\ eqb k' k = true.
Proof.
  induction m as [|[k1 v1] m IH]; simpl; [discriminate|].
  destruct (eqb k1 k) eqn:E.
  - intros [= ->]. eauto.
  - intros H. destruct (IH H) as (k' & Hin & Hk'). eauto.
Qed.

(** Discovery appends: the entries there stay where they are, with their
    scores, and each station added is one of the list that was not tracked. *)
Lemma track_stations_appends (stations : list float32) (m : station_map) :
  exists t added,
    track_stations m stations = (t, Return (m ++ map (fun k => (k, c0_5)) added))
    /\ (forall k, In k added -> In k stations /\ lookup m k = None)
    /\ (length added <= length stations)%nat
    /\ (distinct_keys m -> distinct_keys (m ++ map (fun k => (k, c0_5)) added)).
Proof.
  revert m. induction stations as [|st rest IH]; intros m.
  - exists [], []. simpl. rewrite app_nil_r.
    split; [reflexivity|]. split; [intros k []|]. split; [lia | auto].
  - simpl track_stations. rewrite ensureTracked_eq.
    destruct (lookup m st) as [s0|] eqn:Hst.
    + destruct (IH m) as (t & added & Heq & Hadded & Hlen & Hd).
      exists t, added. simpl. rewrite Heq. simpl.
      split; [reflexivity|]. split; [|split; [lia | exact Hd]].
      intros k Hk. destruct (Hadded k Hk). auto.
    + destruct (IH (assign m st c0_5)) as (t & added & Heq & Hadded & Hlen & Hd).
      rewrite (assign_absent m st c0_5 Hst) in *.
      exists (Println [PStr "found new station: "; PFloat st] :: t), (st :: added).
      simpl. rewrite Heq. simpl. rewrite <- app_assoc. simpl.
      split; [reflexivity|]. split; [|split; [lia|]].
      * intros k [<-|Hk]; [auto|].
        destruct (Hadded k Hk) as [Hin Hnone]. split; [now right|].
        rewrite lookup_app_none in Hnone. now destruct (lookup m k).
      * intros Hm. rewrite <- app_assoc in Hd. simpl in Hd. apply Hd.
        rewrite <- (assign_absent m st c0_5 Hst). now apply assign_distinct.
Qed.

Lemma In_lookup_some (m : station_map) (k k' g : float32) :
  In (k', g) m -> eqb k' k = true -> lookup m k <> None.
Proof.
  induction m as [|[k1 v1] m IH]; simpl; [contradiction|].
  intros [[= -> ->]|Hin] Hk.
  - now rewrite Hk.
  - destruct (eqb k1 k); [discriminate | now apply IH].
Qed.

Lemma distinct_keys_apart (m : station_map) : distinct_keys m -> keys_apart m.
Proof.
  induction m as [|[k v] m IH]; simpl; [auto|].
  intros [Hk Hm]. split; [|now apply IH].
  intros k' g' Hin. destruct (eqb k k') eqn:E; [|reflexivity].
  rewrite eqb_sym in E. now destruct (In_lookup_some m k k' g' Hin E).
Qed.

Lemma keys_apart_perm (l l' : list (float32 * float32)) :
  Permutation l l' -> keys_apart l -> keys_apart l'.
Proof.
  induction 1 as [|[k g] l l' Hperm IH|[k1 g1] [k2 g2] l|l l' l'' _ IH1 _ IH2]; simpl.
  - auto.
  - intros [Hk Hl]. split; [|now apply IH].
    intros k' g' Hin. apply (Hk k' g'). apply list_elem_of_In.
    rewrite Hperm. now apply list_elem_of_In.
  - intros [H1 [H2 Hl]]. split; [|split; [|exact Hl]].
    + intros k' g' [[= <- <-]|Hin]; [|now apply (H2 k' g')].
      rewrite eqb_sym. apply (H1 k1 g1). now left.
    + intros k' g' Hin. apply (H1 k' g'). now right.
  - auto.
Qed.

(** With the values of the order those the map holds and the keys apart, the
    pass over the snapshot is the pass that reads each value when it gets there. *)
Lemma sampling_pass_live_eq (fused : bool) (c : loop_context)
    (order : list (float32 * float32)) (ws : nat -> station_world) :
  forall (m : station_map) (n : nat),
    (forall k g, In (k, g) order -> lookup m k = Some g) ->
    keys_apart order ->
    sampling_pass fused c m order ws n
    = sampling_pass_live fused c m (map fst order) ws n.
Proof.
  induction order as [|[k g] rest IH]; intros m n Hcur Hapart; simpl; [reflexivity|].
  destruct Hapart as [Hk Hrest].
  rewrite (index_tracked m k g (Hcur k g (or_introl eq_refl))).
  destruct (sample_station fused c m k g (ws n)) as [t [m'|p]] eqn:Hvisit; simpl;
    [|reflexivity].
  rewrite IH; [reflexivity| |exact Hrest].
  intros k' g' Hin.
  destruct (sample_station_cases _ _ _ _ _ _ _ _ Hvisit) as [->|(val & _ & ->)].
  - apply Hcur. now right.
  - rewrite lookup_assign_other; [apply Hcur; now right | exact (Hk k' g' Hin)].
Qed.

(** X15: a pass reads each station's score as it is when the station is
    reached.  On a map as Go's (keys distinct, none a NaN), visiting the entries
    in any order with the scores the map had when the pass began is the same as
    visiting the keys in that order and reading each score at its visit: a visit
    writes no other station's score. *)
Theorem range_reads_current_scores (fused : bool) (c : loop_context) (m : station_map)
    (order : list (float32 * float32)) (ws : nat -> station_world) (n : nat) :
  distinct_keys m -> numeric_keys m -> Permutation order m ->
  sampling_pass fused c m order ws n
  = sampling_pass_live fused c m (map fst order) ws n.
Proof.
  intros Hd Hn Hperm. apply sampling_pass_live_eq.
  - intros k g Hin.
    assert (In (k, g) m) as Hin'
      by (apply list_elem_of_In; rewrite <- Hperm; now apply list_elem_of_In).
    apply distinct_In_lookup; [exact Hd | exact Hin' | exact (Hn k g Hin')].
  - apply (keys_apart_perm m order); [now symmetry | now apply distinct_keys_apart].
Qed.

Lemma range_reads_current_scores_witness :
  sampling_pass false example_context [(station_91_5, c0_5); (station_101_1, c0_5)]
    [(station_101_1, c0_5); (station_91_5, c0_5)] (fun _ => speech_world) 0
  = sampling_pass_live false example_context [(station_91_5, c0_5); (station_101_1, c0_5)]
      [station_101_1; station_91_5] (fun _ => speech_world) 0.
Proof.
  apply (range_reads_current_scores false example_context
           [(station_91_5, c0_5); (station_101_1, c0_5)]
           [(station_101_1, c0_5); (station_91_5, c0_5)] (fun _ => speech_world) 0).
  - simpl. repeat split; reflexivity.
  - intros k v [[= <- <-]|[[= <- <-]|[]]]; reflexivity.
  - apply perm_swap.
Defined.

(** Assigning the key of an entry keeps the list of keys as it is. *)
Lemma assign_keys_same (m : station_map) (k g v : float32) :
  distinct_keys m -> In (k, g) m -> is_nan k = false ->
  map fst (assign m k v) = map fst m.
Proof.
  induction m as [|[k1 v1] m IH]; simpl; [contradiction|].
  intros [Hk1 Hm] Hin Hnan. destruct (eqb k1 k) eqn:E; simpl.
  - f_equal. destruct Hin as [[= -> _]|Hin]; [reflexivity|].
    rewrite eqb_sym in E. now destruct (In_lookup_some m k1 k g Hin E).
  - f_equal. apply IH; [exact Hm| |exact Hnan].
    destruct Hin as [[= -> _]|Hin]; [|exact Hin].
    rewrite (eqb_refl k Hnan) in E. discriminate.
Qed.

Lemma In_keys (m : station_map) (k : float32) :
  In k (map fst m) <-> exists g, In (k, g) m.
Proof.
  rewrite in_map_iff. split.
  - intros ([k' g] & <- & Hin). eauto.
  - intros [g Hin]. exists (k, g). auto.
Qed.

Lemma sampling_pass_keys_same (fused : bool) (c : loop_context)
    (order : list (float32 * float32)) (ws : nat -> station_world) :
  forall (m : station_map) (n : nat) (t : list event) (m' : station_map),
    distinct_keys m ->
    (forall k g, In (k, g) order -> In k (map fst m) /\ is_nan k = false) ->
    sampling_pass fused c m order ws n = (t, Return m') ->
    map fst m' = map fst m /\ distinct_keys m'.
Proof.
  induction order as [|[k g] rest IH]; intros m n t m' Hd Hkeys; simpl.
  - intros [= _ <-]. auto.
  - unfold bind.
    destruct (sample_station fused c m k g (ws n)) as [t1 [m1|p]] eqn:Hvisit;
      [|discriminate].
    destruct (sampling_pass fused c m1 rest ws (S n)) as [t2 r2] eqn:Hrest.
    intros [= _ ->].
    assert (map fst m1 = map fst m /\ distinct_keys m1) as [Hk1 Hd1].
    { destruct (sample_station_cases _ _ _ _ _ _ _ _ Hvisit) as [->|(val & _ & ->)];
        [auto|].
      destruct (Hkeys k g (or_introl eq_refl)) as [Hin Hnan].
      apply In_keys in Hin. destruct Hin as [g0 Hin].
      split; [exact (assign_keys_same m k g0 _ Hd Hin Hnan) | now apply assign_distinct]. }
    destruct (IH m1 (S n) t2 m' Hd1) as [Hk2 Hd2]; [|exact Hrest|].
    + intros k' g' Hin. rewrite Hk1. apply (Hkeys k' g'). now right.
    + split; [now rewrite Hk2 | exact Hd2].
Qed.

(** X16: a pass that completes changes scores only: the map has the same keys at
    the same places afterwards, still distinct and none a NaN. *)
Theorem sampling_keeps_the_station_list (fused : bool) (c : loop_context)
    (m : station_map) (order : list (float32 * float32)) (ws : nat -> station_world)
    (n : nat) (t : list event) (m' : station_map) :
  distinct_keys m -> numeric_keys m -> Permutation order m ->
  sampling_pass fused c m order ws n = (t, Return m') ->
  map fst m' = map fst m /\ distinct_keys m' /\ numeric_keys m'.
Proof.
  intros Hd Hn Hperm Hrun.
  destruct (sampling_pass_keys_same fused c order ws m n t m' Hd) as [Hk Hd'];
    [|exact Hrun|].
  - intros k g Hin.
    assert (In (k, g) m) as Hin'
      by (apply list_elem_of_In; rewrite <- Hperm; now apply list_elem_of_In).
    split; [apply In_keys; eauto | exact (Hn k g Hin')].
  - split; [exact Hk|]. split; [exact Hd'|].
    intros k v Hin. assert (In k (map fst m)) as Hin' by (rewrite <- Hk; apply In_keys; eauto).
    apply In_keys in Hin'. destruct Hin' as [g Hg]. exact (Hn k g Hg).
Qed.

Lemma sampling_keeps_the_station_list_witness :
  map fst [(station_91_5, S754_finite false 10905191 (-24));
           (station_101_1, S754_finite false 10905191 (-24))]
  = [station_91_5; station_101_1].
Proof.
  refine (proj1 (sampling_keeps_the_station_list false example_context
                   [(station_91_5, c0_5); (station_101_1, c0_5)]
                   [(station_101_1, c0_5); (station_91_5, c0_5)]
                   (fun _ => broker_down_world) 0 _ _ _ _ _ eq_refl)).
  - simpl. repeat split; reflexivity.
  - intros k v [[= <- <-]|[[= <- <-]|[]]]; reflexivity.
  - apply perm_swap.
Defined.

Lemma refresh_stations_appends (c : loop_context) (s : loop_state) (w : iteration_world)
    (t : list event) (s' : loop_state) :
  refresh_stations c s w = (t, Return s') ->
  exists added,
    stationGoodness s' = stationGoodness s ++ map (fun k => (k, c0_5)) added
    /\ (forall k, In k added ->
                  lookup (stationGoodness s) k = None
                  /\ exists stations, GetCeilingSignals w = inr stations /\ In k stations)
    /\ (distinct_keys (stationGoodness s) -> distinct_keys (stationGoodness s')).
Proof.
  destruct (refresh_due (Now_check w) (lastStationsRefresh s)) eqn:Hdue.
  - destruct (GetCeilingSignals w) as [err|stations] eqn:Hsig.
    + unfold refresh_stations. rewrite Hdue, Hsig. discriminate.
    + destruct (refresh_stations_answered c s w stations Hdue Hsig)
        as (t0 & m' & Htrack & ->).
      destruct (track_stations_appends stations (stationGoodness s))
        as (t1 & added & Htrack1 & Hadded & _ & Hd).
      rewrite Htrack in Htrack1. injection Htrack1 as <- ->.
      destruct (length _ <? 1)%nat; [discriminate|]. intros [= _ <-]. simpl.
      exists added. split; [reflexivity|]. split; [|exact Hd].
      intros k Hk. destruct (Hadded k Hk). eauto.
  - rewrite refresh_stations_skipped by exact Hdue. intros [= _ <-].
    exists []. simpl. rewrite app_nil_r. split; [reflexivity|]. split; [intros k []|auto].
Qed.

(** X17: over every run of the loop that completes no station is dropped or
    moved: the keys of the final map are the keys of the initial one followed by
    what discoveries added, and they stay distinct and numeric when the
    discoveries answer with numbers. *)
Theorem station_list_is_append_only (fused : bool) (c : loop_context)
    (ws : list iteration_world) :
  Forall signals_numeric ws ->
  Forall range_visits_entries ws ->
  forall (s : loop_state) (t : list event) (s' : loop_state),
    distinct_keys (stationGoodness s) ->
    numeric_keys (stationGoodness s) ->
    main_loop fused c s ws = (t, Return s') ->
    (exists added, map fst (stationGoodness s') = map fst (stationGoodness s) ++ added)
    /\ distinct_keys (stationGoodness s')
    /\ numeric_keys (stationGoodness s').
Proof.
  induction ws as [|w ws IH]; intros Hsig Hrange s t s' Hd Hn.
  - simpl. intros [= _ <-]. split; [exists []; now rewrite app_nil_r | auto].
  - apply Forall_cons in Hsig as [Hs1 Hs2]. apply Forall_cons in Hrange as [Hr1 Hr2].
    simpl main_loop. unfold bind.
    destruct (main_iteration fused c s w) as [t1 [s1|p]] eqn:Hit; [|discriminate].
    destruct (main_loop fused c s1 ws) as [t2 r2] eqn:Hloop. intros [= _ ->].
    assert ((exists added, map fst (stationGoodness s1) = map fst (stationGoodness s) ++ added)
            /\ distinct_keys (stationGoodness s1) /\ numeric_keys (stationGoodness s1))
      as ([added1 Hk1] & Hd1 & Hn1).
    { revert Hit. unfold main_iteration, bind.
      destruct (refresh_stations c s w) as [t3 [s3|p]] eqn:Hrefresh; [|discriminate].
      destruct (sampling_pass fused c (stationGoodness s3)
                  (range_order w (stationGoodness s3)) (station_worlds w) 0)
        as [t4 [m4|p]] eqn:Hpass; [|discriminate].
      simpl. intros [= _ <-]. simpl.
      destruct (refresh_stations_appends c s w t3 s3 Hrefresh) as (added & Hm3 & Hadded & Hd3).
      assert (numeric_keys (stationGoodness s3)) as Hn3.
      { intros k v Hin. rewrite Hm3 in Hin. apply in_app_or in Hin.
        destruct Hin as [Hin|Hin]; [exact (Hn k v Hin)|].
        apply in_map_iff in Hin. destruct Hin as (k0 & [= -> _] & Hk0).
        destruct (Hadded k Hk0) as (_ & stations & Hst & Hin).
        specialize (Hs1 stations Hst). rewrite List.Forall_forall in Hs1. now apply Hs1. }
      destruct (sampling_keeps_the_station_list fused c (stationGoodness s3) _ _ _ _ _
                  (Hd3 Hd) Hn3 (Hr1 _) Hpass) as (Hk4 & Hd4 & Hn4).
      split; [|auto]. exists (map fst (map (fun k => (k, c0_5)) added)).
      now rewrite Hk4, Hm3, map_app. }
    destruct (IH Hs2 Hr2 s1 t2 s' Hd1 Hn1 Hloop) as ([added2 Hk2] & Hd2 & Hn2).
    split; [|auto]. exists (added1 ++ added2). now rewrite Hk2, Hk1, app_assoc.
Qed.

Lemma station_list_is_append_only_witness :
  exists added,
    map fst [(station_91_5, S754_finite false 13925091 (-24));
             (station_101_1, S754_finite false 13925091 (-24))]
    = [] ++ added.
Proof.
  refine (proj1 (station_list_is_append_only false example_context example_run
                   _ _ initial_state _ _ I _ eq_refl)).
  - repeat constructor; intros stations [= <-]; repeat constructor.
  - repeat constructor; intros m; simpl; symmetry; apply Permutation_rev.
  - intros k v [].
Defined.

(** ** Scores the update does not leave *)

Lemma dead_not_sampled (r s : float32) :
  dead s = true -> nonneg r = true -> ltb r s = false.
Proof.
  unfold dead. intros Hs Hr. destruct (ltb r s) eqn:E; [|reflexivity].
  apply orb_true_iff in Hs. destruct Hs as [Hs|Hs].
  - destruct s; try discriminate. now destruct r.
  - pose proof (ltb_leb_trans r s zero E Hs) as H.
    destruct r as [|[|]| |[|]]; discriminate.
Qed.

Lemma updated_goodness_nan (fused : bool) (s val : float32) :
  updated_goodness fused s S754_nan = S754_nan
  /\ updated_goodness fused S754_nan val = S754_nan.
Proof.
  unfold updated_goodness, mul_add, fma. split.
  - destruct fused, s; reflexivity.
  - destruct fused; reflexivity.
Qed.

Lemma updated_goodness_infinity (fused : bool) (val : float32) :
  nonneg val = true ->
  updated_goodness fused (S754_infinity false) val = S754_infinity false.
Proof.
  intros Hval.
  assert (positive_ (add val c0_3) = true) as Hw
    by (eapply leb_finite_positive; apply add_ge_c0_3, Hval).
  unfold updated_goodness, mul_add, fma.
  destruct (add val c0_3) as [|[|]| |[|]]; try discriminate; now destruct fused.
Qed.

Section ScoreInvariant.

(** A set of scores [Q] that the update does not leave, for the values [V]
    scoring may return. *)
Variable fused : bool.
Variable Q : float32 -> Prop.
Variable V : float32 -> Prop.
Hypothesis update_closed : forall s val, Q s -> V val -> Q (updated_goodness fused s val).

Lemma sample_station_score_invariant (c : loop_context) (m : station_map)
    (station g : float32) (w : station_world) (t : list event) (m' : station_map)
    (st s : float32) :
  (forall val, scored w = inr val -> V val) ->
  sample_station fused c m station g w = (t, Return m') ->
  lookup m st = Some s -> Q s ->
  exists s', lookup m' st = Some s' /\ Q s'.
Proof using update_closed.
  intros HV Hrun Hst HQ.
  destruct (sample_station_cases _ _ _ _ _ _ _ _ Hrun) as [->|(val & Hval & ->)];
    [eauto|].
  destruct (eqb station st) eqn:E.
  - assert (index m station = s) as ->
      by (apply index_tracked; now rewrite (lookup_eqb m station st E)).
    exists (updated_goodness fused s val). split; [|apply update_closed; auto].
    rewrite <- (lookup_eqb _ station st E). apply lookup_assign_same.
    destruct station; try reflexivity. discriminate.
  - exists s. now rewrite lookup_assign_other.
Qed.

Lemma sampling_pass_score_invariant (c : loop_context)
    (order : list (float32 * float32)) (ws : nat -> station_world) (st : float32) :
  (forall n val, scored (ws n) = inr val -> V val) ->
  forall (m : station_map) (n : nat) (t : list event) (m' : station_map) (s : float32),
    sampling_pass fused c m order ws n = (t, Return m') ->
    lookup m st = Some s -> Q s ->
    exists s', lookup m' st = Some s' /\ Q s'.
Proof using update_closed.
  intros HV. induction order as [|[station g] rest IH]; intros m n t m' s; simpl.
  - intros [= _ <-]. eauto.
  - unfold bind.
    destruct (sample_station fused c m station g (ws n)) as [t1 [m1|p]] eqn:Hvisit;
      [|discriminate].
    destruct (sampling_pass fused c m1 rest ws (S n)) as [t2 r2] eqn:Hrest.
    intros [= _ ->] Hst HQ.
    destruct (sample_station_score_invariant c m station g (ws n) t1 m1 st s
                (HV n) Hvisit Hst HQ) as (s1 & Hs1 & HQ1).
    exact (IH m1 (S n) t2 m' s1 Hrest Hs1 HQ1).
Qed.

Lemma main_loop_score_invariant (c : loop_context) (ws : list iteration_world)
    (st : float32) :
  Forall (fun w => forall n val, scored (station_worlds w n) = inr val -> V val) ws ->
  forall (s : loop_state) (t : list event) (s' : loop_state) (score : float32),
    main_loop fused c s ws = (t, Return s') ->
    lookup (stationGoodness s) st = Some score -> Q score ->
    exists score', lookup (stationGoodness s') st = Some score' /\ Q score'.
Proof using update_closed.
  induction ws as [|w ws IH]; intros HV s t s' score.
  - simpl. intros [= _ <-]. eauto.
  - apply Forall_cons in HV as [HV1 HV2]. simpl main_loop. unfold bind.
    destruct (main_iteration fused c s w) as [t1 [s1|p]] eqn:Hit; [|discriminate].
    destruct (main_loop fused c s1 ws) as [t2 r2] eqn:Hloop.
    intros [= _ ->] Hst HQ.
    assert (exists s1', lookup (stationGoodness s1) st = Some s1' /\ Q s1')
      as (s1' & Hs1 & HQ1).
    { revert Hit. unfold main_iteration, bind.
      destruct (refresh_stations c s w) as [t3 [s3|p]] eqn:Hrefresh; [|discriminate].
      destruct (sampling_pass fused c (stationGoodness s3)
                  (range_order w (stationGoodness s3)) (station_worlds w) 0)
        as [t4 [m4|p]] eqn:Hpass; [|discriminate].
      simpl. intros [= _ <-]. simpl.
      destruct (refresh_stations_appends c s w t3 s3 Hrefresh) as (added & Hm3 & _).
      assert (lookup (stationGoodness s3) st = Some score) as Hs3
        by (now rewrite Hm3, lookup_app_none, Hst).
      exact (sampling_pass_score_invariant c _ _ st HV1 _ _ _ _ _ Hpass Hs3 HQ). }
    exact (IH HV2 s1 t2 s' s1' Hloop Hs1 HQ1).
Qed.

End ScoreInvariant.

(** X18: a score that is NaN is NaN after every run that completes, and a score
    that is +Inf stays +Inf when scoring returns values that are not negative:
    the update leaves neither. *)
Theorem infinite_or_nan_score_is_forever (fused : bool) (c : loop_context)
    (ws : list iteration_world) (s : loop_state) (t : list event) (s' : loop_state)
    (station : float32) :
  main_loop fused c s ws = (t, Return s') ->
  (lookup (stationGoodness s) station = Some S754_nan ->
   lookup (stationGoodness s') station = Some S754_nan)
  /\ (Forall scores_nonneg ws ->
      lookup (stationGoodness s) station = Some (S754_infinity false) ->
      lookup (stationGoodness s') station = Some (S754_infinity false)).
Proof.
  intros Hrun. split.
  - intros Hst.
    destruct (main_loop_score_invariant fused (fun x => x = S754_nan) (fun _ => True)
                ltac:(intros x val -> _; exact (proj2 (updated_goodness_nan fused S754_nan val)))
                c ws station ltac:(apply List.Forall_forall; auto) s t s' S754_nan
                Hrun Hst eq_refl) as (x & Hx & ->).
    exact Hx.
  - intros Hnonneg Hst.
    destruct (main_loop_score_invariant fused (fun x => x = S754_infinity false)
                (fun v => nonneg v = true)
                ltac:(intros x val -> Hv; now apply updated_goodness_infinity)
                c ws station
                ltac:(eapply List.Forall_impl; [|exact Hnonneg];
                      intros w Hw n val Hval; apply leb_zero_nonneg, (Hw n val Hval))
                s t s' (S754_infinity false) Hrun Hst eq_refl) as (x & Hx & ->).
    exact Hx.
Qed.

Lemma infinite_or_nan_score_is_forever_witness :
  lookup [(station_91_5, S754_nan); (station_101_1, S754_finite false 10905191 (-24))]
         station_91_5
  = Some S754_nan.
Proof.
  refine (proj1 (infinite_or_nan_score_is_forever false example_context
                   [quiet_iteration speech_world]
                   (settled_state [(station_91_5, S754_nan); (station_101_1, c0_5)])
                   _ _ station_91_5 eq_refl) eq_refl).
Defined.

Lemma sample_station_GetAudio (fused : bool) (c : loop_context) (m : station_map)
    (station g : float32) (w : station_world) (host : string) (k : float32) :
  In (CallGetAudio host k) (trace (sample_station fused c m station g w)) -> k = station.
Proof.
  destruct (ltb (rand_Float32 w) g) eqn:Hdraw;
    [|rewrite sample_station_skipped by exact Hdraw; intros []].
  destruct (GetAudio w) as [err|audio] eqn:Haudio.
  - unfold sample_station. rewrite Hdraw, Haudio. simpl. intros [[= _ <-]|[]]. reflexivity.
  - destruct (scored w) as [err|val] eqn:Hval.
    + unfold sample_station, goodness. rewrite Hdraw, Haudio, Hval. simpl.
      intros [[= _ <-]|[H|[]]]; [reflexivity | discriminate].
    + rewrite (sample_station_sampled fused c m station g w audio val Hdraw Haudio Hval).
      simpl. intros [[= _ <-]|[H|[H|H]]]; [reflexivity | discriminate | discriminate |].
      destruct (gtb val c0_5); [|destruct H]. unfold publish_events in H.
      destruct H as [H|H]; [discriminate|].
      destruct (sent w) as [e|[p o]]; simpl in H; intuition discriminate.
Qed.

Lemma refresh_stations_no_capture (c : loop_context) (s : loop_state) (w : iteration_world) :
  Forall (fun e => is_GetAudio e = false) (trace (refresh_stations c s w)).
Proof.
  unfold refresh_stations.
  destruct (refresh_due (Now_check w) (lastStationsRefresh s)); [|constructor].
  destruct (GetCeilingSignals w) as [err|stations]; simpl.
  - repeat constructor.
  - pose proof (track_stations_prints stations (stationGoodness s)) as Hp.
    assert (Forall (fun e => is_GetAudio e = false)
                   (trace (track_stations (stationGoodness s) stations))) as Ht.
    { eapply List.Forall_impl; [|exact Hp]. now intros e [args ->]. }
    destruct (track_stations (stationGoodness s) stations) as [t [m|p]]; simpl in *.
    + destruct (length m <? 1)%nat; simpl.
      * constructor; [reflexivity|]. now rewrite app_nil_r.
      * constructor; [reflexivity|]. apply Forall_app. split; [exact Ht|].
        repeat constructor.
    + constructor; [reflexivity | exact Ht].
Qed.

Lemma sampling_pass_dead (fused : bool) (c : loop_context)
    (order : list (float32 * float32)) (ws : nat -> station_world)
    (st score : float32) :
  (forall n, nonneg (rand_Float32 (ws n)) = true) ->
  dead score = true ->
  (forall k g, In (k, g) order -> eqb k st = true -> g = score) ->
  forall (m : station_map) (n : nat) (t : list event) (m' : station_map),
    sampling_pass fused c m order ws n = (t, Return m') ->
    lookup m st = Some score ->
    lookup m' st = Some score
    /\ (forall host k, In (CallGetAudio host k) t -> eqb k st = false)
    /\ (distinct_keys m -> distinct_keys m').
Proof.
  intros Hdraws Hdead. induction order as [|[k g] rest IH]; intros Hord m n t m'; simpl.
  - intros [= <- <-] Hst. split; [exact Hst|]. split; [intros host k []|auto].
  - unfold bind.
    destruct (sample_station fused c m k g (ws n)) as [t1 [m1|p]] eqn:Hvisit;
      [|discriminate].
    destruct (sampling_pass fused c m1 rest ws (S n)) as [t2 r2] eqn:Hrest.
    intros [= <- ->] Hst.
    assert (lookup m1 st = Some score
            /\ (forall host k', In (CallGetAudio host k') t1 -> eqb k' st = false)
            /\ (distinct_keys m -> distinct_keys m1)) as (Hst1 & Ht1 & Hd1).
    { destruct (eqb k st) eqn:E.
      - rewrite (Hord k g (or_introl eq_refl) E) in Hvisit.
        rewrite sample_station_skipped in Hvisit
          by (apply dead_not_sampled; [exact Hdead | apply Hdraws]).
        injection Hvisit as <- <-. split; [exact Hst|]. split; [intros host k' []|auto].
      - split; [|split].
        + destruct (sample_station_cases _ _ _ _ _ _ _ _ Hvisit) as [->|(val & _ & ->)];
            [exact Hst | now rewrite lookup_assign_other].
        + intros host k' Hin.
          assert (k' = k) as ->; [|exact E].
          apply (sample_station_GetAudio fused c m k g (ws n) host).
          now rewrite Hvisit.
        + destruct (sample_station_cases _ _ _ _ _ _ _ _ Hvisit) as [->|(val & _ & ->)];
            [auto | apply assign_distinct]. }
    destruct (IH ltac:(intros k' g' Hin; apply (Hord k' g'); now right)
                 m1 (S n) t2 m' Hrest Hst1) as (Hst2 & Ht2 & Hd2).
    split; [exact Hst2|]. split; [|auto].
    intros host k' Hin. apply in_app_or in Hin. destruct Hin; eauto.
Qed.

(** X19: a station whose score is NaN, a zero or negative is dead.  With draws
    that are not negative, as [rand.Float32]'s are, no pass of a run that
    completes captures audio from it, and its score is at the end what it was at
    the start. *)
Theorem dead_station_is_never_sampled (fused : bool) (c : loop_context)
    (ws : list iteration_world) (station score : float32) :
  Forall draws_nonneg ws ->
  Forall range_visits_entries ws ->
  dead score = true ->
  forall (s : loop_state) (t : list event) (s' : loop_state),
    distinct_keys (stationGoodness s) ->
    lookup (stationGoodness s) station = Some score ->
    main_loop fused c s ws = (t, Return s') ->
    lookup (stationGoodness s') station = Some score
    /\ (forall host k, In (CallGetAudio host k) t -> eqb k station = false).
Proof.
  intros Hdraws Hrange Hdead.
  assert (forall s t s',
             distinct_keys (stationGoodness s) ->
             lookup (stationGoodness s) station = Some score ->
             main_loop fused c s ws = (t, Return s') ->
             lookup (stationGoodness s') station = Some score
             /\ (forall host k, In (CallGetAudio host k) t -> eqb k station = false)
             /\ distinct_keys (stationGoodness s')) as H;
    [|intros s t s' Hd Hst Hrun; destruct (H s t s' Hd Hst Hrun) as (? & ? & _); auto].
  induction ws as [|w ws IH]; intros s t s' Hd Hst.
  - simpl. intros [= <- <-]. split; [exact Hst|]. split; [intros host k []|exact Hd].
  - apply Forall_cons in Hdraws as [Hw1 Hw2]. apply Forall_cons in Hrange as [Hr1 Hr2].
    simpl main_loop. unfold bind.
    destruct (main_iteration fused c s w) as [t1 [s1|p]] eqn:Hit; [|discriminate].
    destruct (main_loop fused c s1 ws) as [t2 r2] eqn:Hloop. intros [= <- ->].
    assert (lookup (stationGoodness s1) station = Some score
            /\ (forall host k, In (CallGetAudio host k) t1 -> eqb k station = false)
            /\ distinct_keys (stationGoodness s1)) as (Hst1 & Ht1 & Hd1).
    { revert Hit. unfold main_iteration, bind.
      destruct (refresh_stations c s w) as [t3 [s3|p]] eqn:Hrefresh; [|discriminate].
      destruct (sampling_pass fused c (stationGoodness s3)
                  (range_order w (stationGoodness s3)) (station_worlds w) 0)
        as [t4 [m4|p]] eqn:Hpass; [|discriminate].
      simpl. intros [= <- <-]. simpl.
      destruct (refresh_stations_appends c s w t3 s3 Hrefresh) as (added & Hm3 & _ & Hd3).
      assert (lookup (stationGoodness s3) station = Some score) as Hs3
        by (now rewrite Hm3, lookup_app_none, Hst).
      assert (forall k g, In (k, g) (range_order w (stationGoodness s3)) ->
                          eqb k station = true -> g = score) as Hord.
      { intros k g Hin E.
        assert (In (k, g) (stationGoodness s3)) as Hin'
          by (apply list_elem_of_In; rewrite <- (Hr1 _); now apply list_elem_of_In).
        assert (is_nan k = false) as Hnan by (destruct k; try reflexivity; discriminate).
        pose proof (distinct_In_lookup _ k g (Hd3 Hd) Hin' Hnan) as Hk.
        rewrite (lookup_eqb _ k station E), Hs3 in Hk. now injection Hk. }
      destruct (sampling_pass_dead fused c (range_order w (stationGoodness s3))
                  (station_worlds w) station score Hw1 Hdead Hord
                  (stationGoodness s3) 0%nat t4 m4 Hpass Hs3) as (Hst4 & Ht4 & Hd4).
      split; [exact Hst4|]. split; [|exact (Hd4 (Hd3 Hd))].
      intros host k Hin. apply in_app_or in Hin.
      destruct Hin as [Hin|Hin]; [|rewrite app_nil_r in Hin; exact (Ht4 host k Hin)].
      pose proof (refresh_stations_no_capture c s w) as Hev. rewrite Hrefresh in Hev.
      simpl in Hev. rewrite List.Forall_forall in Hev.
      specialize (Hev _ Hin). discriminate. }
    destruct (IH Hw2 Hr2 s1 t2 s' Hd1 Hst1 Hloop) as (Hst2 & Ht2 & Hd2).
    split; [exact Hst2|]. split; [|exact Hd2].
    intros host k Hin. apply in_app_or in Hin. destruct Hin; eauto.
Qed.

Lemma dead_station_is_never_sampled_witness :
  lookup [(station_91_5, zero); (station_101_1, S754_finite false 10905191 (-24))]
         station_91_5
  = Some zero.
Proof.
  refine (proj1 (dead_station_is_never_sampled false example_context
                   [quiet_iteration speech_world] station_91_5 zero _ _ eq_refl
                   (settled_state [(station_91_5, zero); (station_101_1, c0_5)])
                   _ _ _ eq_refl eq_refl)).
  - repeat constructor.
  - repeat constructor; intros m; simpl; symmetry; apply Permutation_rev.
  - simpl. repeat split; reflexivity.
Defined.

(** ** Rounding is monotone at the floats *)

Lemma pow2_pos (z : Z) : 0 <= z -> 0 < 2 ^ z.
Proof. intros. apply Z.pow_pos_nonneg; lia. Qed.

Lemma digits_ge (M : positive) (d : Z) :
  2 ^ (d - 1) <= Z.pos M -> d <= Z.pos (digits2_pos M).
Proof.
  intros H. pose proof (digits2_pos_bounds M) as [_ Hhi].
  assert (2 ^ (d - 1) < 2 ^ Z.pos (digits2_pos M)) as Hlt by lia.
  apply Z.pow_lt_mono_r_iff in Hlt; lia.
Qed.

Lemma digits_le (M : positive) (d : Z) :
  0 <= d -> Z.pos M < 2 ^ d -> Z.pos (digits2_pos M) <= d.
Proof.
  intros Hd H. pose proof (digits2_pos_bounds M) as [Hlo _].
  assert (2 ^ (Z.pos (digits2_pos M) - 1) < 2 ^ d) as Hlt by lia.
  apply Z.pow_lt_mono_r_iff in Hlt; lia.
Qed.

Lemma canonical_digits (m : positive) (e : Z) :
  canonical m e ->
  Z.pos (digits2_pos m) <= 24 /\ -149 <= e
  /\ (-149 < e -> 2 ^ 23 <= Z.pos m) /\ Z.pos m < 2 ^ 24.
Proof.
  unfold canonical. rewrite fexp_eq. intros H.
  pose proof (digits2_pos_bounds m) as [Hlo Hhi].
  assert (Z.pos (digits2_pos m) <= 24) as Hd by lia.
  repeat split; try lia.
  - intros He. replace (Z.pos (digits2_pos m)) with 24 in Hlo by lia. exact Hlo.
  - apply Z.lt_le_trans with (1 := Hhi). apply Z.pow_le_mono_r; lia.
Qed.

Lemma valid_canonical (s : bool) (m : positive) (e : Z) :
  valid (S754_finite s m e) = true -> canonical m e.
Proof.
  unfold valid, valid_binary, bounded, canonical_mantissa, canonical.
  intros H. apply andb_true_iff in H. destruct H as [H _]. now apply Z.eqb_eq in H.
Qed.

Lemma at_least_leb (cm : positive) (ce : Z) (r : float32) :
  at_least cm ce r -> leb (S754_finite false cm ce) r = true.
Proof.
  destruct r as [s|[|]| |[|] m e]; simpl; try contradiction; try reflexivity.
  intros [_ H]. apply leb_finite_pos. lia.
Qed.

(** Rounding to nearest is monotone at the floats: a number that is at least a
    float rounds to at least that float, and to a float in binary32's form. *)
Lemma binary_round_aux_at_least (cm : positive) (ce : Z) (M : positive) (ez k : Z) :
  canonical cm ce ->
  ez <= fexp prec emax (Z.pos (digits2_pos M) + ez) ->
  k <= ce -> k <= ez ->
  Z.pos cm * 2 ^ (ce - k) <= Z.pos M * 2 ^ (ez - k) ->
  at_least cm ce (binary_round_aux prec emax false (Z.pos M) ez loc_Exact).
Proof.
  intros Hc Hn Hkc Hkz Hle.
  pose proof (canonical_digits cm ce Hc) as (_ & Hce & _ & _).
  unfold canonical in Hc. rewrite fexp_eq in Hc, Hn.
  pose proof (digits2_pos_bounds M) as [HMlo HMhi].
  pose proof (digits2_pos_bounds cm) as [Hclo Hchi].
  set (D := Z.pos (digits2_pos M)) in *.
  set (dc := Z.pos (digits2_pos cm)) in *.
  assert (0 < D) as HD by (unfold D; lia).
  assert (0 < dc) as Hdc by (unfold dc; lia).
  set (e1 := Z.max (D + ez - 24) (-149)) in *.
  set (n := e1 - ez).
  assert (0 <= n) as Hn0 by (unfold n; lia).
  pose proof (pow2_pos n Hn0) as Hpn.
  pose proof (pow2_pos (ce - k) ltac:(lia)) as Hpc.
  pose proof (pow2_pos (ez - k) ltac:(lia)) as Hpz.
  assert (HA : dc + ce <= D + ez).
  { assert (2 ^ (dc - 1 + (ce - k)) < 2 ^ (D + (ez - k))) as Hlt.
    { rewrite !Z.pow_add_r by lia.
      apply Z.le_lt_trans with (Z.pos cm * 2 ^ (ce - k)).
      - apply Z.mul_le_mono_nonneg_r; lia.
      - apply Z.le_lt_trans with (1 := Hle). apply Z.mul_lt_mono_pos_r; lia. }
    apply Z.pow_lt_mono_r_iff in Hlt; lia. }
  assert (HA' : ce <= e1) by (unfold e1; lia).
  assert (HB : 2 ^ n <= Z.pos M).
  { destruct (Z_le_gt_dec (-149) (D + ez - 24)) as [Hnorm|Hsub].
    - apply Z.le_trans with (2 ^ (D - 1)); [|exact HMlo].
      apply Z.pow_le_mono_r; unfold n, e1; lia.
    - assert (2 ^ (n + (ez - k)) <= Z.pos cm * 2 ^ (ce - k)) as H1.
      { apply Z.le_trans with (2 ^ (ce - k)).
        - apply Z.pow_le_mono_r; unfold n, e1; lia.
        - nia. }
      rewrite Z.pow_add_r in H1 by lia.
      apply Z.mul_le_mono_pos_r with (p := 2 ^ (ez - k)); lia. }
  set (q := Z.pos M / 2 ^ n).
  assert (Hq1 : 1 <= q) by (apply Z.div_le_lower_bound; lia).
  assert (Hq2 : q < 2 ^ 24).
  { apply Z.div_lt_upper_bound; [lia|]. rewrite <- Z.pow_add_r by lia.
    apply Z.lt_le_trans with (1 := HMhi). apply Z.pow_le_mono_r; unfold n, e1; lia. }
  assert (Hq3 : -149 <= D + ez - 24 -> 2 ^ 23 <= q).
  { intros Hnorm. apply Z.div_le_lower_bound; [lia|]. rewrite <- Z.pow_add_r by lia.
    replace (n + 23) with (D - 1) by (unfold n, e1; lia). exact HMlo. }
  assert (Hq4 : ce = e1 -> Z.pos cm <= q).
  { intros E. apply Z.div_le_lower_bound; [lia|].
    replace (ce - k) with (n + (ez - k)) in Hle by (unfold n; lia).
    rewrite Z.pow_add_r in Hle by lia.
    apply Z.mul_le_mono_pos_r with (p := 2 ^ (ez - k)); lia. }
  unfold binary_round_aux, shr_fexp. simpl Zdigits2. fold D. rewrite fexp_eq.
  fold e1. fold n.
  pose proof (shr_spec (shr_record_of_loc (Z.pos M) loc_Exact) ez n) as Hs1.
  destruct (shr (shr_record_of_loc (Z.pos M) loc_Exact) ez n) as [mrs1 e1'].
  simpl in Hs1. destruct Hs1 as [Hm1 He1]; [lia|].
  replace (Z.max n 0) with n in * by lia. fold q in Hm1.
  assert (e1' = e1) as -> by (unfold n in He1; lia).
  pose proof (round_nearest_even_bounds (shr_m mrs1) (loc_of_shr_record mrs1)) as Hr.
  change (2 ^ 23) with 8388608 in *. change (2 ^ 24) with 16777216 in *.
  destruct (round_nearest_even (shr_m mrs1) (loc_of_shr_record mrs1)) as [|p1|p1];
    rewrite Hm1 in Hr; [lia| |lia].
  simpl Zdigits2. simpl shr_record_of_loc. rewrite fexp_eq.
  destruct (Z_lt_le_dec (Z.pos p1) 16777216) as [Hlt|Hge].
  - assert (Z.pos (digits2_pos p1) <= 24) as Hd1 by (apply digits_le; simpl; lia).
    assert (-149 <= D + ez - 24 -> Z.pos (digits2_pos p1) = 24) as Hd1'.
    { intros Hnorm. apply digits2_pos_unique. simpl. specialize (Hq3 Hnorm). lia. }
    set (d1 := Z.pos (digits2_pos p1)) in *.
    pose proof (shr_spec {| shr_m := Z.pos p1; shr_r := false; shr_s := false |} e1
                  (Z.max (d1 + e1 - 24) (-149) - e1)) as Hs2.
    destruct (shr {| shr_m := Z.pos p1; shr_r := false; shr_s := false |} e1
                  (Z.max (d1 + e1 - 24) (-149) - e1)) as [mrs2 e2].
    simpl in Hs2. destruct Hs2 as [Hm2 He2]; [lia|].
    replace (Z.max (Z.max (d1 + e1 - 24) (-149) - e1) 0) with 0 in *
      by (unfold e1; lia).
    simpl in Hm2. rewrite Z.div_1_r in Hm2. rewrite Hm2.
    destruct (e2 <=? emax - prec); [|exact I].
    simpl. split.
    + unfold canonical. rewrite fexp_eq. fold d1. unfold e1 in *. lia.
    + destruct (Z.eq_dec ce e1) as [E|E]; [right|left]; [|lia].
      specialize (Hq4 E). lia.
  - rewrite (digits2_pos_unique p1 25) by (simpl; lia).
    replace (Z.max (25 + e1 - 24) (-149) - e1) with 1 by (unfold e1; lia).
    pose proof (shr_spec {| shr_m := Z.pos p1; shr_r := false; shr_s := false |} e1 1)
      as Hs2.
    destruct (shr {| shr_m := Z.pos p1; shr_r := false; shr_s := false |} e1 1)
      as [mrs2 e2].
    simpl in Hs2. destruct Hs2 as [Hm2 He2]; [lia|].
    assert (Z.pos p1 = 16777216) as Ep by lia. rewrite Ep in Hm2.
    change (16777216 / 2) with (Z.pos 8388608) in Hm2. rewrite Hm2.
    destruct (e2 <=? emax - prec); [|exact I].
    simpl. split.
    + unfold canonical. rewrite fexp_eq. simpl digits2_pos. unfold e1 in *. lia.
    + left. lia.
Qed.

Lemma binary_round_at_least (cm : positive) (ce : Z) (M : positive) (ez k : Z) :
  canonical cm ce ->
  2 ^ 23 <= Z.pos M ->
  k <= ce -> k <= ez ->
  Z.pos cm * 2 ^ (ce - k) <= Z.pos M * 2 ^ (ez - k) ->
  at_least cm ce (binary_round prec emax false M ez).
Proof.
  intros Hc HM Hkc Hkz Hle.
  pose proof (digits_ge M 24 HM) as HD.
  unfold binary_round. rewrite fexp_eq. unfold shl_align.
  destruct (Z.max (Z.pos (digits2_pos M) + ez - 24) (-149) - ez) eqn:E; [| |lia];
    apply (binary_round_aux_at_least cm ce M ez k); auto; rewrite fexp_eq; lia.
Qed.

Lemma leb_finite_inv (cm m : positive) (ce e : Z) :
  leb (S754_finite false cm ce) (S754_finite false m e) = true ->
  ce < e \/ (ce = e /\ Z.pos cm <= Z.pos m).
Proof.
  unfold leb, SFleb; simpl. fold_compare.
  destruct (Z.compare_spec ce e); [|lia|discriminate].
  destruct (Pos.compare_spec cm m); try discriminate; intros _; lia.
Qed.

(** With a value of at least [0.7] the factor [val + 0.3] is at least [1]. *)
Lemma factor_at_least_one (val : float32) :
  valid val = true -> leb c0_7 val = true ->
  at_least 8388608 (-23) (add val c0_3).
Proof.
  intros Hvalid Hval.
  destruct val as [s|[|]| |[|] mv ev]; try discriminate; [exact I|].
  apply valid_canonical, canonical_digits in Hvalid. destruct Hvalid as (_ & _ & Hnorm & _).
  apply leb_finite_inv in Hval.
  unfold add, c0_3, c0_05, SFadd. cbn [cond_Zopp]. rewrite <- Pos2Z.inj_add. cbn [binary_normalize].
  rewrite Z.min_r by lia.
  assert (0 < 2 ^ (ev - -25)) as Hp by (apply pow2_pos; lia).
  assert (33554432 <= Z.pos mv * 2 ^ (ev - -25) + 10066330) as Hsum.
  { destruct Hval as [Hlt|[<- Hm]].
    - specialize (Hnorm ltac:(lia)). change (2 ^ 23) with 8388608 in Hnorm.
      assert (2 ^ 2 <= 2 ^ (ev - -25)) by (apply Z.pow_le_mono_r; lia).
      change (2 ^ 2) with 4 in *. nia.
    - change (2 ^ (-24 - -25)) with 2. lia. }
  apply binary_round_at_least with (k := -25);
    [reflexivity | | lia | lia |];
    rewrite Pos2Z.inj_add, !shl_align_value by lia;
    change (2 ^ (-25 - -25)) with 1; change (2 ^ (-23 - -25)) with 4;
    change (2 ^ 23) with 8388608; lia.
Qed.

(** A product with a factor of at least [1] is at least the other factor. *)
Lemma mul_at_least (m : positive) (e : Z) (w : float32) :
  canonical m e -> at_least 8388608 (-23) w ->
  at_least m e (mul (S754_finite false m e) w).
Proof.
  intros Hc Hw. destruct w as [s|[|]| |[|] mw ew]; try contradiction; [exact I|].
  destruct Hw as [Hcw Hw].
  apply canonical_digits in Hcw. destruct Hcw as (_ & _ & Hnorm & _).
  specialize (Hnorm ltac:(lia)).
  unfold mul, SFmul. cbn [xorb].
  assert (2 ^ 23 <= Z.pos (m * mw)) as HM by (rewrite Pos2Z.inj_mul; nia).
  pose proof (digits_ge (m * mw) 24 HM) as HD.
  apply binary_round_aux_at_least with (k := Z.min e (e + ew));
    [exact Hc | rewrite fexp_eq; lia | lia | lia |].
  rewrite Pos2Z.inj_mul.
  destruct (Z_le_gt_dec 0 ew) as [Hpos|Hneg].
  - rewrite Z.min_l by lia. replace (e - e) with 0 by lia.
    assert (0 < 2 ^ (e + ew - e)) by (apply pow2_pos; lia). simpl. nia.
  - rewrite Z.min_r by lia. replace (e + ew - (e + ew)) with 0 by lia.
    replace (e - (e + ew)) with (- ew) by lia.
    assert (2 ^ (- ew) <= 2 ^ 23) by (apply Z.pow_le_mono_r; lia).
    assert (0 < 2 ^ (- ew)) by (apply pow2_pos; lia). simpl. nia.
Qed.

(** Adding [0.05] to a float that is at least [c] gives at least [c]. *)
Lemma add_c0_05_at_least (cm : positive) (ce : Z) (p : float32) :
  canonical cm ce -> at_least cm ce p -> at_least cm ce (add p c0_05).
Proof.
  intros Hc Hp. destruct p as [s|[|]| |[|] mp ep]; try contradiction; [exact I|].
  destruct Hp as [Hcp Hp].
  apply canonical_digits in Hcp. destruct Hcp as (_ & Hep & Hnorm & _).
  pose proof (canonical_digits cm ce Hc) as (_ & Hce & _ & Hcm).
  unfold add, c0_3, c0_05, SFadd. cbn [cond_Zopp]. rewrite <- Pos2Z.inj_add. cbn [binary_normalize].
  set (ez := Z.min ep (-28)).
  assert (0 < 2 ^ (ep - ez)) as Hp1 by (apply pow2_pos; lia).
  assert (1 <= 2 ^ (-28 - ez)) as Hp2
    by (assert (0 < 2 ^ (-28 - ez)) by (apply pow2_pos; lia); lia).
  set (k := Z.min ce ez).
  assert (0 < 2 ^ (ez - k)) as Hp3 by (apply pow2_pos; lia).
  apply binary_round_at_least with (k := k); [exact Hc | | lia | lia |];
    rewrite Pos2Z.inj_add, !shl_align_value by lia.
  - change (2 ^ 23) with 8388608. nia.
  - apply Z.le_trans with (Z.pos mp * 2 ^ (ep - ez) * 2 ^ (ez - k)); [|nia].
    rewrite <- Z.mul_assoc, <- Z.pow_add_r by lia.
    replace (ep - ez + (ez - k)) with (ep - k) by lia.
    destruct Hp as [Hlt|[<- Hm]].
    + specialize (Hnorm ltac:(lia)).
      apply Z.le_trans with (2 ^ 24 * 2 ^ (ce - k)).
      * apply Z.mul_le_mono_nonneg_r; [apply Z.pow_nonneg|]; lia.
      * rewrite <- Z.pow_add_r by lia.
        apply Z.le_trans with (2 ^ 23 * 2 ^ (ep - k)).
        -- rewrite <- Z.pow_add_r by lia. apply Z.pow_le_mono_r; lia.
        -- apply Z.mul_le_mono_nonneg_r; [apply Z.pow_nonneg|]; lia.
    + apply Z.mul_le_mono_nonneg_r; [apply Z.pow_nonneg|]; lia.
Qed.

(** The same for the fused sum, which rounds the exact product once. *)
Lemma fused_at_least (m : positive) (e : Z) (w : float32) :
  canonical m e -> at_least 8388608 (-23) w ->
  at_least m e (add (mul_exact (S754_finite false m e) w) c0_05).
Proof.
  intros Hc Hw. destruct w as [s|[|]| |[|] mw ew]; try contradiction; [exact I|].
  destruct Hw as [Hcw Hw].
  apply canonical_digits in Hcw. destruct Hcw as (_ & _ & Hnorm & _).
  specialize (Hnorm ltac:(lia)).
  pose proof (canonical_digits m e Hc) as (_ & He & _ & _).
  unfold mul_exact. cbn [xorb].
  unfold add, c0_3, c0_05, SFadd. cbn [cond_Zopp]. rewrite <- Pos2Z.inj_add. cbn [binary_normalize].
  set (ez := Z.min (e + ew) (-28)).
  assert (0 < 2 ^ (e + ew - ez)) as Hp1 by (apply pow2_pos; lia).
  assert (1 <= 2 ^ (-28 - ez)) as Hp2
    by (assert (0 < 2 ^ (-28 - ez)) by (apply pow2_pos; lia); lia).
  set (k := Z.min e ez).
  assert (0 < 2 ^ (ez - k)) as Hp3 by (apply pow2_pos; lia).
  apply binary_round_at_least with (k := k); [exact Hc | | lia | lia |];
    rewrite Pos2Z.inj_add, !shl_align_value by lia.
  - change (2 ^ 23) with 8388608. nia.
  - apply Z.le_trans with (Z.pos (m * mw) * 2 ^ (e + ew - ez) * 2 ^ (ez - k)); [|nia].
    rewrite <- Z.mul_assoc, <- Z.pow_add_r by lia.
    replace (e + ew - ez + (ez - k)) with (e + ew - k) by lia.
    rewrite Pos2Z.inj_mul, <- Z.mul_assoc. apply Z.mul_le_mono_nonneg_l; [lia|].
    apply Z.le_trans with (2 ^ 23 * 2 ^ (e + ew - k)).
    + rewrite <- Z.pow_add_r by lia. apply Z.pow_le_mono_r; lia.
    + apply Z.mul_le_mono_nonneg_r; [apply Z.pow_nonneg|]; lia.
Qed.

Lemma at_least_trans (m ms : positive) (e es : Z) (r : float32) :
  at_least m e (S754_finite false ms es) -> at_least ms es r -> at_least m e r.
Proof.
  intros [_ H1]. destruct r as [s|[|]| |[|] mr er]; simpl; try contradiction; [exact id|].
  intros [Hc H2]. split; [exact Hc | lia].
Qed.

(** The update with a value of at least [0.7] gives at least the old score. *)
Lemma updated_at_least (fused : bool) (m : positive) (e : Z) (val : float32) :
  canonical m e -> valid val = true -> leb c0_7 val = true ->
  at_least m e (updated_goodness fused (S754_finite false m e) val).
Proof.
  intros Hc Hvv Hval.
  pose proof (factor_at_least_one val Hvv Hval) as Hw.
  unfold updated_goodness, mul_add. destruct fused.
  - assert (fma (S754_finite false m e) (add val c0_3) c0_05
            = add (mul_exact (S754_finite false m e) (add val c0_3)) c0_05) as ->
      by (destruct (add val c0_3); reflexivity).
    now apply fused_at_least.
  - apply add_c0_05_at_least; [exact Hc|]. now apply mul_at_least.
Qed.

Lemma updated_at_least_closed (fused : bool) (m : positive) (e : Z) (s val : float32) :
  at_least m e s -> valid val = true -> leb c0_7 val = true ->
  at_least m e (updated_goodness fused s val).
Proof.
  intros Hs Hvv Hval.
  destruct s as [sg|[|]| |[|] ms es]; try contradiction.
  - rewrite updated_goodness_infinity; [exact I|].
    apply leb_finite_positive in Hval. now destruct val as [|[|]| |[|]].
  - apply (at_least_trans m ms e es); [exact Hs|].
    apply updated_at_least; [exact (proj1 Hs) | exact Hvv | exact Hval].
Qed.

(** X20: a clip scored at least 0.7 never lowers a positive score: the factor
    [val + 0.3] is then at least 1 after rounding, and the new score, fused or
    not, is at least the old one in float32 arithmetic. *)
Theorem good_clip_never_lowers_score (fused : bool) (old val : float32) :
  valid old = true -> positive_ old = true ->
  valid val = true -> leb c0_7 val = true ->
  leb old (updated_goodness fused old val) = true.
Proof.
  intros Hvo Hpo Hvv Hval.
  destruct old as [s|[|]| |[|] m e]; try discriminate.
  - rewrite updated_goodness_infinity; [reflexivity|].
    apply leb_finite_positive in Hval. now destruct val as [|[|]| |[|]].
  - apply at_least_leb, updated_at_least;
      [exact (valid_canonical _ _ _ Hvo) | exact Hvv | exact Hval].
Qed.

Lemma good_clip_never_lowers_score_witness :
  leb c0_5 (updated_goodness true c0_5 c0_9) = true.
Proof.
  apply good_clip_never_lowers_score; reflexivity.
Defined.

(** X21: through every run that completes and in which each scored value is at
    least 0.7, a tracked station with a positive score ends with a score at
    least as high as the one it started with. *)
Theorem scores_never_fall_on_good_clips (fused : bool) (c : loop_context)
    (ws : list iteration_world) (s : loop_state) (t : list event) (s' : loop_state)
    (station score : float32) :
  Forall scores_good ws ->
  valid score = true -> positive_ score = true ->
  lookup (stationGoodness s) station = Some score ->
  main_loop fused c s ws = (t, Return s') ->
  exists score', lookup (stationGoodness s') station = Some score'
                 /\ leb score score' = true.
Proof.
  intros Hgood Hvalid Hpos Hst Hrun.
  assert (Forall (fun w => forall n val, scored (station_worlds w n) = inr val ->
                                         valid val = true /\ leb c0_7 val = true) ws)
    as HV by exact Hgood.
  destruct score as [sg|[|]| |[|] m e]; try discriminate.
  - destruct (main_loop_score_invariant fused (fun x => x = S754_infinity false)
                (fun v => valid v = true /\ leb c0_7 v = true)) with
      (c := c) (ws := ws) (st := station) (s := s) (t := t) (s' := s')
      (score := S754_infinity false) as (x & Hx & ->); auto.
    + intros x val -> [_ Hval]. apply updated_goodness_infinity.
      apply leb_finite_positive in Hval. now destruct val as [|[|]| |[|]].
    + eauto.
  - pose proof (valid_canonical _ _ _ Hvalid) as Hc.
    destruct (main_loop_score_invariant fused (at_least m e)
                (fun v => valid v = true /\ leb c0_7 v = true)) with
      (c := c) (ws := ws) (st := station) (s := s) (t := t) (s' := s')
      (score := S754_finite false m e) as (x & Hx & HQ); auto.
    + intros x val Hx [Hv Hval]. now apply updated_at_least_closed.
    + simpl. split; [exact Hc | right; lia].
    + exists x. split; [exact Hx | now apply at_least_leb].
Qed.

Lemma scores_never_fall_on_good_clips_witness :
  exists score',
    lookup [(station_91_5, S754_finite false 10905191 (-24))] station_91_5 = Some score'
    /\ leb c0_5 score' = true.
Proof.
  refine (scores_never_fall_on_good_clips false example_context
            [quiet_iteration speech_world] (settled_state [(station_91_5, c0_5)])
            _ _ station_91_5 c0_5 _ eq_refl eq_refl eq_refl eq_refl).
  constructor; [|constructor]. intros n v Hv. injection Hv as <-.
  split; reflexivity.
Defined.

(** ** Discovery over the iterations of the loop *)

Lemma no_discovery_app (a b : list event) :
  no_discovery a -> no_discovery b -> no_discovery (a ++ b).
Proof. intros Ha Hb. apply Forall_app. now split. Qed.

Lemma sample_station_no_discovery (fused : bool) (c : loop_context) (m : station_map)
    (station g : float32) (w : station_world) :
  no_discovery (trace (sample_station fused c m station g w)).
Proof.
  destruct (ltb (rand_Float32 w) g) eqn:Hdraw;
    [|rewrite sample_station_skipped by exact Hdraw; constructor].
  destruct (GetAudio w) as [err|audio] eqn:Haudio.
  - unfold sample_station. rewrite Hdraw, Haudio. simpl. repeat constructor.
  - destruct (scored w) as [err|val] eqn:Hval.
    + unfold sample_station, goodness. rewrite Hdraw, Haudio, Hval. simpl.
      repeat constructor.
    + rewrite (sample_station_sampled fused c m station g w audio val Hdraw Haudio Hval).
      simpl. repeat (constructor; [reflexivity|]).
      destruct (gtb val c0_5) eqn:Hgt; [|constructor].
      unfold publish_events. constructor; [reflexivity|].
      destruct (sent w) as [e|[p o]]; repeat constructor.
Qed.

Lemma sampling_pass_no_discovery (fused : bool) (c : loop_context)
    (order : list (float32 * float32)) (ws : nat -> station_world) :
  forall (m : station_map) (n : nat),
    no_discovery (trace (sampling_pass fused c m order ws n)).
Proof.
  induction order as [|[station g] rest IH]; intros m n; simpl; [constructor|].
  apply (trace_bind_closed no_discovery _ _ no_discovery_app).
  - apply sample_station_no_discovery.
  - intros m'. apply IH.
Qed.

(** An iteration at which no discovery is due is the sampling pass alone, and
    the recorded time goes on to the next iteration as it is. *)
Lemma main_iteration_quiet (fused : bool) (c : loop_context) (s : loop_state)
    (w : iteration_world) :
  within_five_minutes (lastStationsRefresh s) w ->
  no_discovery (trace (main_iteration fused c s w))
  /\ forall t s', main_iteration fused c s w = (t, Return s') ->
                  lastStationsRefresh s' = lastStationsRefresh s.
Proof.
  intros Hle. unfold main_iteration.
  assert (refresh_stations c s w = ret s) as ->.
  { apply refresh_stations_skipped.
    destruct (refresh_due (Now_check w) (lastStationsRefresh s)) eqn:E; [|reflexivity].
    apply refresh_due_iff in E. unfold within_five_minutes in Hle. lia. }
  rewrite bind_ret_l. split.
  - apply (trace_bind_closed no_discovery _ _ no_discovery_app).
    + apply sampling_pass_no_discovery.
    + intros m'. constructor.
  - intros t s'. unfold bind.
    destruct (sampling_pass fused c (stationGoodness s)
                (range_order w (stationGoodness s)) (station_worlds w) 0)
      as [t1 [m1|p]]; [|discriminate].
    simpl. now intros [= _ <-].
Qed.

Lemma main_loop_quiet (fused : bool) (c : loop_context) (last : time.Time)
    (ws : list iteration_world) :
  Forall (within_five_minutes last) ws ->
  forall s, lastStationsRefresh s = last ->
    no_discovery (trace (main_loop fused c s ws))
    /\ forall t s', main_loop fused c s ws = (t, Return s') ->
                    lastStationsRefresh s' = last.
Proof.
  induction ws as [|w ws IH]; intros Hws s Hs.
  - simpl. split; [constructor|]. now intros t s' [= _ <-].
  - apply Forall_cons in Hws as [Hw Hws]. rewrite <- Hs in Hw.
    destruct (main_iteration_quiet fused c s w Hw) as [Hq1 Hq2].
    simpl main_loop. split.
    + rewrite trace_bind.
      destruct (main_iteration fused c s w) as [t1 [s1|p]] eqn:Hit; simpl in *;
        [|exact Hq1].
      apply no_discovery_app; [exact Hq1|].
      apply (IH Hws s1). rewrite (Hq2 t1 s1 eq_refl). exact Hs.
    + intros t s'. unfold bind.
      destruct (main_iteration fused c s w) as [t1 [s1|p]] eqn:Hit; [|discriminate].
      destruct (main_loop fused c s1 ws) as [t2 r2] eqn:Hloop.
      intros [= _ ->].
      apply (proj2 (IH Hws s1 ltac:(rewrite (Hq2 t1 s1 eq_refl); exact Hs)) t2 s' Hloop).
Qed.

(** An iteration at which a discovery is due and which completes has made one
    discovery, at its start, and hands the time recorded after it to the next
    iteration. *)
Lemma main_iteration_discovers (fused : bool) (c : loop_context) (s : loop_state)
    (w : iteration_world) (t : list event) (s' : loop_state) :
  5 * time.Minute < Now_check w - lastStationsRefresh s ->
  main_iteration fused c s w = (t, Return s') ->
  lastStationsRefresh s' = Now_refreshed w
  /\ exists t', t = CallGetCeilingSignals (hostname c) (-8) :: t' /\ no_discovery t'.
Proof.
  intros Hlt. apply refresh_due_iff in Hlt.
  destruct (GetCeilingSignals w) as [err|stations] eqn:Hsig.
  - unfold main_iteration, refresh_stations. rewrite Hlt, Hsig. discriminate.
  - destruct (refresh_stations_answered c s w stations Hlt Hsig)
      as (t0 & m' & Htrack & Heq).
    pose proof (track_stations_prints stations (stationGoodness s)) as Hp.
    rewrite Htrack in Hp. simpl in Hp.
    assert (no_discovery t0) as Ht0.
    { eapply List.Forall_impl; [|exact Hp]. now intros e [args ->]. }
    unfold main_iteration. rewrite Heq.
    destruct (length m' <? 1)%nat; [discriminate|].
    unfold bind at 1.
    pose proof (sampling_pass_no_discovery fused c (range_order w m') (station_worlds w)
                  m' 0%nat) as Hpass.
    cbn [stationGoodness lastStationsRefresh].
    destruct (sampling_pass fused c m' (range_order w m') (station_worlds w) 0)
      as [t1 [m1|p]]; [|discriminate].
    simpl. intros [= <- <-]. split; [reflexivity|].
    eexists. split; [reflexivity|].
    rewrite app_nil_r. apply no_discovery_app; [|exact Hpass].
    apply no_discovery_app; [exact Ht0 | repeat constructor].
Qed.

(** C7, as the code has it: no discovery is made at a check at which at most
    five minutes have passed since the recorded time, and over every run of
    iterations whose checks are within five minutes of it there is none and the
    recorded time stays.  A due discovery records the time when it answers and
    a station is tracked afterwards, an empty answer included; the iteration
    that completes hands that time on, so that the iterations within five
    minutes of it make no discovery: the one at its start is the only one.
    When the discovery fails, or when nothing is tracked, the process panics:
    nothing is recorded and the loop does not go on, so there is no discovery
    after a failed one. *)
Theorem discovery_skipped_within_five_minutes (fused : bool) (c : loop_context)
    (s : loop_state) (w : iteration_world) :
  (within_five_minutes (lastStationsRefresh s) w ->
   refresh_stations c s w = ([], Return s))
  /\ (forall ws,
         Forall (within_five_minutes (lastStationsRefresh s)) ws ->
         no_discovery (trace (main_loop fused c s ws))
         /\ forall t s', main_loop fused c s ws = (t, Return s') ->
                         lastStationsRefresh s' = lastStationsRefresh s)
  /\ (5 * time.Minute < Now_check w - lastStationsRefresh s ->
      (forall stations,
          GetCeilingSignals w = inr stations ->
          stations <> [] \/ stationGoodness s <> [] ->
          exists t s', refresh_stations c s w = (t, Return s')
                       /\ lastStationsRefresh s' = Now_refreshed w)
      /\ (forall t1 s1,
             main_iteration fused c s w = (t1, Return s1) ->
             lastStationsRefresh s1 = Now_refreshed w
             /\ forall ws,
                 Forall (within_five_minutes (Now_refreshed w)) ws ->
                 exists t' t2 r,
                   main_loop fused c s (w :: ws)
                   = (CallGetCeilingSignals (hostname c) (-8) :: t' ++ t2, r)
                   /\ t1 = CallGetCeilingSignals (hostname c) (-8) :: t'
                   /\ main_loop fused c s1 ws = (t2, r)
                   /\ no_discovery (t' ++ t2)
                   /\ forall s', r = Return s' ->
                                 lastStationsRefresh s' = Now_refreshed w)
      /\ (forall err ws,
             GetCeilingSignals w = inl err ->
             main_loop fused c s (w :: ws)
             = ([CallGetCeilingSignals (hostname c) (-8)], Panic (PanicError err)))
      /\ (forall ws,
             GetCeilingSignals w = inr [] -> stationGoodness s = [] ->
             main_loop fused c s (w :: ws)
             = ([CallGetCeilingSignals (hostname c) (-8)],
                Panic (PanicString "No FM stations. Move the antenna?")))).
Proof.
  split; [|split].
  - intros Hle. apply refresh_stations_skipped.
    destruct (refresh_due (Now_check w) (lastStationsRefresh s)) eqn:E; [|reflexivity].
    apply refresh_due_iff in E. unfold within_five_minutes in Hle. lia.
  - intros ws Hws. exact (main_loop_quiet fused c _ ws Hws s eq_refl).
  - intros Hdue. pose proof Hdue as Hlt. apply refresh_due_iff in Hlt.
    split; [|split; [|split]].
    + intros stations Hsig Hne.
      destruct (refresh_stations_answered c s w stations Hlt Hsig)
        as (t & m' & Htrack & Heq).
      destruct (track_stations_spec stations (stationGoodness s))
        as (t1 & m1 & Htrack1 & _ & _ & _ & Hlen & Hlen1).
      rewrite Htrack in Htrack1. injection Htrack1 as <- <-.
      assert (1 <= length m')%nat as Hpos.
      { destruct Hne as [Hne|Hne]; [now apply Hlen1|].
        destruct (stationGoodness s); [contradiction | simpl in Hlen; lia]. }
      rewrite Heq. destruct (Nat.ltb_spec (length m') 1); [lia|].
      eexists _, _. split; reflexivity.
    + intros t1 s1 Hit.
      destruct (main_iteration_discovers fused c s w t1 s1 Hdue Hit)
        as (Hrec & t' & -> & Ht').
      split; [exact Hrec|]. intros ws Hws.
      destruct (main_loop_quiet fused c _ ws Hws s1 Hrec) as [Hq1 Hq2].
      destruct (main_loop fused c s1 ws) as [t2 r] eqn:Hloop.
      exists t', t2, r. simpl main_loop. unfold bind. rewrite Hit, Hloop.
      split; [reflexivity|]. split; [reflexivity|]. split; [reflexivity|].
      split; [apply no_discovery_app; [exact Ht' | exact Hq1]|].
      intros s' ->. exact (Hq2 t2 s' eq_refl).
    + intros err ws Hsig. simpl main_loop.
      unfold main_iteration, refresh_stations. now rewrite Hlt, Hsig.
    + intros ws Hsig Hempty. simpl main_loop.
      unfold main_iteration, refresh_stations. now rewrite Hlt, Hsig, Hempty.
Qed.

Lemma discovery_skipped_within_five_minutes_witness :
  exists t' t2 r,
    main_loop false example_context initial_state example_run
    = (CallGetCeilingSignals "sdr" (-8) :: t' ++ t2, r)
    /\ no_discovery (t' ++ t2).
Proof.
  pose proof (proj2 (proj2 (discovery_skipped_within_five_minutes false example_context
                              initial_state
                              (example_iteration (inr [station_91_5; station_101_1])
                                                 1500000000000000000 speech_world))))
    as H.
  destruct (H ltac:(vm_compute; reflexivity)) as (_ & H2 & _).
  destruct (H2 _ _ eq_refl) as (_ & H3).
  destruct (H3 [example_iteration (inr []) 1500000001000000000 broker_down_world])
    as (t' & t2 & r & E & _ & _ & Hn & _).
  - constructor; [|constructor]. unfold within_five_minutes. simpl. vm_compute.
    discriminate.
  - exists t', t2, r. split; [exact E | exact Hn].
Defined.

(** ** Sampling in a pass *)

(** A visit whose draw is below the goodness starts with the capture. *)
Lemma sample_station_captures (fused : bool) (c : loop_context) (m : station_map)
    (station g : float32) (w : station_world) :
  ltb (rand_Float32 w) g = true ->
  exists t, trace (sample_station fused c m station g w)
            = CallGetAudio (hostname c) station :: t.
Proof.
  intros Hdraw. unfold sample_station. rewrite Hdraw. unfold trace, bind, emit.
  match goal with
  | |- exists t, fst (let '(t', r) := ?k in _) = _ => destruct k as [t' r]
  end.
  simpl. eauto.
Qed.

(** A pass captures from the stations of its order only. *)
Lemma sampling_pass_captures_in_order (fused : bool) (c : loop_context)
    (order : list (float32 * float32)) (ws : nat -> station_world)
    (host : string) (k : float32) :
  forall (m : station_map) (n : nat),
    In (CallGetAudio host k) (trace (sampling_pass fused c m order ws n)) ->
    exists g, In (k, g) order.
Proof.
  induction order as [|[station g] rest IH]; intros m n; simpl; [intros []|].
  rewrite trace_bind.
  assert (In (CallGetAudio host k) (trace (sample_station fused c m station g (ws n))) ->
          exists g0, (station, g) = (k, g0) \/ In (k, g0) rest) as Hvisit.
  { intros Hin. apply sample_station_GetAudio in Hin. subst k. eauto. }
  destruct (outcome (sample_station fused c m station g (ws n))) as [m1|p];
    [|exact Hvisit].
  intros Hin. apply in_app_or in Hin. destruct Hin as [Hin|Hin]; [auto|].
  destruct (IH m1 (S n) Hin) as [g0 Hg0]. eauto.
Qed.

(** A pass over stations other than [k] leaves the score of [k] as it is. *)
Lemma sampling_pass_lookup_other (fused : bool) (c : loop_context)
    (order : list (float32 * float32)) (ws : nat -> station_world) (k : float32) :
  (forall k' g', In (k', g') order -> eqb k' k = false) ->
  forall (m : station_map) (n : nat) (t : list event) (m' : station_map),
    sampling_pass fused c m order ws n = (t, Return m') ->
    lookup m' k = lookup m k.
Proof.
  induction order as [|[station g] rest IH]; intros Hother m n t m'; simpl.
  - now intros [= _ <-].
  - unfold bind.
    destruct (sample_station fused c m station g (ws n)) as [t1 [m1|p]] eqn:Hvisit;
      [|discriminate].
    destruct (sampling_pass fused c m1 rest ws (S n)) as [t2 r2] eqn:Hrest.
    intros [= _ ->].
    rewrite (IH ltac:(intros k' g' Hin; apply (Hother k' g'); now right)
                m1 (S n) t2 m' Hrest).
    destruct (sample_station_cases _ _ _ _ _ _ _ _ Hvisit) as [->|(val & _ & ->)];
      [reflexivity|].
    apply lookup_assign_other. apply (Hother station g). now left.
Qed.

Lemma keys_apart_split (before after : list (float32 * float32)) (k g : float32) :
  keys_apart (before ++ (k, g) :: after) ->
  (forall k' g', In (k', g') before -> eqb k' k = false)
  /\ (forall k' g', In (k', g') after -> eqb k' k = false).
Proof.
  induction before as [|[k0 g0] before IH]; simpl.
  - intros [Hk _]. split; [intros k' g' []|].
    intros k' g' Hin. rewrite eqb_sym. exact (Hk k' g' Hin).
  - intros [Hk0 Hrest]. destruct (IH Hrest) as [Hb Ha]. split; [|exact Ha].
    intros k' g' [[= <- <-]|Hin]; [|exact (Hb k' g' Hin)].
    apply (Hk0 k g). apply in_or_app. right. now left.
Qed.

(** A pass that completes has completed the visits of every prefix of its
    order. *)
Lemma sampling_pass_prefix (fused : bool) (c : loop_context)
    (o1 o2 : list (float32 * float32)) (ws : nat -> station_world)
    (m : station_map) (n : nat) (t : list event) (m' : station_map) :
  sampling_pass fused c m (o1 ++ o2) ws n = (t, Return m') ->
  exists t1 m1, sampling_pass fused c m o1 ws n = (t1, Return m1).
Proof.
  rewrite sampling_pass_app. unfold bind.
  destruct (sampling_pass fused c m o1 ws n) as [t1 [m1|p]]; [eauto|discriminate].
Qed.

(** The station reached after the visits [before] is compared at its current
    score, and the pass captures from it exactly when its draw is below that. *)
Lemma sampling_pass_visit (fused : bool) (c : loop_context) (m : station_map)
    (order : list (float32 * float32)) (ws : nat -> station_world) (n : nat)
    (before after : list (float32 * float32)) (station g : float32)
    (t1 : list event) (m1 : station_map) :
  distinct_keys m -> Permutation order m ->
  order = before ++ (station, g) :: after ->
  sampling_pass fused c m before ws n = (t1, Return m1) ->
  (is_nan station = false -> lookup m1 station = Some g)
  /\ (ltb (rand_Float32 (ws (n + length before)%nat)) g = true ->
      In (CallGetAudio (hostname c) station)
         (trace (sampling_pass fused c m order ws n)))
  /\ (is_nan station = false ->
      In (CallGetAudio (hostname c) station)
         (trace (sampling_pass fused c m order ws n)) ->
      ltb (rand_Float32 (ws (n + length before)%nat)) g = true).
Proof.
  intros Hdistinct Hperm -> Hbefore.
  assert (keys_apart (before ++ (station, g) :: after)) as Hapart
    by (apply (keys_apart_perm m); [now symmetry | now apply distinct_keys_apart]).
  destruct (keys_apart_split _ _ _ _ Hapart) as [Hb Ha].
  assert (trace (sampling_pass fused c m (before ++ (station, g) :: after) ws n)
          = t1 ++ trace (sampling_pass fused c m1 ((station, g) :: after) ws
                           (n + length before))) as HT.
  { rewrite sampling_pass_app, Hbefore. unfold bind.
    now destruct (sampling_pass fused c m1 ((station, g) :: after) ws
                    (n + length before)). }
  rewrite HT. simpl sampling_pass. rewrite trace_bind.
  set (w := ws (n + length before)%nat).
  split; [|split].
  - intros Hnan.
    rewrite (sampling_pass_lookup_other fused c before ws station Hb m n t1 m1 Hbefore).
    apply distinct_In_lookup; [exact Hdistinct | | exact Hnan].
    apply (Permutation_in _ Hperm). apply in_or_app. right. now left.
  - intros Hdraw.
    destruct (sample_station_captures fused c m1 station g w Hdraw) as [t' Ht'].
    apply in_or_app. right. rewrite Ht'.
    destruct (outcome (sample_station fused c m1 station g w)); now left.
  - intros Hnan Hin.
    pose proof (eqb_refl station Hnan) as Hrefl.
    apply in_app_or in Hin. destruct Hin as [Hin|Hin].
    + rewrite <- (f_equal fst Hbefore : trace _ = t1) in Hin.
      apply sampling_pass_captures_in_order in Hin. destruct Hin as [g0 Hg0].
      rewrite (Hb station g0 Hg0) in Hrefl. discriminate.
    + destruct (ltb (rand_Float32 w) g) eqn:Hdraw; [reflexivity|].
      rewrite (sample_station_skipped fused c m1 station g w Hdraw) in Hin.
      simpl in Hin.
      apply sampling_pass_captures_in_order in Hin. destruct Hin as [g0 Hg0].
      rewrite (Ha station g0 Hg0) in Hrefl. discriminate.
Qed.

(** A pass that completes with draws below 1 has captured from every station
    whose score is 1 or more. *)
Lemma sampling_pass_samples_high_scores (fused : bool) (c : loop_context)
    (m : station_map) (order : list (float32 * float32)) (ws : nat -> station_world)
    (n : nat) (t : list event) (m' : station_map) (station g : float32) :
  distinct_keys m -> Permutation order m ->
  sampling_pass fused c m order ws n = (t, Return m') ->
  draws_below_one ws ->
  In (station, g) m -> leb one g = true ->
  In (CallGetAudio (hostname c) station) t.
Proof.
  intros Hdistinct Hperm Hpass Hdraws Hin Hone.
  apply (Permutation_in _ (Permutation_sym Hperm)) in Hin.
  destruct (in_split _ _ Hin) as (before & after & Horder).
  pose proof Hpass as Hpass'. rewrite Horder in Hpass'.
  destruct (sampling_pass_prefix _ _ _ _ _ _ _ _ _ Hpass') as (t1 & m1 & Hbefore).
  destruct (sampling_pass_visit fused c m order ws n before after station g t1 m1
              Hdistinct Hperm Horder Hbefore) as (_ & H2 & _).
  rewrite Hpass in H2. apply H2.
  exact (ltb_leb_trans _ _ _ (Hdraws _) Hone).
Qed.

(** So has every iteration of the loop that completes. *)
Lemma main_iteration_samples_high_scores (fused : bool) (c : loop_context)
    (s : loop_state) (w : iteration_world) (t : list event) (s' : loop_state)
    (station g : float32) :
  distinct_keys (stationGoodness s) -> range_visits_entries w ->
  draws_below_one (station_worlds w) ->
  main_iteration fused c s w = (t, Return s') ->
  In (station, g) (stationGoodness s) -> leb one g = true ->
  In (CallGetAudio (hostname c) station) t.
Proof.
  intros Hdistinct Hrange Hdraws Hit Hin Hone.
  revert Hit. unfold main_iteration, bind.
  destruct (refresh_stations c s w) as [t0 [s1|p]] eqn:Hrefresh; [|discriminate].
  destruct (sampling_pass fused c (stationGoodness s1)
              (range_order w (stationGoodness s1)) (station_worlds w) 0)
    as [t1 [m1|p]] eqn:Hpass; [|discriminate].
  simpl. intros [= <- _].
  destruct (refresh_stations_appends c s w t0 s1 Hrefresh) as (added & Hm1 & _ & Hd1).
  apply in_or_app. right. rewrite app_nil_r.
  apply (sampling_pass_samples_high_scores fused c (stationGoodness s1)
           (range_order w (stationGoodness s1)) (station_worlds w) 0 t1 m1 station g);
    auto.
  rewrite Hm1. apply in_or_app. now left.
Qed.

(** C8: in a pass over the map (the keys distinct, the entries visited in some
    order) the station reached after the visits [before] is compared at its
    current score: the score of the entry is what the map holds for it at that
    moment.  Audio is captured from it in the pass exactly when the draw of its
    visit is strictly below that score.  A draw that samples at a score samples
    at every higher one, and among any draws those that sample are not fewer at
    a higher score.  A station whose score is 1 or more is sampled when its
    draw is below 1: with draws below 1 every pass that completes, and so every
    iteration of the loop that completes, has sampled every such station. *)
Theorem sampled_iff_draw_below_score (fused : bool) (c : loop_context) (m : station_map)
    (order : list (float32 * float32)) (ws : nat -> station_world) (n : nat) :
  distinct_keys m -> Permutation order m ->
  (forall before station g after t1 m1,
      order = before ++ (station, g) :: after ->
      sampling_pass fused c m before ws n = (t1, Return m1) ->
      let draw := rand_Float32 (ws (n + length before)%nat) in
      let T := trace (sampling_pass fused c m order ws n) in
      (is_nan station = false -> lookup m1 station = Some g)
      /\ (ltb draw g = true -> In (CallGetAudio (hostname c) station) T)
      /\ (is_nan station = false ->
          In (CallGetAudio (hostname c) station) T -> ltb draw g = true)
      /\ (forall g', ltb draw g = true -> leb g g' = true -> ltb draw g' = true)
      /\ (leb one g = true -> ltb draw one = true ->
          In (CallGetAudio (hostname c) station) T))
  /\ (forall t m',
         sampling_pass fused c m order ws n = (t, Return m') ->
         draws_below_one ws ->
         forall station g, In (station, g) m -> leb one g = true ->
                           In (CallGetAudio (hostname c) station) t)
  /\ (forall (s : loop_state) (w : iteration_world) (t : list event) (s' : loop_state),
         distinct_keys (stationGoodness s) -> range_visits_entries w ->
         draws_below_one (station_worlds w) ->
         main_iteration fused c s w = (t, Return s') ->
         forall station g, In (station, g) (stationGoodness s) -> leb one g = true ->
                           In (CallGetAudio (hostname c) station) t)
  /\ (forall draws g g', leb g g' = true ->
        (length (List.filter (fun r => ltb r g) draws)
         <= length (List.filter (fun r => ltb r g') draws))%nat).
Proof.
  intros Hdistinct Hperm. split; [|split; [|split]].
  - intros before station g after t1 m1 Horder Hbefore draw T.
    destruct (sampling_pass_visit fused c m order ws n before after station g t1 m1
                Hdistinct Hperm Horder Hbefore) as (H1 & H2 & H3).
    split; [exact H1|]. split; [exact H2|]. split; [exact H3|]. split.
    + intros g' Hd Hle. exact (ltb_leb_trans _ _ _ Hd Hle).
    + intros Hone Hd. apply H2. exact (ltb_leb_trans _ _ _ Hd Hone).
  - intros t m' Hpass Hdraws station g Hin Hone.
    exact (sampling_pass_samples_high_scores fused c m order ws n t m' station g
             Hdistinct Hperm Hpass Hdraws Hin Hone).
  - intros s w t s' Hd Hrange Hdraws Hit station g Hin Hone.
    exact (main_iteration_samples_high_scores fused c s w t s' station g
             Hd Hrange Hdraws Hit Hin Hone).
  - intros draws g g'. apply sampling_count_monotone.
Qed.

Lemma sampled_iff_draw_below_score_witness :
  In (CallGetAudio "sdr" station_101_1)
     (trace (sampling_pass false example_context
               [(station_91_5, c0_5); (station_101_1, S754_finite false 11324621 (-23))]
               [(station_91_5, c0_5); (station_101_1, S754_finite false 11324621 (-23))]
               (fun _ => speech_world) 0)).
Proof.
  refine (proj2 (proj2 (proj2 (proj2
            (proj1 (sampled_iff_draw_below_score false example_context
                      [(station_91_5, c0_5);
                       (station_101_1, S754_finite false 11324621 (-23))]
                      [(station_91_5, c0_5);
                       (station_101_1, S754_finite false 11324621 (-23))]
                      (fun _ => speech_world) 0 _ (Permutation_refl _))
                   [(station_91_5, c0_5)] station_101_1
                   (S754_finite false 11324621 (-23)) [] _ _ eq_refl eq_refl))))
            eq_refl eq_refl).
  simpl. repeat split; reflexivity.
Defined.
